(** * Fixture Fusion: the event-aggregation pipeline

    A shallow embedding of [lib/data-sources.ts], [lib/events-service.ts],
    [app/api/events/route.ts] and [types/events.ts], and of what the
    calendar page and the tournaments page compute from the feed
    ([components/calendar/CalendarPage.tsx], [app/tournaments/page.tsx]),
    followed by the properties of the pipeline and of the pages.

    Conventions.
    - A JavaScript string is a [string]; a character is read as the code
      point of the same number (0..255).
    - [T | undefined] and [T | null] are [option T].
    - A JavaScript number that holds an integer is a [Z]; [NaN] is [None]
      where a computation can produce it.
    - A promise that settles is a [Result]: [Ok v] when it fulfils,
      [Throw e] when it rejects.  Synchronous code that can throw returns
      a [Result] as well.
    - What the code takes from its runtime and its libraries ([Date],
      date-fns, [URL], node-html-parser) is the class [Platform]; what it
      takes from the network and the clock is the record [World]. *)

From stdpp Require Import base list strings sorting.
From Stdlib Require Import ZArith Ascii Lia.

#[local] Open Scope string_scope.
#[local] Open Scope list_scope.
#[local] Open Scope Z_scope.

(** ** JavaScript values *)

Module JS.

(** *** Settled promises and thrown errors *)

(** An [Error] is its message. *)
Definition Error : Type := string.

Inductive Result (A : Type) : Type :=
| Ok (value : A)
| Throw (error : Error).
Arguments Ok {A} value.
Arguments Throw {A} error.

Definition bind {A B} (r : Result A) (k : A -> Result B) : Result B :=
  match r with
  | Ok v => k v
  | Throw e => Throw e
  end.

Definition is_ok {A} (r : Result A) : bool :=
  match r with Ok _ => true | Throw _ => false end.

(** [Promise.all] of two promises: the pair of values when both fulfil, a
    rejection as soon as one rejects.  JavaScript rejects with the reason
    of the promise that rejected first in time; the model takes the one
    of lower index, and no property below depends on which reason it is
    when two reject. *)
Definition Promise_all2 {A B} (a : Result A) (b : Result B) : Result (A * B) :=
  match a, b with
  | Ok x, Ok y => Ok (x, y)
  | Throw e, _ => Throw e
  | Ok _, Throw e => Throw e
  end.

(** [Promise.all] of a list of promises of one type. *)
Fixpoint Promise_all {A} (ps : list (Result A)) : Result (list A) :=
  match ps with
  | [] => Ok []
  | p :: rest =>
      match p, Promise_all rest with
      | Ok x, Ok xs => Ok (x :: xs)
      | Throw e, _ => Throw e
      | Ok _, Throw e => Throw e
      end
  end.

(** *** Characters and strings *)

Definition code (c : ascii) : Z := Z.of_N (N_of_ascii c).

(** [\d] *)
Definition isDigit (c : ascii) : bool := (48 <=? code c) && (code c <=? 57).

(** [\s], and what [trim] and [parseInt] strip: TAB, LF, VT, FF, CR, SP and
    NBSP among the code points below 256. *)
Definition isSpace (c : ascii) : bool :=
  ((9 <=? code c) && (code c <=? 13)) || (code c =? 32) || (code c =? 160).

Definition chars (s : string) : list ascii := String.list_ascii_of_string s.
Definition str (l : list ascii) : string := String.string_of_list_ascii l.

(** A string is truthy when it is not empty. *)
Definition truthy (s : string) : bool :=
  match s with EmptyString => false | String _ _ => true end.

(** [o] as a condition, for [o : string | undefined]. *)
Definition truthy_opt (o : option string) : bool :=
  match o with Some s => truthy s | None => false end.

(** [o?.f] for a field [f] that may itself be undefined. *)
Definition chain {A B} (o : option A) (f : A -> option B) : option B :=
  match o with Some x => f x | None => None end.

(** [a ?? b] *)
Definition nullish {A} (a : option A) (b : option A) : option A :=
  match a with Some _ => a | None => b end.

(** [a ?? b] with [b] never undefined *)
Definition nullish_or {A} (a : option A) (b : A) : A :=
  match a with Some x => x | None => b end.

Fixpoint trimStart_chars (l : list ascii) : list ascii :=
  match l with
  | c :: rest => if isSpace c then trimStart_chars rest else l
  | [] => []
  end.

Definition trimEnd_chars (l : list ascii) : list ascii :=
  rev (trimStart_chars (rev l)).

(** [s.trim()] *)
Definition trim (s : string) : string :=
  str (trimEnd_chars (trimStart_chars (chars s))).

(** [s.replace(/\s+/g, " ")]: every maximal run of white space becomes one
    space.  [in_run] says that the previous character was white space. *)
Fixpoint collapse_chars (in_run : bool) (l : list ascii) : list ascii :=
  match l with
  | [] => []
  | c :: rest =>
      if isSpace c
      then (if in_run then collapse_chars true rest
            else " "%char :: collapse_chars true rest)
      else c :: collapse_chars false rest
  end.

Definition collapseSpaces (s : string) : string := str (collapse_chars false (chars s)).

(** [s.split(/\s+/)]: the pieces between maximal runs of white space; a
    leading or trailing run leaves an empty piece at that end, and the
    empty string splits into one empty piece.  [cur] is the piece being
    read, reversed. *)
Fixpoint split_chars (cur : list ascii) (in_run : bool) (l : list ascii) : list string :=
  match l with
  | [] => [str (rev cur)]
  | c :: rest =>
      if isSpace c
      then (if in_run then split_chars cur true rest
            else str (rev cur) :: split_chars [] true rest)
      else split_chars (c :: cur) false rest
  end.

Definition splitSpaces (s : string) : list string := split_chars [] false (chars s).

(** [s.startsWith(p)] *)
Definition startsWith (s p : string) : bool := String.prefix p s.

(** [s.includes(p)] *)
Fixpoint includes (s p : string) : bool :=
  String.prefix p s ||
  match s with
  | EmptyString => false
  | String _ rest => includes rest p
  end.

(** [/\d/.test(s)] *)
Definition hasDigit (s : string) : bool := existsb isDigit (chars s).

(** U+00B7, the middle dot. *)
Definition middleDot : string := String "183"%char "".

(** [pieces.join(sep)] *)
Fixpoint join (sep : string) (pieces : list string) : string :=
  match pieces with
  | [] => ""
  | [p] => p
  | p :: rest => p +:+ sep +:+ join sep rest
  end.

(** [values.filter(Boolean)] on optional strings: the defined, non-empty
    ones. *)
Definition filterBoolean (values : list (option string)) : list string :=
  omap (fun v => match v with
                 | Some s => if truthy s then Some s else None
                 | None => None
                 end) values.

(** *** Numbers *)

(** The Number nearest to an integer (ties to even).  Integers below 2^53
    in magnitude are Numbers; [2^1024] stands for [Infinity].  Rounding is
    monotone, so comparing two rounded integers as integers is comparing
    the Numbers. *)
Definition toNumber (n : Z) : Z :=
  let a := Z.abs n in
  if a <? 2 ^ 53 then n
  else
    let e := Z.log2 a - 52 in
    let q := Z.shiftr a e in
    let r := a - Z.shiftl q e in
    let half := 2 ^ (e - 1) in
    let q' := if (half <? r) || ((r =? half) && Z.odd q) then q + 1 else q in
    Z.sgn n * Z.min (Z.shiftl q' e) (2 ^ 1024).

Fixpoint takeDigits (l : list ascii) : list ascii :=
  match l with
  | c :: rest => if isDigit c then c :: takeDigits rest else []
  | [] => []
  end.

(** The integer a string of decimal digits denotes. *)
Definition digitsValue (l : list ascii) : Z :=
  fold_left (fun acc c => 10 * acc + (code c - 48)) l 0.

(** [Number.parseInt(s, 10)]: white space is skipped, then an optional
    sign, then the longest run of digits is read; [NaN] when that run is
    empty. *)
Definition parseInt (s : string) : option Z :=
  let l := trimStart_chars (chars s) in
  let '(sign, l) :=
    match l with
    | c :: rest =>
        if Ascii.eqb c "-" then (-1, rest)
        else if Ascii.eqb c "+" then (1, rest)
        else (1, l)
    | [] => (1, l)
    end in
  match takeDigits l with
  | [] => None
  | ds => Some (toNumber (sign * digitsValue ds))
  end.

(** [s.match(/-?\d+/)]: the leftmost match, [null] when there is none.  A
    match starts at the first position that holds a digit, or a minus
    sign directly followed by a digit. *)
Fixpoint matchSignedDigits (l : list ascii) : option string :=
  match l with
  | [] => None
  | c :: rest =>
      if isDigit c then Some (str (takeDigits l))
      else if Ascii.eqb c "-" then
        match rest with
        | d :: _ => if isDigit d then Some (str (c :: takeDigits rest))
                    else matchSignedDigits rest
        | [] => None
        end
      else matchSignedDigits rest
  end.

(** *** Arrays *)

(** [l.find(p)] *)
Definition find {A} (p : A -> bool) (l : list A) : option A := List.find p l.

(** [l.some(p)] *)
Definition some {A} (p : A -> bool) (l : list A) : bool := existsb p l.

(** The sorting step of [Array.prototype.sort] and [toSorted].  The sort
    is stable; a comparator answer of [NaN] counts as [+0].
    [insertSorted] puts an element before the first element it does not
    come after, and [sort] inserts from the right, so equal elements keep
    their order.  (When the comparator is not consistent JavaScript leaves
    the order to the implementation; the result is a permutation in every
    case.) *)
Definition SortCompare (v : option Z) : Z :=
  match v with Some z => z | None => 0 end.

Fixpoint insertSorted {A} (comparefn : A -> A -> option Z) (x : A) (l : list A) : list A :=
  match l with
  | [] => [x]
  | y :: rest =>
      if SortCompare (comparefn x y) <=? 0 then x :: y :: rest
      else y :: insertSorted comparefn x rest
  end.

Fixpoint sort {A} (comparefn : A -> A -> option Z) (l : list A) : list A :=
  match l with
  | [] => []
  | x :: rest => insertSorted comparefn x (sort comparefn rest)
  end.

(** A [Map<string, V>] keeps its entries in the order in which their keys
    were first set; setting a key that is present replaces the value and
    keeps the position. *)
Fixpoint map_set {V} (m : list (string * V)) (k : string) (v : V) : list (string * V) :=
  match m with
  | [] => [(k, v)]
  | (k', v') :: rest =>
      if String.eqb k' k then (k, v) :: rest
      else (k', v') :: map_set rest k v
  end.

(** [m.get(k)] *)
Fixpoint map_get {V} (m : list (string * V)) (k : string) : option V :=
  match m with
  | [] => None
  | (k', v') :: rest => if String.eqb k' k then Some v' else map_get rest k
  end.

(** [Array.from(m.values())] *)
Definition map_values {V} (m : list (string * V)) : list V := List.map snd m.

(** A [Set<string>] that is only added to and asked for membership. *)
Definition set_has (s : list string) (k : string) : bool :=
  existsb (String.eqb k) s.

Definition set_add (s : list string) (k : string) : list string :=
  if set_has s k then s else s ++ [k].

End JS.

Import JS.

Notation "o ?. f" := (chain o f) (at level 40, left associativity, format "o ?. f").

(** ** [types/events.ts] *)

Inductive CalendarSource : Type :=
| MANCHESTER_UNITED
| LEEDS_UNITED
| LEGACY_CS2
| UFC.

Inductive CalendarOutcome : Type := WIN | LOSS | DRAW.

(** The public shape; the payload of the read endpoint is declared as an
    array of it. *)
Module CalendarEvent.
Record t : Type := {
  id : string;
  source : CalendarSource;
  title : string;
  competition : option string;
  fighters : option string;
  startTimeUTC : string;
  result : option string;
  outcome : option CalendarOutcome;
}.
End CalendarEvent.

(** [CalendarEvent & { venue?, location?, status?, url?, subtitle? }] *)
Record CalendarEventWithMeta : Type := {
  id : string;
  source : CalendarSource;
  title : string;
  competition : option string;
  fighters : option string;
  startTimeUTC : string;
  result : option string;
  outcome : option CalendarOutcome;
  venue : option string;
  location : option string;
  status : option string;
  url : option string;
  subtitle : option string;
}.

(** ** [lib/data-sources.ts]: constants and raw provider payloads *)

Definition DEFAULT_RANGE_MONTHS_AHEAD : Z := 6.
Definition DEFAULT_RANGE_MONTHS_BEHIND : Z := 1.
Definition LEGACY_RANGE_MONTHS_AHEAD : Z := 18.
Definition LEGACY_RANGE_MONTHS_BEHIND : Z := 3.

(** [keyof typeof TEAM_SOURCES] *)
Inductive TeamSourceKey : Type := TEAM_MANCHESTER_UNITED | TEAM_LEEDS_UNITED.

Definition calendarSource (source : TeamSourceKey) : CalendarSource :=
  match source with
  | TEAM_MANCHESTER_UNITED => MANCHESTER_UNITED
  | TEAM_LEEDS_UNITED => LEEDS_UNITED
  end.

(** A source as it prints in a template literal. *)
Definition sourceName (source : CalendarSource) : string :=
  match source with
  | MANCHESTER_UNITED => "MANCHESTER_UNITED"
  | LEEDS_UNITED => "LEEDS_UNITED"
  | LEGACY_CS2 => "LEGACY_CS2"
  | UFC => "UFC"
  end.

Record TeamConfig : Type := {
  teamId : string;
  displayName : string;
  endpoints : list string;
  scoreboardEndpoints : list string;
}.

Definition TEAM_SOURCES (source : TeamSourceKey) : TeamConfig :=
  match source with
  | TEAM_MANCHESTER_UNITED =>
      {| teamId := "360";
         displayName := "Manchester United";
         endpoints :=
           ["https://site.api.espn.com/apis/site/v2/sports/soccer/eng.1/teams/360/schedule"];
         scoreboardEndpoints :=
           ["https://site.api.espn.com/apis/site/v2/sports/soccer/eng.1/scoreboard"] |}
  | TEAM_LEEDS_UNITED =>
      {| teamId := "357";
         displayName := "Leeds United";
         endpoints :=
           ["https://site.api.espn.com/apis/site/v2/sports/soccer/eng.1/teams/357/schedule";
            "https://site.api.espn.com/apis/site/v2/sports/soccer/eng.2/teams/357/schedule"];
         scoreboardEndpoints :=
           ["https://site.api.espn.com/apis/site/v2/sports/soccer/eng.1/scoreboard";
            "https://site.api.espn.com/apis/site/v2/sports/soccer/eng.2/scoreboard"] |}
  end.

Definition UFC_SCOREBOARD_ENDPOINT : string :=
  "https://site.api.espn.com/apis/site/v2/sports/mma/ufc/scoreboard".
Definition LIQUIPEDIA_ENDPOINT : string :=
  "https://liquipedia.net/counterstrike/api.php".

(** [RawTeamSchedule], leaf types first. *)
Module Address.
Record t : Type := { city : option string; country : option string }.
End Address.

Module Venue.
Record t : Type := { fullName : option string; address : option Address.t }.
End Venue.

Module Team.
Record t : Type := {
  id : option string;
  displayName : option string;
  shortDisplayName : option string;
  abbreviation : option string;
}.
End Team.

Module Competitor.
Record t : Type := {
  id : option string;
  homeAway : option string;
  team : option Team.t;
  score : option string;
}.
End Competitor.

Module StatusType.
Record t : Type := {
  state : option string;
  detail : option string;
  description : option string;
}.
End StatusType.

Module Status.
Record t : Type := { type : option StatusType.t }.
End Status.

Module Competition.
Record t : Type := {
  date : option string;
  venue : option Venue.t;
  competitors : option (list Competitor.t);
  status : option Status.t;
}.
End Competition.

Module League.
Record t : Type := { name : option string; shortName : option string }.
End League.

Module TeamEvent.
Record t : Type := {
  id : option string;
  date : option string;
  name : option string;
  shortName : option string;
  seasonType_name : option string;
  season_displayName : option string;
  competitions : option (list Competition.t);
  league : option League.t;
}.
End TeamEvent.

Record RawTeamSchedule : Type := { schedule_events : option (list TeamEvent.t) }.
Record RawSoccerScoreboard : Type := { scoreboard_events : option (list TeamEvent.t) }.

(** [RawUfcScoreboard] *)
Module UfcCompetitor.
Record t : Type := { athlete_displayName : option string }.
End UfcCompetitor.

Module UfcCompetition.
Record t : Type := {
  id : option string;
  date : option string;
  matchNumber : option Z;
  cardSegment_name : option string;
  type_text : option string;
  type_abbreviation : option string;
  competitors : option (list UfcCompetitor.t);
}.
End UfcCompetition.

Module UfcEvent.
Record t : Type := {
  id : option string;
  date : option string;
  name : option string;
  shortName : option string;
  competitions : option (list UfcCompetition.t);
}.
End UfcEvent.

Record RawUfcScoreboard : Type := { ufc_events : option (list UfcEvent.t) }.

(** [LiquipediaParseResponse]: [parse_text] is [data.parse?.text?.["*"]]. *)
Record LiquipediaParseResponse : Type := { parse_text : option string }.

(** What the roster normalizer reads from a [tr] element. *)
Module HtmlLink.
Record t : Type := { textContent : string; href : option string }.
End HtmlLink.

Module HtmlCell.
(** [a] is [cell.querySelector("a")]. *)
Record t : Type := { textContent : string; a : option HtmlLink.t }.
End HtmlCell.

Module HtmlRow.
(** [class] is [row.getAttribute("class")], [dataTimestamp] is
    [row.querySelector('[data-timestamp]')?.getAttribute("data-timestamp")]
    and [cells] is [row.querySelectorAll("td")]. *)
Record t : Type := {
  class : option string;
  dataTimestamp : option string;
  cells : list HtmlCell.t;
}.
End HtmlRow.

(** ** The runtime and the libraries *)

(** Time values are milliseconds since the epoch.
    - [parseDate s] is [new Date(s).getTime()], [None] for [NaN];
    - [toISOString t] is [new Date(t).toISOString()] for a valid [t];
    - [addMonths t n] and [subMonths t n] are date-fns on the date of time
      value [t];
    - [format_yyyyMMdd t] is date-fns [format(date, "yyyyMMdd")];
    - [resolveUrl href] is [new URL(href, "https://liquipedia.net").toString()],
      [None] when the constructor throws;
    - [querySelectorAll_tr html] is [parseHtml(html).querySelectorAll("tr")]. *)
Class Platform : Type := {
  parseDate : string -> option Z;
  toISOString : Z -> string;
  addMonths : Z -> Z -> Z;
  subMonths : Z -> Z -> Z;
  format_yyyyMMdd : Z -> string;
  resolveUrl : string -> option string;
  querySelectorAll_tr : string -> list HtmlRow.t;
}.

(** [new Date(t)] holds a valid time value when [|t| <= 8.64e15]. *)
Definition validTime (t : Z) : bool := Z.abs t <=? 8640000000000000.

(** The places where the code reads the clock ([new Date()]). *)
Inductive ClockSite : Type :=
| NormalizeSchedule (source : TeamSourceKey)
| NormalizeScoreboard (source : TeamSourceKey)
| NormalizeUfc
| NormalizeLegacy
| SoccerScoreboardUrl (source : TeamSourceKey)
| UfcScoreboardUrl.

(** One aggregation cycle's view of the outside: what [fetchJson] settles
    to for a URL, at each of the payload types it is called at, and what
    the clock shows at the [n]-th reading of a site (the [n]-th record of
    a normalizer's loop, the [n]-th endpoint of a URL builder). *)
Record World : Type := {
  fetchJson_schedule : string -> Result RawTeamSchedule;
  fetchJson_scoreboard : string -> Result RawSoccerScoreboard;
  fetchJson_ufc : string -> Result RawUfcScoreboard;
  fetchJson_liquipedia : string -> Result LiquipediaParseResponse;
  clock : ClockSite -> nat -> Z;
}.

(** ** [lib/data-sources.ts]: windows, scores and matchups *)

Section DataSources.
Context {P : Platform}.

(** [now] is what [new Date()] gives when the function reads the clock. *)
Definition isWithinWindow (now : Z) (dateISO : string)
    (monthsAhead monthsBehind : Z) : bool :=
  match parseDate dateISO with
  | None => false
  | Some date =>
      let earliest := subMonths now monthsBehind in
      let latest := addMonths now monthsAhead in
      (earliest <=? date) && (date <=? latest)
  end.

Definition isWithinDefaultWindow (now : Z) (dateISO : string) : bool :=
  isWithinWindow now dateISO DEFAULT_RANGE_MONTHS_AHEAD DEFAULT_RANGE_MONTHS_BEHIND.

Definition toISO (dateString : option string) : option string :=
  match dateString with
  | None => None
  | Some s =>
      if negb (truthy s) then None
      else match parseDate s with
           | None => None
           | Some parsed => Some (toISOString parsed)
           end
  end.

Definition buildLocation (venue : option Venue.t) : option string :=
  match venue with
  | None => None
  | Some v =>
      let pieces := filterBoolean
        [Venue.fullName v;
         Venue.address v?.Address.city;
         Venue.address v?.Address.country] in
      match pieces with
      | [] => None
      | _ => Some (join ", " pieces)
      end
  end.

Definition extractNumericScore (value : option string) : option Z :=
  match value with
  | None => None
  | Some v =>
      if negb (truthy v) then None
      else match matchSignedDigits (chars v) with
           | None => None
           | Some m => parseInt m
           end
  end.

(** [competitor.team?.id === teamId] *)
Definition isTeam (teamId : string) (competitor : Competitor.t) : bool :=
  match Competitor.team competitor?.Team.id with
  | Some i => String.eqb i teamId
  | None => false
  end.

(** [competitor.team?.id && competitor.team.id !== teamId] *)
Definition isOtherTeam (teamId : string) (competitor : Competitor.t) : bool :=
  match Competitor.team competitor?.Team.id with
  | Some i => truthy i && negb (String.eqb i teamId)
  | None => false
  end.

Record Matchup : Type := { matchup_title : string; matchup_subtitle : option string }.

Definition formatMatchup (ourTeam_id ourTeam_displayName : string)
    (competitors : list Competitor.t) : Matchup :=
  let focus := find (isTeam ourTeam_id) competitors in
  let opponent := find (isOtherTeam ourTeam_id) competitors in
  let opponentName :=
    nullish_or (opponent?.Competitor.team?.Team.displayName) "TBD" in
  let qualifier :=
    match focus?.Competitor.homeAway with
    | Some h => if String.eqb h "home" then "vs"
                else if String.eqb h "away" then "@" else "vs"
    | None => "vs"
    end in
  {| matchup_title := trim (ourTeam_displayName +:+ " " +:+ qualifier +:+ " " +:+ opponentName);
     matchup_subtitle := Some opponentName |}.

(** ** The club normalizer *)

(** [result] and [outcome] as the body of the loop computes them. *)
Definition deriveResult (state statusDetail statusDescription : option string)
    (focusScore opponentScore : option string)
    : option string * option CalendarOutcome :=
  match state with
  | Some st =>
      if String.eqb st "post" then
        if truthy_opt focusScore && truthy_opt opponentScore then
          let result :=
            Some (nullish_or focusScore "" +:+ " - " +:+ nullish_or opponentScore "") in
          let focusNumeric := extractNumericScore focusScore in
          let opponentNumeric := extractNumericScore opponentScore in
          match focusNumeric, opponentNumeric with
          | Some f, Some o =>
              if o <? f then (result, Some WIN)
              else if f <? o then (result, Some LOSS)
              else (result, Some DRAW)
          | _, _ => (result, None)
          end
        else if truthy_opt statusDetail then (statusDetail, None)
        else if truthy_opt statusDescription then (statusDescription, None)
        else (None, None)
      else (None, None)
  | None => (None, None)
  end.

(** One turn of the loop of [normalizeTeamEvents]: [None] is [continue],
    [Some e] is [normalized.push(e)]. *)
Definition normalizeTeamEvent (now : Z) (source : TeamSourceKey)
    (event : TeamEvent.t) : option CalendarEventWithMeta :=
  let config := TEAM_SOURCES source in
  let competition := TeamEvent.competitions event?.head in
  match toISO (nullish (competition?.Competition.date) (TeamEvent.date event)) with
  | None => None
  | Some startTime =>
      if negb (truthy startTime) || negb (isWithinDefaultWindow now startTime) then None
      else
        let competitors :=
          nullish_or (competition?.Competition.competitors) [] in
        let focusCompetitor := find (isTeam (teamId config)) competitors in
        let opponentCompetitor := find (isOtherTeam (teamId config)) competitors in
        let matchup := formatMatchup (teamId config) (displayName config) competitors in
        let statusType := competition?.Competition.status?.Status.type in
        let state := statusType?.StatusType.state in
        let statusDetail := statusType?.StatusType.detail in
        let statusDescription := statusType?.StatusType.description in
        let '(result, outcome) :=
          deriveResult state statusDetail statusDescription
            (focusCompetitor?.Competitor.score)
            (opponentCompetitor?.Competitor.score) in
        Some
          {| id := sourceName (calendarSource source) +:+ "-" +:+
                   nullish_or (TeamEvent.id event) startTime;
             source := calendarSource source;
             title := matchup_title matchup;
             competition :=
               nullish (event.(TeamEvent.league)?.League.shortName)
                 (nullish (TeamEvent.seasonType_name event)
                    (TeamEvent.season_displayName event));
             fighters := None;
             startTimeUTC := startTime;
             venue := competition?.Competition.venue?.Venue.fullName;
             location := buildLocation (competition?.Competition.venue);
             status := nullish statusDetail statusDescription;
             subtitle := matchup_subtitle matchup;
             url := None;
             result := result;
             outcome := outcome |}
  end.

(** [normalizeTeamEvents(events, source)]: the loop from the [index]-th
    record on; [nowAt n] is the clock at the [n]-th record. *)
Fixpoint normalizeTeamEvents_from (nowAt : nat -> Z) (source : TeamSourceKey)
    (index : nat) (eventList : list TeamEvent.t) : list CalendarEventWithMeta :=
  match eventList with
  | [] => []
  | event :: rest =>
      match normalizeTeamEvent (nowAt index) source event with
      | None => normalizeTeamEvents_from nowAt source (S index) rest
      | Some e => e :: normalizeTeamEvents_from nowAt source (S index) rest
      end
  end.

Definition normalizeTeamEvents (nowAt : nat -> Z) (events : option (list TeamEvent.t))
    (source : TeamSourceKey) : list CalendarEventWithMeta :=
  let eventList := nullish_or events [] in
  normalizeTeamEvents_from nowAt source 0%nat eventList.

(** ** The combat-sports normalizer *)

Definition ufcRank (competition : UfcCompetition.t) : Z :=
  nullish_or (UfcCompetition.matchNumber competition) 100.

Definition isMainCard (competition : UfcCompetition.t) : bool :=
  match UfcCompetition.cardSegment_name competition with
  | Some n => String.eqb n "main"
  | None => false
  end.

(** [pool.reduce(...)] without an initial value starts from the first
    element; [best] is an object, so [!best] never holds. *)
Definition pickMainUfcCompetition (competitions : option (list UfcCompetition.t))
    : option UfcCompetition.t :=
  match competitions with
  | None | Some [] => None
  | Some competitions =>
      let mainCandidates := List.filter isMainCard competitions in
      let pool := match mainCandidates with [] => competitions | _ => mainCandidates end in
      match pool with
      | [] => None
      | first :: others =>
          Some (fold_left
                  (fun best current =>
                     if ufcRank current <? ufcRank best then current else best)
                  others first)
      end
  end.

(** One turn of the loop of [normalizeUfcEvents]: the set [seen] after the
    turn, and the event pushed if one is. *)
Definition normalizeUfcEvent (now : Z) (seen : list string) (event : UfcEvent.t)
    : list string * option CalendarEventWithMeta :=
  match UfcEvent.id event with
  | None => (seen, None)
  | Some event_id =>
      if negb (truthy event_id) || set_has seen event_id then (seen, None)
      else
        let seen := set_add seen event_id in
        let competition := pickMainUfcCompetition (UfcEvent.competitions event) in
        match toISO (nullish (UfcEvent.date event) (competition?.UfcCompetition.date)) with
        | None => (seen, None)
        | Some startTime =>
            if negb (truthy startTime) || negb (isWithinDefaultWindow now startTime)
            then (seen, None)
            else
              let fighterNames :=
                join " vs "
                  (filterBoolean
                     (List.map UfcCompetitor.athlete_displayName
                        (nullish_or (competition?.UfcCompetition.competitors) []))) in
              (seen,
               Some
                 {| id := "UFC-" +:+ event_id;
                    source := UFC;
                    title :=
                      nullish_or
                        (nullish (UfcEvent.name event) (competition?.UfcCompetition.type_text))
                        "UFC Event";
                    competition :=
                      nullish (competition?.UfcCompetition.type_text)
                        (competition?.UfcCompetition.type_abbreviation);
                    fighters := if truthy fighterNames then Some fighterNames else None;
                    startTimeUTC := startTime;
                    result := None; outcome := None; venue := None; location := None;
                    status := None; url := None; subtitle := None |})
        end
  end.

Fixpoint normalizeUfcEvents_from (nowAt : nat -> Z) (index : nat) (seen : list string)
    (events : list UfcEvent.t) : list CalendarEventWithMeta :=
  match events with
  | [] => []
  | event :: rest =>
      match normalizeUfcEvent (nowAt index) seen event with
      | (seen, None) => normalizeUfcEvents_from nowAt (S index) seen rest
      | (seen, Some e) => e :: normalizeUfcEvents_from nowAt (S index) seen rest
      end
  end.

Definition normalizeUfcEvents (nowAt : nat -> Z) (data : RawUfcScoreboard)
    : list CalendarEventWithMeta :=
  let events := nullish_or (ufc_events data) [] in
  normalizeUfcEvents_from nowAt 0%nat [] events.

(** ** The esports-roster normalizer *)

Definition cleanText (value : option string) : option string :=
  match value with
  | None => None
  | Some v =>
      if negb (truthy v) then None
      else
        let trimmed := trim (collapseSpaces v) in
        if truthy trimmed then Some trimmed else None
  end.

Definition isMatchClass (className : string) : bool :=
  startsWith className "recent-matches" ||
  startsWith className "upcoming-matches" ||
  startsWith className "upcoming-match" ||
  String.eqb className "match-row".

(** The filter on [querySelectorAll("tr")].  Every element has a
    [getAttribute] method, so the first filter keeps every row. *)
Definition isMatchRow (row : HtmlRow.t) : bool :=
  match HtmlRow.class row with
  | None => false
  | Some classAttr =>
      if negb (truthy classAttr) then false
      else some isMatchClass (splitSpaces classAttr)
  end.

Definition rowOutcome (rowClasses : list string) : option CalendarOutcome :=
  if some (fun className => includes className "bg-win") rowClasses then Some WIN
  else if some (fun className => includes className "bg-lose") rowClasses then Some LOSS
  else if some (fun className => includes className "bg-draw" || includes className "bg-tie")
            rowClasses then Some DRAW
  else None.

(** [new Date(timestamp * 1000).toISOString()] throws a [RangeError] when
    the date is invalid. *)
Definition rowStartTime (timestampAttr : option string) : Result (option string) :=
  let timestamp :=
    match timestampAttr with
    | Some a => if truthy a then parseInt a else None
    | None => None
    end in
  match timestamp with
  | None => Ok None
  | Some timestamp =>
      if validTime (timestamp * 1000) then Ok (Some (toISOString (timestamp * 1000)))
      else Throw "RangeError: Invalid time value"
  end.

(** [new URL(href, base)] throws a [TypeError] when [href] cannot be
    resolved. *)
Definition rowUrl (tournamentHref : option string) : Result (option string) :=
  match tournamentHref with
  | Some h =>
      if truthy h then
        match resolveUrl h with
        | Some u => Ok (Some u)
        | None => Throw "TypeError: Invalid URL"
        end
      else Ok None
  | None => Ok None
  end.

(** One turn of the loop of [normalizeLegacyCs2Matches]. *)
Definition normalizeLegacyRow (now : Z) (seen : list string) (row : HtmlRow.t)
    : Result (list string * option CalendarEventWithMeta) :=
  let rowClassAttr := nullish_or (HtmlRow.class row) "" in
  let rowClasses := List.filter truthy (splitSpaces rowClassAttr) in
  let timestampAttr := HtmlRow.dataTimestamp row in
  bind (rowStartTime timestampAttr) (fun startTimeUTC =>
  match startTimeUTC with
  | None => Ok (seen, None)
  | Some startTimeUTC =>
      if negb (truthy startTimeUTC) ||
         negb (isWithinWindow now startTimeUTC
                 LEGACY_RANGE_MONTHS_AHEAD LEGACY_RANGE_MONTHS_BEHIND)
      then Ok (seen, None)
      else
        let cells := HtmlRow.cells row in
        if (length cells <? 7)%nat then Ok (seen, None)
        else
          let text (i : nat) := option_map HtmlCell.textContent (cells !! i) in
          let tierText := cleanText (text 1%nat) in
          let typeText := cleanText (text 2%nat) in
          let tournamentCell := cells !! 5%nat in
          let tournamentLink := tournamentCell?.HtmlCell.a in
          let competition :=
            cleanText (nullish (option_map HtmlLink.textContent tournamentLink)
                         (option_map HtmlCell.textContent tournamentCell)) in
          let tournamentHref := tournamentLink?.HtmlLink.href in
          bind (rowUrl tournamentHref) (fun url =>
          let scoreText := cleanText (text 6%nat) in
          let opponentText := cleanText (text 7%nat) in
          let statusParts := filterBoolean [tierText; typeText] in
          let status :=
            match statusParts with [] => None | _ => Some (join (" " +:+ middleDot +:+ " ") statusParts) end in
          let id :=
            "LEGACY_CS2-" +:+
            nullish_or timestampAttr
              (nullish_or competition "match" +:+ "-" +:+
               nullish_or opponentText "opponent") in
          if set_has seen id then Ok (seen, None)
          else
            let seen := set_add seen id in
            let title :=
              match opponentText with
              | Some o => "Legacy vs " +:+ o
              | None => nullish_or competition "Legacy match"
              end in
            let subtitleParts := filterBoolean [opponentText; competition] in
            let subtitle :=
              match subtitleParts with [] => None | _ => Some (join (" " +:+ middleDot +:+ " ") subtitleParts) end in
            let hasNumericScore :=
              match scoreText with Some s => hasDigit s | None => false end in
            let result := if hasNumericScore then scoreText else None in
            let outcome := rowOutcome rowClasses in
            Ok (seen,
                Some
                  {| id := id;
                     source := LEGACY_CS2;
                     title := title;
                     competition := competition;
                     fighters := None;
                     startTimeUTC := startTimeUTC;
                     result := result;
                     status := status;
                     subtitle := subtitle;
                     url := url;
                     outcome := outcome;
                     venue := None;
                     location := None |}))
  end).

Fixpoint normalizeLegacyRows_from (nowAt : nat -> Z) (index : nat) (seen : list string)
    (rows : list HtmlRow.t) : Result (list CalendarEventWithMeta) :=
  match rows with
  | [] => Ok []
  | row :: rest =>
      bind (normalizeLegacyRow (nowAt index) seen row) (fun '(seen, pushed) =>
      bind (normalizeLegacyRows_from nowAt (S index) seen rest) (fun events =>
      Ok (match pushed with Some e => e :: events | None => events end)))
  end.

Definition normalizeLegacyCs2Matches (nowAt : nat -> Z) (html : string)
    : Result (list CalendarEventWithMeta) :=
  let rows := List.filter isMatchRow (querySelectorAll_tr html) in
  normalizeLegacyRows_from nowAt 0%nat [] rows.

End DataSources.

(** ** [lib/data-sources.ts]: the adapters *)

Section Adapters.
Context {P : Platform}.

(** [URLSearchParams] leaves digits and the hyphen as they are. *)
Definition buildUfcScoreboardUrl (now : Z) : string :=
  let earliest := subMonths now DEFAULT_RANGE_MONTHS_BEHIND in
  let latest := addMonths now DEFAULT_RANGE_MONTHS_AHEAD in
  UFC_SCOREBOARD_ENDPOINT +:+ "?" +:+
  "limit=50&dates=" +:+ format_yyyyMMdd earliest +:+ "-" +:+ format_yyyyMMdd latest.

Definition buildSoccerScoreboardUrl (now : Z) (endpoint : string) : string :=
  let earliest := subMonths now DEFAULT_RANGE_MONTHS_BEHIND in
  let latest := addMonths now DEFAULT_RANGE_MONTHS_AHEAD in
  endpoint +:+ "?" +:+
  "limit=200&dates=" +:+ format_yyyyMMdd earliest +:+ "-" +:+ format_yyyyMMdd latest.

Definition buildLiquipediaUrl : string :=
  LIQUIPEDIA_ENDPOINT +:+ "?" +:+
  "action=parse&page=Legacy&prop=text&format=json&origin=*".

(** The loop of [fetchTeamSchedule] from position [index], where
    [remaining] are the endpoints from that position on.  Every thrown
    value is an [Error] object, so [lastError] is truthy once set. *)
Fixpoint fetchTeamSchedule_loop (fetchJson : string -> Result RawTeamSchedule)
    (endpoints : list string) (index : nat) (remaining : list string)
    (lastError : option Error) : Result (option RawTeamSchedule) :=
  match remaining with
  | [] =>
      match lastError with
      | Some e => Throw e
      | None => Ok None
      end
  | endpoint :: rest =>
      match fetchJson endpoint with
      | Ok data =>
          let hasEvents :=
            (0 <? length (nullish_or (schedule_events data) []))%nat in
          if negb hasEvents && (index <? length endpoints - 1)%nat
          then fetchTeamSchedule_loop fetchJson endpoints (S index) rest lastError
          else Ok (Some data)
      | Throw error =>
          fetchTeamSchedule_loop fetchJson endpoints (S index) rest (Some error)
      end
  end.

Definition fetchTeamSchedule (w : World) (source : TeamSourceKey)
    : Result (option RawTeamSchedule) :=
  let endpoints := endpoints (TEAM_SOURCES source) in
  fetchTeamSchedule_loop (fetchJson_schedule w) endpoints 0%nat endpoints None.

(** [competitors.some(competitor => competitor.team?.id === teamId)] on the
    first competition of a scoreboard entry. *)
Definition matchesTeam (teamId : string) (event : TeamEvent.t) : bool :=
  let competition := TeamEvent.competitions event?.head in
  let competitors := nullish_or (competition?.Competition.competitors) [] in
  some (isTeam teamId) competitors.

(** The loop of [fetchTeamScoreboardEvents]; [nowAt n] is the clock when
    the URL of the [n]-th endpoint is built. *)
Fixpoint fetchTeamScoreboardEvents_loop (fetchJson : string -> Result RawSoccerScoreboard)
    (nowAt : nat -> Z) (teamId : string) (index : nat) (remaining : list string)
    (aggregated : list TeamEvent.t) (lastError : option Error)
    : list TeamEvent.t * option Error :=
  match remaining with
  | [] => (aggregated, lastError)
  | endpoint :: rest =>
      match fetchJson (buildSoccerScoreboardUrl (nowAt index) endpoint) with
      | Ok data =>
          let events := nullish_or (scoreboard_events data) [] in
          fetchTeamScoreboardEvents_loop fetchJson nowAt teamId (S index) rest
            (aggregated ++ List.filter (matchesTeam teamId) events) lastError
      | Throw error =>
          fetchTeamScoreboardEvents_loop fetchJson nowAt teamId (S index) rest
            aggregated (Some error)
      end
  end.

Definition fetchTeamScoreboardEvents (w : World) (source : TeamSourceKey)
    : Result (list TeamEvent.t) :=
  let config := TEAM_SOURCES source in
  match scoreboardEndpoints config with
  | [] => Ok []
  | scoreboardEndpoints =>
      let '(aggregated, lastError) :=
        fetchTeamScoreboardEvents_loop (fetchJson_scoreboard w)
          (clock w (SoccerScoreboardUrl source)) (teamId config)
          0%nat scoreboardEndpoints [] None in
      match aggregated, lastError with
      | [], Some e => Throw e
      | _, _ => Ok aggregated
      end
  end.

(** [new Date(e.startTimeUTC).getTime()] *)
Definition getTime (e : CalendarEventWithMeta) : option Z := parseDate (startTimeUTC e).

(** [aTime - bTime], [NaN] when either is. *)
Definition timeDifference (a b : CalendarEventWithMeta) : option Z :=
  match getTime a, getTime b with
  | Some aTime, Some bTime => Some (aTime - bTime)
  | _, _ => None
  end.

Definition mergeAndSortEvents (sources : list (list CalendarEventWithMeta))
    : list CalendarEventWithMeta :=
  let deduped :=
    fold_left
      (fun deduped list =>
         fold_left (fun deduped event => map_set deduped (id event) event) list deduped)
      sources [] in
  sort timeDifference (map_values deduped).

(** [fetchManchesterUnitedEvents] and [fetchLeedsUnitedEvents] differ in
    the source key only. *)
Definition fetchTeamEvents (w : World) (source : TeamSourceKey)
    : Result (list CalendarEventWithMeta) :=
  bind (Promise_all2 (fetchTeamSchedule w source) (fetchTeamScoreboardEvents w source))
    (fun '(schedule, scoreboardEvents) =>
       let normalizedSchedule :=
         normalizeTeamEvents (clock w (NormalizeSchedule source))
           (Some (nullish_or (schedule?.schedule_events) [])) source in
       let normalizedScoreboard :=
         normalizeTeamEvents (clock w (NormalizeScoreboard source))
           (Some scoreboardEvents) source in
       Ok (mergeAndSortEvents [normalizedSchedule; normalizedScoreboard])).

Definition fetchManchesterUnitedEvents (w : World) : Result (list CalendarEventWithMeta) :=
  fetchTeamEvents w TEAM_MANCHESTER_UNITED.

Definition fetchLeedsUnitedEvents (w : World) : Result (list CalendarEventWithMeta) :=
  fetchTeamEvents w TEAM_LEEDS_UNITED.

Definition fetchUfcEvents (w : World) : Result (list CalendarEventWithMeta) :=
  bind (fetchJson_ufc w (buildUfcScoreboardUrl (clock w UfcScoreboardUrl 0%nat)))
    (fun data => Ok (normalizeUfcEvents (clock w NormalizeUfc) data)).

Definition fetchLegacyCs2Events (w : World) : Result (list CalendarEventWithMeta) :=
  bind (fetchJson_liquipedia w buildLiquipediaUrl)
    (fun data =>
       match parse_text data with
       | None => Ok []
       | Some html =>
           if negb (truthy html) then Ok []
           else normalizeLegacyCs2Matches (clock w NormalizeLegacy) html
       end).

(** ** [lib/events-service.ts] *)

Definition SORT_ORDER (source : CalendarSource) : Z :=
  match source with
  | MANCHESTER_UNITED => 0
  | LEEDS_UNITED => 1
  | LEGACY_CS2 => 2
  | UFC => 3
  end.

(** The comparator of [sortEvents]: [NaN !== 0] holds, so a [NaN] date
    difference is what the comparator returns. *)
Definition compareEvents (a b : CalendarEventWithMeta) : option Z :=
  match timeDifference a b with
  | None => None
  | Some dateComparison =>
      if negb (dateComparison =? 0) then Some dateComparison
      else Some (SORT_ORDER (source a) - SORT_ORDER (source b))
  end.

Definition sortEvents (events : list CalendarEventWithMeta) : list CalendarEventWithMeta :=
  sort compareEvents events.

(** One run of the function under [cache]. *)
Definition getCalendarEvents (w : World) : Result (list CalendarEventWithMeta) :=
  bind (Promise_all
          [fetchManchesterUnitedEvents w;
           fetchLeedsUnitedEvents w;
           fetchLegacyCs2Events w;
           fetchUfcEvents w])
    (fun lists => Ok (sortEvents (concat lists))).

(** ** [app/api/events/route.ts] *)

(** The object the rest pattern
    [{ venue, location, status, subtitle, ...publicFields }] leaves: every
    property of the event but the four named ones. *)
Record PublicFields : Type := {
  public_id : string;
  public_source : CalendarSource;
  public_title : string;
  public_competition : option string;
  public_fighters : option string;
  public_startTimeUTC : string;
  public_result : option string;
  public_outcome : option CalendarOutcome;
  public_url : option string;
}.

Definition publicFields (event : CalendarEventWithMeta) : PublicFields :=
  {| public_id := id event;
     public_source := source event;
     public_title := title event;
     public_competition := competition event;
     public_fighters := fighters event;
     public_startTimeUTC := startTimeUTC event;
     public_result := result event;
     public_outcome := outcome event;
     public_url := url event |}.

Inductive Body : Type :=
| EventsPayload (events : list PublicFields)
| ErrorPayload (error : string).

(** [NextResponse.json(body, { status })], and what [console.error] was
    given. *)
Record Response : Type := {
  response_status : Z;
  response_body : Body;
  logged : option Error;
}.

Definition GET (w : World) : Response :=
  match getCalendarEvents w with
  | Ok events =>
      {| response_status := 200;
         response_body := EventsPayload (List.map publicFields events);
         logged := None |}
  | Throw error =>
      {| response_status := 500;
         response_body := ErrorPayload "Failed to load events";
         logged := Some error |}
  end.

(** The keys of a public record in the JSON text, in no particular order:
    [JSON.stringify] leaves out a property whose value is [undefined]. *)
Definition isDefined {A} (o : option A) : bool :=
  match o with Some _ => true | None => false end.

Definition jsonKeys (p : PublicFields) : list string :=
  ["id"; "source"; "title"; "startTimeUTC"] ++
  (if isDefined (public_competition p) then ["competition"] else []) ++
  (if isDefined (public_fighters p) then ["fighters"] else []) ++
  (if isDefined (public_result p) then ["result"] else []) ++
  (if isDefined (public_outcome p) then ["outcome"] else []) ++
  (if isDefined (public_url p) then ["url"] else []).

End Adapters.

(** ** [components/calendar/CalendarPage.tsx]

    The computations of the calendar component on the events it is given,
    as functions of what each one reads: the enhanced events, the active
    streams, the day that is selected and the clock.  The labels of
    [toUiEvent] are made by date-fns and are fields here. *)

#[global] Instance CalendarSource_eq_dec : EqDecision CalendarSource.
Proof. solve_decision. Defined.

(** [CalendarEventWithMeta & { localDateKey, localDateLabel, localTimeLabel, isPast }] *)
Record CalendarUiEvent : Type := {
  ui_event : CalendarEventWithMeta;
  localDateKey : string;
  localDateLabel : string;
  localTimeLabel : string;
  isPast : bool;
}.

Section CalendarPage.
Context {P : Platform}.

Definition STREAM_ORDER : list CalendarSource :=
  [MANCHESTER_UNITED; LEEDS_UNITED; LEGACY_CS2; UFC].

(** [streams.includes(stream)] *)
Definition includesSource (streams : list CalendarSource) (stream : CalendarSource) : bool :=
  existsb (fun item => bool_decide (item = stream)) streams.

Definition filteredEvents (enhancedEvents : list CalendarUiEvent)
    (activeStreams : list CalendarSource) : list CalendarUiEvent :=
  List.filter (fun event => includesSource activeStreams (source (ui_event event)))
    enhancedEvents.

(** The arrays held by the map are pushed to in place: the entry of a day
    keeps its position and grows at the end. *)
Definition eventsByDay (filteredEvents : list CalendarUiEvent)
    : list (string * list CalendarUiEvent) :=
  fold_left
    (fun grouped event =>
       match map_get grouped (localDateKey event) with
       | Some dayEvents => map_set grouped (localDateKey event) (dayEvents ++ [event])
       | None => map_set grouped (localDateKey event) [event]
       end)
    filteredEvents [].

(** The updater handed to [setActiveStreams]. *)
Definition handleStreamToggle (stream : CalendarSource) (prev : list CalendarSource)
    : list CalendarSource :=
  if includesSource prev stream
  then List.filter (fun item => negb (bool_decide (item = stream))) prev
  else prev ++ [stream].

Definition totalEvents (monthlyEvents : list CalendarUiEvent) : nat :=
  length monthlyEvents.

Definition clubEvents (monthlyEvents : list CalendarUiEvent) : nat :=
  length (List.filter
            (fun event => bool_decide (source (ui_event event) = MANCHESTER_UNITED)
                          || bool_decide (source (ui_event event) = LEEDS_UNITED))
            monthlyEvents).

Definition legacyEvents (monthlyEvents : list CalendarUiEvent) : nat :=
  length (List.filter (fun event => bool_decide (source (ui_event event) = LEGACY_CS2))
            monthlyEvents).

Definition ufcEvents (monthlyEvents : list CalendarUiEvent) : nat :=
  length (List.filter (fun event => bool_decide (source (ui_event event) = UFC))
            monthlyEvents).

(** [new Date(event.startTimeUTC).getTime() >= now]; false for [NaN]. *)
Definition startsAtOrAfter (now : Z) (event : CalendarUiEvent) : bool :=
  match getTime (ui_event event) with
  | Some start => now <=? start
  | None => false
  end.

(** The comparator of [nextEvents] and [selectedDayEvents]. *)
Definition byStartTime (a b : CalendarUiEvent) : option Z :=
  timeDifference (ui_event a) (ui_event b).

Definition nextEvents (now : Z) (filteredEvents : list CalendarUiEvent)
    : list CalendarUiEvent :=
  take 6 (sort byStartTime (List.filter (startsAtOrAfter now) filteredEvents)).

Definition selectedDayEvents (selectedDayKey : string)
    (eventsByDay : list (string * list CalendarUiEvent)) : list CalendarUiEvent :=
  if negb (truthy selectedDayKey) then []
  else
    let dayEvents := nullish_or (map_get eventsByDay selectedDayKey) [] in
    sort byStartTime dayEvents.

End CalendarPage.

(** ** [app/tournaments/page.tsx] *)

Module TournamentDigest.
Record t : Type := {
  source : CalendarSource;
  name : string;
  eventCount : Z;
  nextDateUTC : option string;
  lastDateUTC : option string;
}.
End TournamentDigest.

Section TournamentsPage.
Context {P : Platform}.

(** The text [FALLBACK_TOURNAMENT] is Cyrillic, and [localeCompare]
    collates by the locale of the host: the digests are built for
    whatever the two are. *)
Variable FALLBACK_TOURNAMENT : string.
Variable localeCompare : string -> string -> Z.

Definition SOURCE_ORDER : list CalendarSource :=
  [MANCHESTER_UNITED; LEEDS_UNITED; LEGACY_CS2; UFC].

(** [SOURCE_ORDER.indexOf(source)] *)
Fixpoint indexOf (sources : list CalendarSource) (source : CalendarSource) : Z :=
  match sources with
  | [] => -1
  | item :: rest =>
      if bool_decide (item = source) then 0
      else let index := indexOf rest source in
           if index <? 0 then -1 else index + 1
  end.

Definition toTournamentKey (event : CalendarEventWithMeta) : string :=
  let candidate := competition event?.(fun c => Some (trim c)) in
  if truthy_opt candidate && (0 <? Z.of_nat (String.length (nullish_or candidate "")))
  then nullish_or candidate ""
  else if bool_decide (source event = UFC) && truthy (title event) then title event
  else FALLBACK_TOURNAMENT.

(** [`${event.source}|${toTournamentKey(event)}`] *)
Definition digestKey (event : CalendarEventWithMeta) : string :=
  sourceName (source event) +:+ "|" +:+ toTournamentKey event.

(** [a > b] on strings: by code units, left to right. *)
Definition stringGreater (a b : string) : bool := String.ltb b a.

(** [start >= now]; false for [NaN]. *)
Definition isUpcoming (now : Z) (event : CalendarEventWithMeta) : bool :=
  match getTime event with
  | Some start => now <=? start
  | None => false
  end.

(** The digest set for the first event of a tournament. *)
Definition openDigest (now : Z) (event : CalendarEventWithMeta) : TournamentDigest.t :=
  {| TournamentDigest.source := source event;
     TournamentDigest.name := toTournamentKey event;
     TournamentDigest.eventCount := 1;
     TournamentDigest.nextDateUTC :=
       if isUpcoming now event then Some (startTimeUTC event) else None;
     TournamentDigest.lastDateUTC := Some (startTimeUTC event) |}.

(** The assignments to the entry of a tournament that is in the map. *)
Definition extendDigest (now : Z) (entry : TournamentDigest.t)
    (event : CalendarEventWithMeta) : TournamentDigest.t :=
  let eventCount := TournamentDigest.eventCount entry + 1 in
  let lastDateUTC :=
    if truthy_opt (TournamentDigest.lastDateUTC entry)
       && stringGreater (nullish_or (TournamentDigest.lastDateUTC entry) "")
            (startTimeUTC event)
    then TournamentDigest.lastDateUTC entry
    else Some (startTimeUTC event) in
  let nextDateUTC :=
    if isUpcoming now event then
      if negb (truthy_opt (TournamentDigest.nextDateUTC entry))
         || match getTime event, TournamentDigest.nextDateUTC entry ≫= parseDate with
            | Some start, Some next => start <? next
            | _, _ => false
            end
      then Some (startTimeUTC event)
      else TournamentDigest.nextDateUTC entry
    else TournamentDigest.nextDateUTC entry in
  {| TournamentDigest.source := TournamentDigest.source entry;
     TournamentDigest.name := TournamentDigest.name entry;
     TournamentDigest.eventCount := eventCount;
     TournamentDigest.nextDateUTC := nextDateUTC;
     TournamentDigest.lastDateUTC := lastDateUTC |}.

(** One turn of the loop of [buildTournamentDigests]; the entry found in
    the map is updated in place. *)
Definition countEvent (now : Z) (map : list (string * TournamentDigest.t))
    (event : CalendarEventWithMeta) : list (string * TournamentDigest.t) :=
  let key := digestKey event in
  match map_get map key with
  | None => map_set map key (openDigest now event)
  | Some entry => map_set map key (extendDigest now entry event)
  end.

Definition compareDigests (a b : TournamentDigest.t) : option Z :=
  if bool_decide (TournamentDigest.source a = TournamentDigest.source b) then
    let aDate :=
      nullish_or (nullish (TournamentDigest.nextDateUTC a) (TournamentDigest.lastDateUTC a)) "" in
    let bDate :=
      nullish_or (nullish (TournamentDigest.nextDateUTC b) (TournamentDigest.lastDateUTC b)) "" in
    Some (localeCompare aDate bDate)
  else
    Some (indexOf SOURCE_ORDER (TournamentDigest.source a)
          - indexOf SOURCE_ORDER (TournamentDigest.source b)).

(** [now] is the reading of [Date.now()] the function starts with. *)
Definition buildTournamentDigests (now : Z) (events : list CalendarEventWithMeta)
    : list TournamentDigest.t :=
  let map := fold_left (countEvent now) events [] in
  sort compareDigests (map_values map).

(** The tournaments listed under a source, and the two totals of the
    header. *)
Definition tournamentsOf (digests : list TournamentDigest.t) (source : CalendarSource)
    : list TournamentDigest.t :=
  List.filter (fun item => bool_decide (TournamentDigest.source item = source)) digests.

Definition totalTournaments (digests : list TournamentDigest.t) : nat := length digests.

End TournamentsPage.

(** ** A platform to run the pipeline on

    A plain implementation of the library functions, in UTC: ISO-8601
    date-times of the shapes [YYYY-MM-DDTHH:mmZ], [YYYY-MM-DDTHH:mm:ssZ]
    and [YYYY-MM-DDTHH:mm:ss.sssZ] parse, every other string is an invalid
    date; months are added on the calendar, the day clamped to the length
    of the target month; a path resolves against the wiki's origin; the
    table [pages] gives the [tr] elements of the documents it lists and no
    row for any other text. *)

Module Sample.

Definition msPerDay : Z := 86400000.

Definition days_from_civil (y m d : Z) : Z :=
  let y := if m <=? 2 then y - 1 else y in
  let era := y / 400 in
  let yoe := y - era * 400 in
  let doy := (153 * (if 2 <? m then m - 3 else m + 9) + 2) / 5 + d - 1 in
  let doe := yoe * 365 + yoe / 4 - yoe / 100 + doy in
  era * 146097 + doe - 719468.

Definition civil_from_days (z : Z) : Z * Z * Z :=
  let z := z + 719468 in
  let era := z / 146097 in
  let doe := z - era * 146097 in
  let yoe := (doe - doe / 1460 + doe / 36524 - doe / 146096) / 365 in
  let doy := doe - (365 * yoe + yoe / 4 - yoe / 100) in
  let mp := (5 * doy + 2) / 153 in
  let d := doy - (153 * mp + 2) / 5 + 1 in
  let m := if mp <? 10 then mp + 3 else mp - 9 in
  let y := yoe + era * 400 + (if m <=? 2 then 1 else 0) in
  (y, m, d).

Definition isLeap (y : Z) : bool :=
  ((y mod 4 =? 0) && negb (y mod 100 =? 0)) || (y mod 400 =? 0).

Definition daysInMonth (y m : Z) : Z :=
  if m =? 2 then (if isLeap y then 29 else 28)
  else if (m =? 4) || (m =? 6) || (m =? 9) || (m =? 11) then 30
  else 31.

Definition digit (d : Z) : ascii := ascii_of_N (Z.to_N (48 + d mod 10)).

Definition pad2 (n : Z) : list ascii := [digit (n / 10); digit n].
Definition pad3 (n : Z) : list ascii := digit (n / 100) :: pad2 n.
Definition pad4 (n : Z) : list ascii := digit (n / 1000) :: pad3 n.
Definition pad6 (n : Z) : list ascii := digit (n / 100000) :: digit (n / 10000) :: pad4 n.

Definition year (y : Z) : list ascii :=
  if (0 <=? y) && (y <=? 9999) then pad4 y
  else (if y <? 0 then "-"%char else "+"%char) :: pad6 (Z.abs y).

Definition toISOString (t : Z) : string :=
  let '(y, m, d) := civil_from_days (t / msPerDay) in
  let ms := t mod msPerDay in
  str (year y ++ "-"%char :: pad2 m ++ "-"%char :: pad2 d ++ "T"%char ::
       pad2 (ms / 3600000) ++ ":"%char :: pad2 (ms / 60000 mod 60) ++ ":"%char ::
       pad2 (ms / 1000 mod 60) ++ "."%char :: pad3 (ms mod 1000) ++ ["Z"%char]).

Definition format_yyyyMMdd (t : Z) : string :=
  let '(y, m, d) := civil_from_days (t / msPerDay) in
  str (year y ++ pad2 m ++ pad2 d).

(** The number a list of digits denotes, [None] when a character is not a
    digit. *)
Definition number (l : list ascii) : option Z :=
  if forallb isDigit l then Some (digitsValue l) else None.

Definition timeOfDay (l : list ascii) : option Z :=
  match l with
  | [h1; h2; c1; m1; m2; z] =>
      if Ascii.eqb c1 ":" && Ascii.eqb z "Z" then
        h ← number [h1; h2]; m ← number [m1; m2];
        if (h <=? 23) && (m <=? 59) then Some (h * 3600000 + m * 60000) else None
      else None
  | [h1; h2; c1; m1; m2; c2; s1; s2; z] =>
      if Ascii.eqb c1 ":" && Ascii.eqb c2 ":" && Ascii.eqb z "Z" then
        h ← number [h1; h2]; m ← number [m1; m2]; s ← number [s1; s2];
        if (h <=? 23) && (m <=? 59) && (s <=? 59)
        then Some (h * 3600000 + m * 60000 + s * 1000) else None
      else None
  | [h1; h2; c1; m1; m2; c2; s1; s2; dot; f1; f2; f3; z] =>
      if Ascii.eqb c1 ":" && Ascii.eqb c2 ":" && Ascii.eqb dot "." && Ascii.eqb z "Z" then
        h ← number [h1; h2]; m ← number [m1; m2]; s ← number [s1; s2];
        f ← number [f1; f2; f3];
        if (h <=? 23) && (m <=? 59) && (s <=? 59)
        then Some (h * 3600000 + m * 60000 + s * 1000 + f) else None
      else None
  | _ => None
  end.

Definition parseDate (s : string) : option Z :=
  match chars s with
  | y1 :: y2 :: y3 :: y4 :: d1 :: m1 :: m2 :: d2 :: a1 :: a2 :: t :: rest =>
      if Ascii.eqb d1 "-" && Ascii.eqb d2 "-" && Ascii.eqb t "T" then
        y ← number [y1; y2; y3; y4]; m ← number [m1; m2]; d ← number [a1; a2];
        ms ← timeOfDay rest;
        if (1 <=? m) && (m <=? 12) && (1 <=? d) && (d <=? daysInMonth y m)
        then Some (days_from_civil y m d * msPerDay + ms) else None
      else None
  | _ => None
  end.

Definition addMonths (t : Z) (amount : Z) : Z :=
  let '(y, m, d) := civil_from_days (t / msPerDay) in
  let months := y * 12 + (m - 1) + amount in
  let y' := months / 12 in
  let m' := months mod 12 + 1 in
  let d' := Z.min d (daysInMonth y' m') in
  days_from_civil y' m' d' * msPerDay + t mod msPerDay.

Definition subMonths (t : Z) (amount : Z) : Z := addMonths t (- amount).

Definition resolveUrl (href : string) : option string :=
  if startsWith href "https://" then Some href
  else if startsWith href "/" then Some ("https://liquipedia.net" +:+ href)
  else None.

Fixpoint lookupPage (pages : list (string * list HtmlRow.t)) (html : string)
    : list HtmlRow.t :=
  match pages with
  | [] => []
  | (text, rows) :: rest => if String.eqb text html then rows else lookupPage rest html
  end.

Definition platform (pages : list (string * list HtmlRow.t)) : Platform :=
  Build_Platform parseDate toISOString addMonths subMonths format_yyyyMMdd
    resolveUrl (lookupPage pages).

(** Monday 2 November 2026, 12:00 UTC. *)
Definition noon : Z := 1793620800000.

(** The clock stands still at [noon] during a cycle. *)
Definition clockAtNoon : ClockSite -> nat -> Z := fun _ _ => noon.

(** Raw records with the fields the normalizers read. *)
Definition competitor (teamId name homeAway : string) (score : option string)
    : Competitor.t :=
  {| Competitor.id := Some teamId;
     Competitor.homeAway := Some homeAway;
     Competitor.team :=
       Some {| Team.id := Some teamId; Team.displayName := Some name;
               Team.shortDisplayName := None; Team.abbreviation := None |};
     Competitor.score := score |}.

Definition fixture (eventId date : string) (competitors : list Competitor.t)
    (state detail : string) : TeamEvent.t :=
  {| TeamEvent.id := Some eventId;
     TeamEvent.date := Some date;
     TeamEvent.name := None;
     TeamEvent.shortName := None;
     TeamEvent.seasonType_name := None;
     TeamEvent.season_displayName := None;
     TeamEvent.competitions :=
       Some [{| Competition.date := Some date;
                Competition.venue := None;
                Competition.competitors := Some competitors;
                Competition.status :=
                  Some {| Status.type :=
                            Some {| StatusType.state := Some state;
                                    StatusType.detail := Some detail;
                                    StatusType.description := None |} |} |}];
     TeamEvent.league := Some {| League.name := None; League.shortName := Some "Premier League" |} |}.

Definition ufcEvent (eventId : string) (name : option string) (date : string)
    : UfcEvent.t :=
  {| UfcEvent.id := Some eventId;
     UfcEvent.date := Some date;
     UfcEvent.name := name;
     UfcEvent.shortName := None;
     UfcEvent.competitions := None |}.

Definition cell (text : string) : HtmlCell.t :=
  {| HtmlCell.textContent := text; HtmlCell.a := None |}.

Definition linkCell (text href : string) : HtmlCell.t :=
  {| HtmlCell.textContent := text;
     HtmlCell.a := Some {| HtmlLink.textContent := text; HtmlLink.href := Some href |} |}.

(** A finished home fixture of Manchester United against Chelsea. *)
Definition unitedChelsea (ourScore theirScore : string) : TeamEvent.t :=
  fixture "740700" "2026-10-24T14:00Z"
    [competitor "360" "Manchester United" "home" (Some ourScore);
     competitor "363" "Chelsea" "away" (Some theirScore)]
    "post" "FT".

(** The same fixture before kick-off, as the schedule lists it. *)
Definition unitedChelseaPending : TeamEvent.t :=
  fixture "740700" "2026-10-24T14:00Z"
    [competitor "360" "Manchester United" "home" None;
     competitor "363" "Chelsea" "away" None]
    "pre" "Sat, October 24th".

(** The same fixture abandoned, with letters where the scores go. *)
Definition unitedChelseaAbandoned : TeamEvent.t :=
  fixture "740700" "2026-10-24T14:00Z"
    [competitor "360" "Manchester United" "home" (Some "A");
     competitor "363" "Chelsea" "away" (Some "A")]
    "post" "Abandoned".

(** A fixture of Leeds United still to be played. *)
Definition leedsArsenal : TeamEvent.t :=
  fixture "740811" "2026-11-07T15:00Z"
    [competitor "357" "Leeds United" "home" None;
     competitor "359" "Arsenal" "away" None]
    "pre" "Sat, November 7th".

(** A card of the promotion whose name came as the empty string. *)
Definition ufcUnnamed : UfcEvent.t := ufcEvent "600057331" (Some "") "2026-11-14T23:00Z".

Definition ufcNamed : UfcEvent.t :=
  ufcEvent "600057332" (Some "UFC 322") "2026-11-14T23:00Z".

(** A won match of the roster, on 1 November 2026 at 18:00 UTC, as a row
    of eight cells and as the same row without its last cell. *)
Definition rowCells : list HtmlCell.t :=
  [cell "Nov 1, 2026"; cell "A-Tier"; cell "Online"; cell ""; cell "";
   linkCell "CCT Season 3" "/counterstrike/CCT/Season_3"; cell "2 : 0"; cell "Imperial"].

Definition wonRow : HtmlRow.t :=
  {| HtmlRow.class := Some "recent-matches bg-win";
     HtmlRow.dataTimestamp := Some "1793556000";
     HtmlRow.cells := rowCells |}.

Definition sevenCellRow : HtmlRow.t :=
  {| HtmlRow.class := Some "recent-matches bg-win";
     HtmlRow.dataTimestamp := Some "1793556000";
     HtmlRow.cells := take 7 rowCells |}.

(** The row with its first six cells only. *)
Definition sixCellRow : HtmlRow.t :=
  {| HtmlRow.class := Some "recent-matches bg-win";
     HtmlRow.dataTimestamp := Some "1793556000";
     HtmlRow.cells := take 6 rowCells |}.

Definition wonPage : string := "<table><tr class='recent-matches bg-win'>8 cells</tr></table>".
Definition sevenCellPage : string := "<table><tr class='recent-matches bg-win'>7 cells</tr></table>".

Definition pages : list (string * list HtmlRow.t) :=
  [(wonPage, [wonRow]); (sevenCellPage, [sevenCellRow])].

Definition run : Platform := platform pages.

(** One fixture as the schedule gives it before kick-off and as the
    scoreboard gives it after the match. *)
Definition fromSchedule : list CalendarEventWithMeta :=
  @normalizeTeamEvents run (fun _ => noon) (Some [unitedChelseaPending])
    TEAM_MANCHESTER_UNITED.

Definition fromScoreboard : list CalendarEventWithMeta :=
  @normalizeTeamEvents run (fun _ => noon) (Some [unitedChelsea "2" "1"])
    TEAM_MANCHESTER_UNITED.

(** Worlds.  In [calm] every request succeeds: each club's schedule lists
    one fixture, the scoreboards list nothing, the promotion lists one
    card and the wiki page holds one row. *)
Definition noEvents : RawTeamSchedule := {| schedule_events := Some [] |}.

Definition scheduleOf (url : string) : Result RawTeamSchedule :=
  if includes url "teams/360/" then Ok {| schedule_events := Some [unitedChelsea "2" "1"] |}
  else if includes url "eng.2/teams/357/" then Ok {| schedule_events := Some [leedsArsenal] |}
  else Ok noEvents.

Definition calm : World :=
  {| fetchJson_schedule := scheduleOf;
     fetchJson_scoreboard := fun _ => Ok {| scoreboard_events := Some [] |};
     fetchJson_ufc := fun _ => Ok {| ufc_events := Some [ufcNamed] |};
     fetchJson_liquipedia := fun _ => Ok {| parse_text := Some wonPage |};
     clock := clockAtNoon |}.

(** [calm], but the promotion's scoreboard answers 503. *)
Definition ufcDown : World :=
  {| fetchJson_schedule := scheduleOf;
     fetchJson_scoreboard := fun _ => Ok {| scoreboard_events := Some [] |};
     fetchJson_ufc := fun url => Throw ("Failed to fetch " +:+ url +:+ ": 503 Service Unavailable");
     fetchJson_liquipedia := fun _ => Ok {| parse_text := Some wonPage |};
     clock := clockAtNoon |}.

(** [calm], but the second-division endpoints answer 503 and the
    first-division ones list nothing for Leeds United. *)
Definition secondDivisionDown : World :=
  {| fetchJson_schedule := fun url =>
       if includes url "eng.2/" then Throw ("Failed to fetch " +:+ url +:+ ": 503 Service Unavailable")
       else if includes url "teams/360/" then Ok {| schedule_events := Some [unitedChelsea "2" "1"] |}
       else Ok noEvents;
     fetchJson_scoreboard := fun url =>
       if includes url "eng.2/" then Throw ("Failed to fetch " +:+ url +:+ ": 503 Service Unavailable")
       else Ok {| scoreboard_events := Some [] |};
     fetchJson_ufc := fun _ => Ok {| ufc_events := Some [ufcNamed] |};
     fetchJson_liquipedia := fun _ => Ok {| parse_text := Some wonPage |};
     clock := clockAtNoon |}.


End Sample.

(** ** Further cases to run

    A wiki page with a time stamp beyond the range of [Date], a match day
    on which the scoreboard has the final score of a fixture the schedule
    still lists as pending, and the feed of the calm world as the two
    pages receive it, with day keys and labels in UTC. *)

Module Cases.

Definition lateRow : HtmlRow.t :=
  {| HtmlRow.class := Some "upcoming-matches";
     HtmlRow.dataTimestamp := Some "9000000000000";
     HtmlRow.cells := Sample.rowCells |}.

Definition latePage : string := "<table><tr class='upcoming-matches'>8 cells</tr></table>".

Definition lateRun : Platform := Sample.platform [(latePage, [lateRow])].

(** [Sample.calm], but the wiki serves [latePage]. *)
Definition lateWorld : World :=
  {| fetchJson_schedule := Sample.scheduleOf;
     fetchJson_scoreboard := fun _ => Ok {| scoreboard_events := Some [] |};
     fetchJson_ufc := fun _ => Ok {| ufc_events := Some [Sample.ufcNamed] |};
     fetchJson_liquipedia := fun _ => Ok {| parse_text := Some latePage |};
     clock := Sample.clockAtNoon |}.

Definition matchDay : World :=
  {| fetchJson_schedule := fun url =>
       if includes url "teams/360/"
       then Ok {| schedule_events := Some [Sample.unitedChelseaPending] |}
       else Ok Sample.noEvents;
     fetchJson_scoreboard := fun _ =>
       Ok {| scoreboard_events := Some [Sample.unitedChelsea "2" "1"] |};
     fetchJson_ufc := fun _ => Ok {| ufc_events := Some [Sample.ufcNamed] |};
     fetchJson_liquipedia := fun _ => Ok {| parse_text := Some Sample.wonPage |};
     clock := Sample.clockAtNoon |}.

(** A scoreboard of the promotion that lists one card twice. *)
Definition cardTwice : RawUfcScoreboard :=
  {| ufc_events := Some [Sample.ufcNamed; Sample.ufcNamed] |}.

Definition feed : list CalendarEventWithMeta :=
  match @getCalendarEvents Sample.run Sample.calm with
  | Ok events => events
  | Throw _ => []
  end.

Definition enhance (event : CalendarEventWithMeta) : CalendarUiEvent :=
  {| ui_event := event;
     localDateKey := String.substring 0 10 (startTimeUTC event);
     localDateLabel := String.substring 5 5 (startTimeUTC event);
     localTimeLabel := String.substring 11 5 (startTimeUTC event);
     isPast :=
       match @getTime Sample.run event with
       | Some start => start <? Sample.noon
       | None => false
       end |}.

Definition enhancedEvents : list CalendarUiEvent := List.map enhance feed.

Definition untitled : string := "Untitled tournament".

(** Strings compared by their code units. *)
Definition byCodeUnits (a b : string) : Z :=
  match String.compare a b with
  | Lt => -1
  | Eq => 0
  | Gt => 1
  end.

End Cases.


(** ** Vocabulary of the properties *)

Section Vocabulary.
Context {P : Platform}.

(** *** Club fixtures *)

Definition fixtureCompetitors (event : TeamEvent.t) : list Competitor.t :=
  nullish_or (TeamEvent.competitions event?.head?.Competition.competitors) [].

Definition fixtureStatus (event : TeamEvent.t) : option StatusType.t :=
  TeamEvent.competitions event?.head?.Competition.status?.Status.type.

(** The status state of a fixture; ["post"] is a concluded match. *)
Definition fixtureState (event : TeamEvent.t) : option string :=
  fixtureStatus event?.StatusType.state.

(** The score strings of the tracked club and of its opponent. *)
Definition ourScore (source : TeamSourceKey) (event : TeamEvent.t) : option string :=
  find (isTeam (teamId (TEAM_SOURCES source))) (fixtureCompetitors event)?.Competitor.score.

Definition theirScore (source : TeamSourceKey) (event : TeamEvent.t) : option string :=
  find (isOtherTeam (teamId (TEAM_SOURCES source))) (fixtureCompetitors event)?.Competitor.score.

(** The textual status: the detail when it is there and not empty, else
    the description when it is there and not empty. *)
Definition statusText (event : TeamEvent.t) : option string :=
  match fixtureStatus event?.StatusType.detail with
  | Some (String c s) => Some (String c s)
  | _ =>
      match fixtureStatus event?.StatusType.description with
      | Some (String c s) => Some (String c s)
      | _ => None
      end
  end.

(** The date a club fixture is filed under: the date of its first
    competition, else the date of the event. *)
Definition fixtureDate (event : TeamEvent.t) : option string :=
  nullish (TeamEvent.competitions event?.head?.Competition.date) (TeamEvent.date event).

(** A score string is missing when it is absent or empty. *)
Definition missing (score : option string) : Prop := score = None ∨ score = Some "".

(** *** Endpoint responses *)

(** A response that carries at least one event. *)
Definition withEvents (response : Result RawTeamSchedule) : bool :=
  match response with
  | Ok data => (0 <? length (nullish_or (schedule_events data) []))%nat
  | Throw _ => false
  end.

(** What the schedule endpoints of a club answer, in the order of the
    list. *)
Definition scheduleResponses (w : World) (source : TeamSourceKey)
    : list (Result RawTeamSchedule) :=
  List.map (fetchJson_schedule w) (endpoints (TEAM_SOURCES source)).

(** What the scoreboard endpoints of a club answer, in the order of the
    list. *)
Definition scoreboardResponses (w : World) (source : TeamSourceKey)
    : list (Result RawSoccerScoreboard) :=
  imap (fun n endpoint =>
          fetchJson_scoreboard w
            (buildSoccerScoreboardUrl (clock w (SoccerScoreboardUrl source) n) endpoint))
    (scoreboardEndpoints (TEAM_SOURCES source)).

(** The entries of a response in which the team [teamId] takes part. *)
Definition qualifying (teamId : string) (response : Result RawSoccerScoreboard)
    : list TeamEvent.t :=
  match response with
  | Ok data => List.filter (matchesTeam teamId) (nullish_or (scoreboard_events data) [])
  | Throw _ => []
  end.

(** The qualifying entries of all the scoreboard responses of a club. *)
Definition collected (w : World) (source : TeamSourceKey) : list TeamEvent.t :=
  concat (List.map (qualifying (teamId (TEAM_SOURCES source))) (scoreboardResponses w source)).

(** What the schedule adapter makes of the responses of its endpoints:
    the first response that carries events, else the response of the
    final endpoint, an error when that one failed. *)
Fixpoint scheduleOutcome (responses : list (Result RawTeamSchedule))
    : Result (option RawTeamSchedule) :=
  match responses with
  | [] => Ok None
  | [Ok data] => Ok (Some data)
  | [Throw e] => Throw e
  | response :: rest =>
      match response with
      | Ok data => if withEvents response then Ok (Some data) else scheduleOutcome rest
      | Throw _ => scheduleOutcome rest
      end
  end.

(** The errors of the responses that failed, in order. *)
Definition failures {A} (responses : list (Result A)) : list Error :=
  omap (fun r => match r with Throw e => Some e | Ok _ => None end) responses.

(** *** Merging *)

(** The map [mergeAndSortEvents] has built when it has gone through the
    events [l], starting from the map [m]. *)
Definition dedupe (l : list CalendarEventWithMeta)
    (m : list (string * CalendarEventWithMeta)) : list (string * CalendarEventWithMeta) :=
  fold_left (fun deduped event => map_set deduped (id event) event) l m.

(** The map is keyed by the ids of its events, each key once. *)
Definition keyedById (m : list (string * CalendarEventWithMeta)) : Prop :=
  NoDup (List.map fst m) ∧ ∀ k e, (k, e) ∈ m → id e = k.

(** The last entry of a list that carries the id [k]. *)
Definition lastWithId (k : string) (l : list CalendarEventWithMeta)
    : option CalendarEventWithMeta :=
  last (List.filter (fun e => String.eqb (id e) k) l).

(** *** Windows *)

(** A run of one of the normalizers. *)
Inductive NormalizerRun : Type :=
| ClubRun (events : option (list TeamEvent.t)) (source : TeamSourceKey)
| CombatRun (data : RawUfcScoreboard)
| RosterRun (html : string).

Definition produced (nowAt : nat -> Z) (run : NormalizerRun)
    : Result (list CalendarEventWithMeta) :=
  match run with
  | ClubRun events source => Ok (normalizeTeamEvents nowAt events source)
  | CombatRun data => Ok (normalizeUfcEvents nowAt data)
  | RosterRun html => normalizeLegacyCs2Matches nowAt html
  end.

(** The window of a source, in months behind and ahead of the clock. *)
Definition monthsBehind (run : NormalizerRun) : Z :=
  match run with RosterRun _ => 3 | _ => 1 end.

Definition monthsAhead (run : NormalizerRun) : Z :=
  match run with RosterRun _ => 18 | _ => 6 end.

(** *** The read endpoint *)

(** The records of the payload of a response, none for an error payload. *)
Definition payloadEvents (r : Response) : list PublicFields :=
  match response_body r with
  | EventsPayload events => events
  | ErrorPayload _ => []
  end.

(** The keys of the type [CalendarEvent]. *)
Definition CalendarEvent_keys : list string :=
  ["id"; "source"; "title"; "competition"; "fighters"; "startTimeUTC"; "result"; "outcome"].

(** The keys of a record of the payload that its declared type lacks. *)
Definition undeclaredKeys (p : PublicFields) : list string :=
  List.filter (fun k => negb (existsb (String.eqb k) CalendarEvent_keys)) (jsonKeys p).

(** All four fetch functions returned. *)
Definition allSourcesOk (w : World) : bool :=
  is_ok (fetchManchesterUnitedEvents w) && is_ok (fetchLeedsUnitedEvents w) &&
  is_ok (fetchLegacyCs2Events w) && is_ok (fetchUfcEvents w).

(** *** Order of the feed *)

(** [a] may stand before [b]: both start times are valid and [a] starts
    earlier, or at the same instant with a rank that is not higher. *)
Definition mayPrecede (a b : CalendarEventWithMeta) : Prop :=
  ∃ ta tb, getTime a = Some ta ∧ getTime b = Some tb ∧
    (ta < tb ∨ (ta = tb ∧ SORT_ORDER (source a) <= SORT_ORDER (source b))).

Definition hasValidTime (e : CalendarEventWithMeta) : Prop := is_Some (getTime e).

(** *** Identifiers *)

(** The id of an event starts with the name of its source and a hyphen. *)
Definition carriesSource (e : CalendarEventWithMeta) : Prop :=
  ∃ key, id e = sourceName (source e) +:+ "-" +:+ key.

(** The date a card of the promotion is filed under: the date of the
    event, else the date of its main competition. *)
Definition cardDate (event : UfcEvent.t) : option string :=
  nullish (UfcEvent.date event)
    (pickMainUfcCompetition (UfcEvent.competitions event)?.UfcCompetition.date).

(** [a] starts no later than [b], both start times being valid. *)
Definition startsNoLater (a b : CalendarEventWithMeta) : Prop :=
  ∃ ta tb, getTime a = Some ta ∧ getTime b = Some tb ∧ ta <= tb.

(** *** Text *)

(** Every white-space character of a text is a plain space, and no two of
    them are adjacent; [after_space] says that a space stands just before
    the text. *)
Fixpoint singleSpaced (after_space : bool) (l : list ascii) : bool :=
  match l with
  | [] => true
  | c :: rest =>
      if isSpace c
      then Ascii.eqb c " " && negb after_space && singleSpaced true rest
      else singleSpaced false rest
  end.

(** [s.trimEnd()] *)
Definition trimEnd (s : string) : string := str (trimEnd_chars (chars s)).

(** The name of the opponent in the title of a club fixture. *)
Definition opponentName (team : TeamSourceKey) (event : TeamEvent.t) : string :=
  nullish_or
    (find (isOtherTeam (teamId (TEAM_SOURCES team))) (fixtureCompetitors event)
       ?.Competitor.team?.Team.displayName)
    "TBD".

(** The side the tracked club plays on. *)
Definition ourSide (team : TeamSourceKey) (event : TeamEvent.t) : option string :=
  find (isTeam (teamId (TEAM_SOURCES team))) (fixtureCompetitors event)?.Competitor.homeAway.

(** *** The calendar page *)

(** The active streams after a series of clicks on the stream buttons,
    starting from the initial state. *)
Definition activeStreamsAfter (toggles : list CalendarSource) : list CalendarSource :=
  fold_left (fun prev stream => handleStreamToggle stream prev) toggles STREAM_ORDER.

Definition timesToggled (stream : CalendarSource) (toggles : list CalendarSource) : nat :=
  length (List.filter (fun item => bool_decide (item = stream)) toggles).

(** The event falls on the day with key [key]. *)
Definition onDay (key : string) (event : CalendarUiEvent) : bool :=
  String.eqb (localDateKey event) key.

Definition startsNoLaterUi (a b : CalendarUiEvent) : Prop :=
  startsNoLater (ui_event a) (ui_event b).

(** *** The tournaments page *)

(** The event is counted under the key [key] of the map. *)
Definition filedUnder (fallback key : string) (event : CalendarEventWithMeta) : bool :=
  String.eqb (digestKey fallback event) key.

(** The event belongs to the tournament of the digest. *)
Definition inTournament (fallback : string) (digest : TournamentDigest.t)
    (event : CalendarEventWithMeta) : bool :=
  bool_decide (source event = TournamentDigest.source digest)
  && String.eqb (toTournamentKey fallback event) (TournamentDigest.name digest).

Definition countedEvents (digests : list TournamentDigest.t) : Z :=
  foldr Z.add 0 (List.map TournamentDigest.eventCount digests).

(** The event starts at or after [now]. *)
Definition upcomingAt (now : Z) (event : CalendarEventWithMeta) : Prop :=
  ∃ start, getTime event = Some start ∧ now <= start.

(** *** Records of the read endpoint *)


(** *** Venues *)

Definition fixtureVenue (event : TeamEvent.t) : option Venue.t :=
  TeamEvent.competitions event?.head?.Competition.venue.

(** *** Results *)

Definition outcomeOf (ours theirs : Z) : CalendarOutcome :=
  if theirs <? ours then WIN else if ours <? theirs then LOSS else DRAW.

End Vocabulary.


(** * Properties *)

(** Splits a conjunction of closed facts and runs each of them. *)
Ltac run_each :=
  repeat match goal with |- _ ∧ _ => split end;
  try (vm_compute; reflexivity).

(** ** The runtime *)

Section RuntimeFacts.

Lemma insertSorted_perm {A} (comparefn : A → A → option Z) x l :
  insertSorted comparefn x l ≡ₚ x :: l.
Proof.
  induction l as [|y l IH]; simpl; [done|].
  destruct (SortCompare (comparefn x y) <=? 0); [done|].
  rewrite IH. apply Permutation_swap.
Qed.

Lemma sort_perm {A} (comparefn : A → A → option Z) l : sort comparefn l ≡ₚ l.
Proof.
  induction l as [|x l IH]; simpl; [done|].
  by rewrite insertSorted_perm, IH.
Qed.

(** A relation that agrees with the comparator on a set of elements, and
    is total and transitive there, orders what [sort] returns. *)
Lemma sort_sorted {A} (comparefn : A → A → option Z) (R : relation A) (ok : A → Prop) l :
  (∀ x y, ok x → ok y → SortCompare (comparefn x y) <= 0 → R x y) →
  (∀ x y, ok x → ok y → ¬ SortCompare (comparefn x y) <= 0 → R y x) →
  Transitive R →
  Forall ok l →
  StronglySorted R (sort comparefn l).
Proof.
  intros Hle Hgt Htrans. induction 1 as [|x l Hx Hl IH]; simpl; [constructor|].
  assert (Forall ok (sort comparefn l)) as Hok by by rewrite sort_perm.
  revert IH Hok. generalize (sort comparefn l) as s. clear Hl l.
  induction s as [|y s IHs]; intros Hs Hok; simpl.
  - repeat constructor.
  - apply StronglySorted_inv in Hs as [Hs Hy].
    apply Forall_cons in Hok as [Hoky Hoks].
    destruct (Z.leb_spec (SortCompare (comparefn x y)) 0) as [Hc|Hc].
    + constructor; [by constructor|].
      constructor; [by apply Hle|].
      eapply Forall_impl; [exact Hy|]. intros z Hz.
      transitivity y; [by apply Hle|done].
    + constructor; [by apply IHs|].
      rewrite insertSorted_perm. constructor; [apply Hgt; [done..|lia]|done].
Qed.

Lemma map_get_set {V} (m : list (string * V)) k v k' :
  map_get (map_set m k v) k' = if String.eqb k k' then Some v else map_get m k'.
Proof.
  induction m as [|[k0 v0] m IH]; simpl.
  - done.
  - destruct (String.eqb_spec k0 k) as [->|Hne]; simpl.
    + by destruct (String.eqb k k').
    + rewrite IH. destruct (String.eqb_spec k0 k') as [->|]; [|done].
      by destruct (String.eqb_spec k k').
Qed.

Lemma elem_of_keys_set {V} (m : list (string * V)) k v k' :
  k' ∈ List.map fst (map_set m k v) ↔ k' = k ∨ k' ∈ List.map fst m.
Proof.
  induction m as [|[k0 v0] m IH]; simpl.
  - rewrite list_elem_of_singleton, elem_of_nil. tauto.
  - destruct (String.eqb_spec k0 k) as [->|Hne]; simpl.
    + rewrite !elem_of_cons. tauto.
    + rewrite !elem_of_cons, IH. tauto.
Qed.

Lemma NoDup_keys_set {V} (m : list (string * V)) k v :
  NoDup (List.map fst m) → NoDup (List.map fst (map_set m k v)).
Proof.
  induction m as [|[k0 v0] m IH]; simpl; intros Hnd.
  - apply NoDup_singleton.
  - apply NoDup_cons in Hnd as [Hk0 Hnd].
    destruct (String.eqb_spec k0 k) as [->|Hne]; simpl.
    + by apply NoDup_cons.
    + apply NoDup_cons. split; [|by apply IH].
      rewrite elem_of_keys_set. intros [?|?]; done.
Qed.

Lemma elem_of_map_set {V} (m : list (string * V)) k v k' v' :
  (k', v') ∈ map_set m k v → (k' = k ∧ v' = v) ∨ (k', v') ∈ m.
Proof.
  induction m as [|[k0 v0] m IH]; simpl.
  - rewrite list_elem_of_singleton. intros [= -> ->]. by left.
  - destruct (String.eqb_spec k0 k) as [->|Hne].
    + rewrite !elem_of_cons. intros [[= -> ->]|?]; [by left|right; by right].
    + rewrite !elem_of_cons. intros [?|Hin]; [right; by left|].
      destruct (IH Hin) as [?|?]; [by left|right; by right].
Qed.

Lemma elem_of_map_get {V} (m : list (string * V)) k v :
  NoDup (List.map fst m) → (k, v) ∈ m ↔ map_get m k = Some v.
Proof.
  induction m as [|[k0 v0] m IH]; simpl; intros Hnd.
  - split; [by intros ?%elem_of_nil|done].
  - apply NoDup_cons in Hnd as [Hk0 Hnd]. rewrite elem_of_cons, (IH Hnd).
    destruct (String.eqb_spec k0 k) as [->|Hne].
    + split.
      * intros [[= ->]|Hget]; [done|].
        exfalso. apply Hk0. apply (IH Hnd) in Hget.
        apply (list_elem_of_fmap_2 fst) in Hget. done.
      * intros [= ->]. by left.
    + split; [intros [[= ? ?]|?]; congruence|by right].
Qed.

End RuntimeFacts.

(** ** Merging by id *)

Section Merge.
Context {P : Platform}.

Lemma lastWithId_cons k e l :
  lastWithId k (e :: l) =
  match lastWithId k l with
  | Some x => Some x
  | None => if String.eqb (id e) k then Some e else None
  end.
Proof.
  unfold lastWithId. simpl. destruct (String.eqb (id e) k); [|by destruct (last _)].
  rewrite last_cons. by destruct (last _).
Qed.

Lemma lastWithId_Some k l e : lastWithId k l = Some e → e ∈ l ∧ id e = k.
Proof.
  unfold lastWithId. intros Hlast.
  assert (e ∈ List.filter (λ e0, String.eqb (id e0) k) l) as Hin.
  { apply last_Some in Hlast as [l' ->]. apply elem_of_app. right. by left. }
  apply list_elem_of_In, filter_In in Hin as [Hin Heq].
  split; [by apply list_elem_of_In|by apply String.eqb_eq].
Qed.

Lemma lastWithId_is_Some k l : is_Some (lastWithId k l) ↔ k ∈ List.map id l.
Proof.
  induction l as [|e l IH].
  - split; [by intros [? [=]]|by intros ?%elem_of_nil].
  - rewrite lastWithId_cons. simpl. rewrite elem_of_cons, <- IH.
    destruct (lastWithId k l) eqn:Hl.
    + split; [by right|by eexists].
    + destruct (String.eqb_spec (id e) k) as [<-|Hne].
      * split; [by left|by eexists].
      * split; [by intros [? [=]]|]. intros [?|[? [=]]]. congruence.
Qed.

Lemma lastWithId_app k l1 l2 e :
  lastWithId k (l1 ++ l2) = Some e → k ∈ List.map id l2 → e ∈ l2.
Proof.
  induction l1 as [|x l1 IH]; simpl.
  - by intros [? _]%lastWithId_Some.
  - rewrite lastWithId_cons. intros Hlast Hk.
    destruct (lastWithId k (l1 ++ l2)) eqn:Hl; [simplify_eq; by apply IH|].
    exfalso. assert (is_Some (lastWithId k (l1 ++ l2))) as [? ?]; [|congruence].
    apply lastWithId_is_Some. rewrite map_app. apply elem_of_app. by right.
Qed.

Lemma dedupe_keyedById l m : keyedById m → keyedById (dedupe l m).
Proof.
  revert m. induction l as [|e l IH]; intros m [Hnd Hid]; simpl; [done|].
  apply IH. split; [by apply NoDup_keys_set|].
  intros k' e' [[-> ->]|Hin]%elem_of_map_set; [done|by apply Hid].
Qed.

Lemma map_get_dedupe l m k :
  map_get (dedupe l m) k =
  match lastWithId k l with Some e => Some e | None => map_get m k end.
Proof.
  revert m. induction l as [|e l IH]; intros m; simpl; [done|].
  rewrite IH, lastWithId_cons, map_get_set.
  destruct (lastWithId k l); [done|]. by destruct (String.eqb _ _).
Qed.

Lemma mergeAndSortEvents_dedupe sources :
  mergeAndSortEvents sources ≡ₚ map_values (dedupe (concat sources) []).
Proof.
  unfold mergeAndSortEvents. rewrite sort_perm.
  enough (∀ m, fold_left
            (λ deduped list,
               fold_left (λ deduped event, map_set deduped (id event) event) list deduped)
            sources m = dedupe (concat sources) m) as -> by done.
  induction sources as [|l sources IH]; intros m; simpl; [done|].
  rewrite IH. unfold dedupe. by rewrite fold_left_app.
Qed.

Lemma elem_of_mergeAndSortEvents sources e :
  e ∈ mergeAndSortEvents sources ↔ lastWithId (id e) (concat sources) = Some e.
Proof.
  rewrite mergeAndSortEvents_dedupe. unfold map_values.
  destruct (dedupe_keyedById (concat sources) []) as [Hnd Hid].
  { split; [constructor|by intros ? ? ?%elem_of_nil]. }
  split.
  - intros Hin. apply list_elem_of_In, in_map_iff in Hin as [[k e'] [Heq Hin]].
    simpl in Heq. subst e'. apply list_elem_of_In in Hin.
    rewrite (Hid _ _ Hin). apply (elem_of_map_get _ _ _ Hnd) in Hin.
    rewrite map_get_dedupe in Hin. by destruct (lastWithId k (concat sources)).
  - intros Hlast. apply list_elem_of_In, in_map_iff. exists (id e, e).
    split; [done|]. apply list_elem_of_In, (elem_of_map_get _ _ _ Hnd).
    by rewrite map_get_dedupe, Hlast.
Qed.

(** C6.  Merging canonical-event lists deduplicates by id, the last write
    winning: no id occurs twice in the output, the ids of the output are
    the ids of the input, the entry kept for an id is the last entry with
    that id in the lists taken in order, and when an earlier and a later
    list share an id the entry kept is one of the later list. *)
Theorem mergeAndSortEvents_last_write_wins (sources : list (list CalendarEventWithMeta)) :
  let merged := mergeAndSortEvents sources in
  NoDup (List.map id merged) ∧
  (∀ k, k ∈ List.map id merged ↔ k ∈ List.map id (concat sources)) ∧
  (∀ e, e ∈ merged ↔ lastWithId (id e) (concat sources) = Some e) ∧
  (∀ earlier later e, sources = [earlier; later] →
     e ∈ merged → id e ∈ List.map id later → e ∈ later).
Proof.
  intros merged. split; [|split; [|split]].
  - unfold merged. rewrite mergeAndSortEvents_dedupe.
    destruct (dedupe_keyedById (concat sources) []) as [Hnd Hid].
    { split; [constructor|by intros ? ? ?%elem_of_nil]. }
    enough (List.map id (map_values (dedupe (concat sources) []))
            = List.map fst (dedupe (concat sources) [])) as -> by done.
    unfold map_values. rewrite List.map_map. apply map_ext_in.
    intros [k e] Hin%list_elem_of_In. simpl. by apply Hid.
  - intros k. rewrite <- (lastWithId_is_Some k (concat sources)). split.
    + intros Hin. apply list_elem_of_In, in_map_iff in Hin as [e [<- Hin]].
      apply list_elem_of_In, elem_of_mergeAndSortEvents in Hin. by eexists.
    + intros [e He]. destruct (lastWithId_Some _ _ _ He) as [_ <-].
      apply list_elem_of_In, in_map_iff. exists e. split; [done|].
      by apply list_elem_of_In, elem_of_mergeAndSortEvents.
  - intros e. apply elem_of_mergeAndSortEvents.
  - intros earlier later e -> Hin Hid.
    apply elem_of_mergeAndSortEvents in Hin. simpl in Hin.
    rewrite app_nil_r in Hin. by eapply lastWithId_app.
Qed.

End Merge.

(** ** Windows *)

Section Windows.
Context {P : Platform}.

(** The window is closed at both ends. *)
Lemma isWithinWindow_spec now dateISO monthsAhead monthsBehind :
  isWithinWindow now dateISO monthsAhead monthsBehind = true ↔
  ∃ t, parseDate dateISO = Some t ∧
       subMonths now monthsBehind <= t <= addMonths now monthsAhead.
Proof.
  unfold isWithinWindow. destruct (parseDate dateISO) as [t|].
  - rewrite andb_true_iff, !Z.leb_le. split.
    + intros [? ?]. exists t. auto.
    + intros (? & [= <-] & ? & ?). auto.
  - split; [done|]. by intros (? & [=] & _).
Qed.

Lemma normalizeTeamEvent_window now source event e :
  normalizeTeamEvent now source event = Some e →
  isWithinWindow now (startTimeUTC e) 6 1 = true.
Proof.
  unfold normalizeTeamEvent.
  destruct (toISO _) as [startTime|]; [|done].
  destruct (negb (truthy startTime) || _) eqn:Hskip; [done|].
  destruct (deriveResult _ _ _ _ _) as [result outcome].
  intros [= <-]. simpl.
  apply orb_false_iff in Hskip as [_ Hwin]. by apply negb_false_iff in Hwin.
Qed.

Lemma normalizeTeamEvents_from_inv nowAt source index eventList e :
  e ∈ normalizeTeamEvents_from nowAt source index eventList →
  ∃ n event, event ∈ eventList ∧ normalizeTeamEvent (nowAt n) source event = Some e.
Proof.
  revert index. induction eventList as [|event rest IH]; intros index; simpl.
  - by intros ?%elem_of_nil.
  - destruct (normalizeTeamEvent (nowAt index) source event) as [e'|] eqn:He.
    + intros [->|Hin]%elem_of_cons.
      * exists index, event. split; [by left|done].
      * destruct (IH _ Hin) as (n & ev & ? & ?). exists n, ev. split; [by right|done].
    + intros Hin. destruct (IH _ Hin) as (n & ev & ? & ?).
      exists n, ev. split; [by right|done].
Qed.

Lemma normalizeUfcEvent_window now seen event seen' e :
  normalizeUfcEvent now seen event = (seen', Some e) →
  isWithinWindow now (startTimeUTC e) 6 1 = true.
Proof.
  unfold normalizeUfcEvent.
  destruct (UfcEvent.id event) as [event_id|]; [|done].
  destruct (negb (truthy event_id) || _); [done|].
  destruct (toISO _) as [startTime|]; [|done].
  destruct (negb (truthy startTime) || _) eqn:Hskip; [done|].
  intros [= _ <-]. simpl.
  apply orb_false_iff in Hskip as [_ Hwin]. by apply negb_false_iff in Hwin.
Qed.

Lemma normalizeUfcEvents_from_inv nowAt index seen events e :
  e ∈ normalizeUfcEvents_from nowAt index seen events →
  ∃ n seen0 seen1 event,
    event ∈ events ∧ normalizeUfcEvent (nowAt n) seen0 event = (seen1, Some e).
Proof.
  revert index seen. induction events as [|event rest IH]; intros index seen; simpl.
  - by intros ?%elem_of_nil.
  - destruct (normalizeUfcEvent (nowAt index) seen event) as [seen' [e'|]] eqn:He.
    + intros [->|Hin]%elem_of_cons.
      * exists index, seen, seen', event. split; [by left|done].
      * destruct (IH _ _ Hin) as (n & s0 & s1 & ev & ? & ?).
        exists n, s0, s1, ev. split; [by right|done].
    + intros Hin. destruct (IH _ _ Hin) as (n & s0 & s1 & ev & ? & ?).
      exists n, s0, s1, ev. split; [by right|done].
Qed.

(** A row that pushes an event has a start time inside the legacy window
    and at least seven cells. *)
Lemma normalizeLegacyRow_pushed now seen row seen' e :
  normalizeLegacyRow now seen row = Ok (seen', Some e) →
  isWithinWindow now (startTimeUTC e) 18 3 = true ∧
  (7 <= length (HtmlRow.cells row))%nat.
Proof.
  unfold normalizeLegacyRow.
  destruct (rowStartTime _) as [[startTime|]|]; simpl; [|done..].
  destruct (negb (truthy startTime) || _) eqn:Hskip; [done|].
  destruct (Nat.ltb_spec (length (HtmlRow.cells row)) 7) as [|Hcells]; [done|].
  destruct (rowUrl _) as [url|]; simpl; [|done].
  destruct (set_has seen _); [done|].
  intros [= _ <-]. simpl. split; [|done].
  apply orb_false_iff in Hskip as [_ Hwin]. by apply negb_false_iff in Hwin.
Qed.

Lemma normalizeLegacyRows_from_inv nowAt index seen rows events e :
  normalizeLegacyRows_from nowAt index seen rows = Ok events →
  e ∈ events →
  ∃ n seen0 seen1 row,
    row ∈ rows ∧ normalizeLegacyRow (nowAt n) seen0 row = Ok (seen1, Some e).
Proof.
  revert index seen events.
  induction rows as [|row rest IH]; intros index seen events; simpl.
  - intros [= <-]. by intros ?%elem_of_nil.
  - destruct (normalizeLegacyRow (nowAt index) seen row)
      as [[seen' pushed]|] eqn:Hrow; simpl; [|done].
    destruct (normalizeLegacyRows_from nowAt (S index) seen' rest)
      as [events'|] eqn:Hrest; simpl; [|done].
    intros [= <-] Hin.
    assert (e ∈ events' → ∃ n seen0 seen1 row0,
              row0 ∈ row :: rest ∧
              normalizeLegacyRow (nowAt n) seen0 row0 = Ok (seen1, Some e)) as Htail.
    { intros Hin'. destruct (IH _ _ _ Hrest Hin') as (n & s0 & s1 & r & ? & ?).
      exists n, s0, s1, r. split; [by right|done]. }
    destruct pushed as [e'|]; [|by apply Htail].
    apply elem_of_cons in Hin as [->|Hin]; [|by apply Htail].
    exists index, seen, seen', row. split; [by left|done].
Qed.

(** A club fixture is dropped when its date is absent, empty or not a
    date, and when the resolved timestamp is outside the window. *)
Lemma normalizeTeamEvent_dropped now source event :
  toISO (fixtureDate event) = None ∨
  (∃ startTime, toISO (fixtureDate event) = Some startTime ∧
                isWithinWindow now startTime 6 1 = false) →
  normalizeTeamEvent now source event = None.
Proof.
  unfold normalizeTeamEvent.
  change (nullish _ (TeamEvent.date event)) with (fixtureDate event).
  intros [-> |(startTime & -> & Hout)]; [done|].
  unfold isWithinDefaultWindow.
  change DEFAULT_RANGE_MONTHS_AHEAD with 6. change DEFAULT_RANGE_MONTHS_BEHIND with 1.
  rewrite Hout. by rewrite orb_true_r.
Qed.

Lemma toISO_None dateString :
  toISO dateString = None ↔
  dateString = None ∨ dateString = Some "" ∨
  ∃ s, dateString = Some s ∧ parseDate s = None.
Proof.
  unfold toISO. destruct dateString as [[|c s]|]; simpl.
  - split; [by right; left|done].
  - destruct (parseDate (String c s)) eqn:Hparse.
    + split; [done|]. intros [?|[?|(s' & [= <-] & ?)]]; congruence.
    + split; [|done]. intros _. right. right. by exists (String c s).
  - split; [by left|done].
Qed.

(** A card of the promotion is dropped in the same cases. *)
Lemma normalizeUfcEvent_dropped now seen event :
  let date :=
    nullish (UfcEvent.date event)
      (pickMainUfcCompetition (UfcEvent.competitions event)?.UfcCompetition.date) in
  toISO date = None ∨
  (∃ startTime, toISO date = Some startTime ∧ isWithinWindow now startTime 6 1 = false) →
  (normalizeUfcEvent now seen event).2 = None.
Proof.
  intros date. unfold normalizeUfcEvent.
  destruct (UfcEvent.id event) as [event_id|]; [|done].
  destruct (negb (truthy event_id) || _); [done|].
  fold date. intros [-> |(startTime & -> & Hout)]; [done|].
  unfold isWithinDefaultWindow.
  change DEFAULT_RANGE_MONTHS_AHEAD with 6. change DEFAULT_RANGE_MONTHS_BEHIND with 1.
  rewrite Hout. by rewrite orb_true_r.
Qed.

(** A roster row is skipped when its timestamp attribute is absent, empty
    or without a leading number, and when the timestamp is outside the
    window. *)
Lemma normalizeLegacyRow_dropped now seen row :
  rowStartTime (HtmlRow.dataTimestamp row) = Ok None ∨
  (∃ startTimeUTC, rowStartTime (HtmlRow.dataTimestamp row) = Ok (Some startTimeUTC) ∧
                   isWithinWindow now startTimeUTC 18 3 = false) →
  normalizeLegacyRow now seen row = Ok (seen, None).
Proof.
  unfold normalizeLegacyRow. intros [-> |(startTime & -> & Hout)]; [done|].
  cbn [bind].
  change LEGACY_RANGE_MONTHS_AHEAD with 18. change LEGACY_RANGE_MONTHS_BEHIND with 3.
  rewrite Hout. by rewrite orb_true_r.
Qed.

Lemma rowStartTime_None timestampAttr :
  rowStartTime timestampAttr = Ok None ↔
  timestampAttr = None ∨ timestampAttr = Some "" ∨
  ∃ a, timestampAttr = Some a ∧ parseInt a = None.
Proof.
  unfold rowStartTime. destruct timestampAttr as [[|c s]|]; cbn [truthy].
  - split; [by right; left|done].
  - destruct (parseInt (String c s)) as [timestamp|] eqn:Hparse.
    + destruct (validTime (timestamp * 1000));
        (split; [done|]; intros [?|[?|(a & [= <-] & ?)]]; congruence).
    + split; [|done]. intros _. right. right. by exists (String c s).
  - split; [by left|done].
Qed.

Lemma produced_within nowAt run events e :
  produced nowAt run = Ok events →
  e ∈ events →
  ∃ n, isWithinWindow (nowAt n) (startTimeUTC e) (monthsAhead run) (monthsBehind run) = true.
Proof.
  intros Hrun Hin. destruct run as [raw source|data|html]; simpl in *.
  - injection Hrun as <-. unfold normalizeTeamEvents in Hin.
    apply normalizeTeamEvents_from_inv in Hin as (n & event & _ & He).
    exists n. by eapply normalizeTeamEvent_window.
  - injection Hrun as <-. unfold normalizeUfcEvents in Hin.
    apply normalizeUfcEvents_from_inv in Hin as (n & s0 & s1 & event & _ & He).
    exists n. by eapply normalizeUfcEvent_window.
  - unfold normalizeLegacyCs2Matches in Hrun.
    destruct (normalizeLegacyRows_from_inv _ _ _ _ _ _ Hrun Hin)
      as (n & s0 & s1 & row & _ & He).
    exists n. by eapply normalizeLegacyRow_pushed.
Qed.

(** C8.  Every canonical event a normalizer produces has a start time that
    parses to a valid instant [t], and [t] lies in the closed window of
    the source around the clock reading [nowAt n] of the record the event
    comes from: one month behind to six months ahead for the clubs and
    the promotion, three months behind to eighteen months ahead for the
    roster.  A record whose date is missing, does not parse or falls
    outside the window is therefore never emitted. *)
Theorem normalizers_emit_within_window (nowAt : nat → Z) (run : NormalizerRun)
    (events : list CalendarEventWithMeta) (e : CalendarEventWithMeta) :
  produced nowAt run = Ok events →
  e ∈ events →
  ∃ n t, parseDate (startTimeUTC e) = Some t ∧
         subMonths (nowAt n) (monthsBehind run) <= t <= addMonths (nowAt n) (monthsAhead run).
Proof.
  intros Hrun Hin. destruct (produced_within _ _ _ _ Hrun Hin) as [n Hn].
  exists n. by apply isWithinWindow_spec.
Qed.

End Windows.

(** ** Order of the feed *)

Section Order.
Context {P : Platform}.

(** The ranks of the sources. *)
Example SORT_ORDER_ranks :
  SORT_ORDER MANCHESTER_UNITED < SORT_ORDER LEEDS_UNITED ∧
  SORT_ORDER LEEDS_UNITED < SORT_ORDER LEGACY_CS2 ∧
  SORT_ORDER LEGACY_CS2 < SORT_ORDER UFC.
Proof. simpl. lia. Qed.

Lemma mayPrecede_trans : Transitive mayPrecede.
Proof.
  intros a b c (ta & tb & Ha & Hb & Hab) (tb' & tc & Hb' & Hc & Hbc).
  rewrite Hb in Hb'. injection Hb' as <-.
  exists ta, tc. split; [done|]. split; [done|]. lia.
Qed.

Lemma compareEvents_le a b :
  hasValidTime a → hasValidTime b →
  SortCompare (compareEvents a b) <= 0 → mayPrecede a b.
Proof.
  intros [ta Ha] [tb Hb]. unfold compareEvents, timeDifference.
  rewrite Ha, Hb. intros Hcmp. exists ta, tb. split; [done|]. split; [done|].
  destruct (Z.eqb_spec (ta - tb) 0); simpl in Hcmp; lia.
Qed.

Lemma compareEvents_gt a b :
  hasValidTime a → hasValidTime b →
  ¬ SortCompare (compareEvents a b) <= 0 → mayPrecede b a.
Proof.
  intros [ta Ha] [tb Hb]. unfold compareEvents, timeDifference.
  rewrite Ha, Hb. intros Hcmp. exists tb, ta. split; [done|]. split; [done|].
  destruct (Z.eqb_spec (ta - tb) 0); simpl in Hcmp; lia.
Qed.

Lemma sortEvents_sorted events :
  Forall hasValidTime events → StronglySorted mayPrecede (sortEvents events).
Proof.
  apply sort_sorted.
  - apply compareEvents_le.
  - apply compareEvents_gt.
  - apply mayPrecede_trans.
Qed.

Lemma StronglySorted_lookup {A} (R : relation A) l i j x y :
  StronglySorted R l → l !! i = Some x → l !! j = Some y → (i < j)%nat → R x y.
Proof.
  intros Hl. revert i j. induction Hl as [|z l Hl IH Hz]; intros i j Hi Hj Hij.
  - by rewrite lookup_nil in Hi.
  - destruct j as [|j]; [lia|]. simpl in Hj. destruct i as [|i]; simpl in Hi.
    + injection Hi as ->. eapply Forall_forall; [exact Hz|].
      by eapply list_elem_of_lookup_2.
    + eapply IH; [done..|lia].
Qed.

(** Every event a fetch function returns has a valid start time. *)
Lemma isWithinWindow_valid now e monthsAhead monthsBehind :
  isWithinWindow now (startTimeUTC e) monthsAhead monthsBehind = true → hasValidTime e.
Proof. intros (t & Ht & _)%isWithinWindow_spec. by exists t. Qed.

Lemma normalizeTeamEvents_valid nowAt events source :
  Forall hasValidTime (normalizeTeamEvents nowAt events source).
Proof.
  apply Forall_forall. intros e Hin.
  destruct (produced_within nowAt (ClubRun events source) _ e eq_refl Hin) as [n Hn].
  by eapply isWithinWindow_valid.
Qed.

Lemma mergeAndSortEvents_valid sources :
  Forall (Forall hasValidTime) sources → Forall hasValidTime (mergeAndSortEvents sources).
Proof.
  intros Hsources. apply Forall_forall. intros e Hin.
  apply elem_of_mergeAndSortEvents, lastWithId_Some in Hin as [Hin _].
  apply list_elem_of_In, in_concat in Hin as (l & Hl & Hel).
  eapply Forall_forall in Hsources; [|by apply list_elem_of_In].
  eapply Forall_forall in Hsources; [done|by apply list_elem_of_In].
Qed.

Lemma fetchTeamEvents_valid w source events :
  fetchTeamEvents w source = Ok events → Forall hasValidTime events.
Proof.
  unfold fetchTeamEvents.
  destruct (Promise_all2 _ _) as [[schedule scoreboardEvents]|]; simpl; [|done].
  intros [= <-]. apply mergeAndSortEvents_valid.
  repeat constructor; apply normalizeTeamEvents_valid.
Qed.

Lemma fetchUfcEvents_valid w events :
  fetchUfcEvents w = Ok events → Forall hasValidTime events.
Proof.
  unfold fetchUfcEvents. destruct (fetchJson_ufc _ _) as [data|]; simpl; [|done].
  intros [= <-]. apply Forall_forall. intros e Hin.
  destruct (produced_within _ (CombatRun data) _ e eq_refl Hin) as [n Hn].
  by eapply isWithinWindow_valid.
Qed.

Lemma fetchLegacyCs2Events_valid w events :
  fetchLegacyCs2Events w = Ok events → Forall hasValidTime events.
Proof.
  unfold fetchLegacyCs2Events.
  destruct (fetchJson_liquipedia _ _) as [data|]; simpl; [|done].
  destruct (parse_text data) as [html|]; [|by intros [= <-]].
  destruct (negb (truthy html)); [by intros [= <-]|].
  intros Hrun. apply Forall_forall. intros e Hin.
  destruct (produced_within _ (RosterRun html) _ e Hrun Hin) as [n Hn].
  by eapply isWithinWindow_valid.
Qed.

(** What [getCalendarEvents] returns when it returns. *)
Lemma getCalendarEvents_Ok w feed :
  getCalendarEvents w = Ok feed ↔
  ∃ manUnited leeds legacyCs2 ufc,
    fetchManchesterUnitedEvents w = Ok manUnited ∧
    fetchLeedsUnitedEvents w = Ok leeds ∧
    fetchLegacyCs2Events w = Ok legacyCs2 ∧
    fetchUfcEvents w = Ok ufc ∧
    feed = sortEvents (manUnited ++ leeds ++ legacyCs2 ++ ufc).
Proof.
  unfold getCalendarEvents. simpl.
  destruct (fetchManchesterUnitedEvents w) as [a|], (fetchLeedsUnitedEvents w) as [b|],
    (fetchLegacyCs2Events w) as [c|], (fetchUfcEvents w) as [d|]; simpl;
    (split; [intros [= <-] | intros (? & ? & ? & ? & [= ?] & [= ?] & [= ?] & [= ?] & ->)]);
    subst; rewrite ?app_nil_r; try done.
  by exists a, b, c, d.
Qed.

Lemma getCalendarEvents_valid w feed :
  getCalendarEvents w = Ok feed → Forall hasValidTime feed.
Proof.
  intros (a & b & c & d & Ha & Hb & Hc & Hd & ->)%getCalendarEvents_Ok.
  unfold sortEvents. rewrite sort_perm. rewrite !Forall_app.
  split; [by eapply fetchTeamEvents_valid|].
  split; [by eapply fetchTeamEvents_valid|].
  split; [by eapply fetchLegacyCs2Events_valid|by eapply fetchUfcEvents_valid].
Qed.

(** C7.  In the feed [getCalendarEvents] returns, the start times of any
    two events [A] and [B] are valid; if [A] starts strictly earlier than
    [B] then [A] stands before [B], and if they start at the same instant
    and the source of [A] has the lower rank (MANCHESTER_UNITED, then
    LEEDS_UNITED, then LEGACY_CS2, then UFC) then [A] stands before [B]. *)
Theorem feed_sorted_by_time_then_source (w : World) (feed : list CalendarEventWithMeta)
    (i j : nat) (A B : CalendarEventWithMeta) :
  getCalendarEvents w = Ok feed →
  feed !! i = Some A →
  feed !! j = Some B →
  ∃ tA tB, getTime A = Some tA ∧ getTime B = Some tB ∧
    (tA < tB → (i < j)%nat) ∧
    (tA = tB → SORT_ORDER (source A) < SORT_ORDER (source B) → (i < j)%nat).
Proof.
  intros Hfeed HA HB.
  pose proof (getCalendarEvents_valid _ _ Hfeed) as Hvalid.
  assert (StronglySorted mayPrecede feed) as Hsorted.
  { apply getCalendarEvents_Ok in Hfeed as (a & b & c & d & _ & _ & _ & _ & Hs).
    rewrite Hs in Hvalid |- *. unfold sortEvents in Hvalid. rewrite sort_perm in Hvalid.
    by apply sortEvents_sorted. }
  destruct (proj1 (Forall_forall _ _) Hvalid A) as [tA HtA];
    [by eapply list_elem_of_lookup_2|].
  destruct (proj1 (Forall_forall _ _) Hvalid B) as [tB HtB];
    [by eapply list_elem_of_lookup_2|].
  exists tA, tB. split; [done|]. split; [done|].
  assert ((j < i)%nat → tB < tA ∨ (tB = tA ∧ SORT_ORDER (source B) <= SORT_ORDER (source A)))
    as Hback.
  { intros Hji.
    destruct (StronglySorted_lookup _ _ _ _ _ _ Hsorted HB HA Hji)
      as (tb & ta & Hb & Ha & Hord).
    rewrite HtB in Hb. rewrite HtA in Ha. by simplify_eq. }
  split.
  - intros Hlt. destruct (Nat.lt_trichotomy i j) as [?|[->|Hji]]; [done| |].
    + rewrite HA in HB. injection HB as ->. rewrite HtA in HtB. simplify_eq. lia.
    + specialize (Hback Hji). lia.
  - intros Heq Hrank. destruct (Nat.lt_trichotomy i j) as [?|[->|Hji]]; [done| |].
    + rewrite HA in HB. injection HB as ->. lia.
    + specialize (Hback Hji). lia.
Qed.

End Order.

(** ** Results and outcomes of club fixtures *)

Section ClubResults.
Context {P : Platform}.

Lemma normalizeTeamEvent_result now source event e :
  normalizeTeamEvent now source event = Some e →
  (result e, outcome e) =
  deriveResult (fixtureState event)
    (fixtureStatus event?.StatusType.detail)
    (fixtureStatus event?.StatusType.description)
    (ourScore source event) (theirScore source event).
Proof.
  unfold normalizeTeamEvent.
  destruct (toISO _) as [startTime|]; [|done].
  destruct (negb (truthy startTime) || _); [done|].
  change (deriveResult _ _ _ _ _) with
    (deriveResult (fixtureState event)
       (fixtureStatus event?.StatusType.detail)
       (fixtureStatus event?.StatusType.description)
       (ourScore source event) (theirScore source event)).
  destruct (deriveResult _ _ _ _ _) as [r o]. by intros [= <-].
Qed.

Lemma extractNumericScore_truthy s n :
  extractNumericScore (Some s) = Some n → truthy s = true.
Proof. unfold extractNumericScore. by destruct s. Qed.

Lemma truthy_true s : truthy s = true ↔ s ≠ "".
Proof. by destruct s. Qed.

Lemma statusText_fallback event :
  (if truthy_opt (fixtureStatus event?.StatusType.detail)
   then (fixtureStatus event?.StatusType.detail, @None CalendarOutcome)
   else if truthy_opt (fixtureStatus event?.StatusType.description)
        then (fixtureStatus event?.StatusType.description, None)
        else (None, None)) = (statusText event, None).
Proof.
  unfold statusText.
  destruct (fixtureStatus event?.StatusType.detail) as [[|c s]|];
    destruct (fixtureStatus event?.StatusType.description) as [[|c' s']|]; done.
Qed.

Lemma deriveResult_post statusDetail statusDescription focusScore opponentScore :
  deriveResult (Some "post") statusDetail statusDescription focusScore opponentScore =
  if truthy_opt focusScore && truthy_opt opponentScore then
    (Some (nullish_or focusScore "" +:+ " - " +:+ nullish_or opponentScore ""),
     match extractNumericScore focusScore, extractNumericScore opponentScore with
     | Some f, Some o => Some (if o <? f then WIN else if f <? o then LOSS else DRAW)
     | _, _ => None
     end)
  else if truthy_opt statusDetail then (statusDetail, None)
  else if truthy_opt statusDescription then (statusDescription, None)
  else (None, None).
Proof.
  unfold deriveResult. change (String.eqb "post" "post") with true. cbv iota.
  destruct (truthy_opt focusScore && truthy_opt opponentScore); [|done].
  destruct (extractNumericScore focusScore) as [f|]; [|done].
  destruct (extractNumericScore opponentScore) as [o|]; [|done].
  destruct (o <? f); [done|]. by destruct (f <? o).
Qed.

(** C3, as the code has it.  For a club fixture whose status state is
    ["post"]: when both score strings are there and hold a number, the
    result is ["{ours} - {theirs}"] and the outcome is WIN, LOSS or DRAW
    as our number is greater than, less than or equal to theirs; when both
    are there and not empty but one holds no number, the result is still
    ["{ours} - {theirs}"] and there is no outcome; when one is absent or
    empty, there is no outcome and the result is the textual status
    (detail, else description) when there is one. *)
Theorem club_result_of_concluded_fixture (now : Z) (source : TeamSourceKey)
    (event : TeamEvent.t) (e : CalendarEventWithMeta) :
  normalizeTeamEvent now source event = Some e →
  fixtureState event = Some "post" →
  (∀ ours theirs f o,
     ourScore source event = Some ours → theirScore source event = Some theirs →
     extractNumericScore (Some ours) = Some f →
     extractNumericScore (Some theirs) = Some o →
     result e = Some (ours +:+ " - " +:+ theirs) ∧
     (o < f → outcome e = Some WIN) ∧
     (f < o → outcome e = Some LOSS) ∧
     (f = o → outcome e = Some DRAW)) ∧
  (∀ ours theirs,
     ourScore source event = Some ours → theirScore source event = Some theirs →
     ours ≠ "" → theirs ≠ "" →
     extractNumericScore (Some ours) = None ∨ extractNumericScore (Some theirs) = None →
     result e = Some (ours +:+ " - " +:+ theirs) ∧ outcome e = None) ∧
  (missing (ourScore source event) ∨ missing (theirScore source event) →
     result e = statusText event ∧ outcome e = None).
Proof.
  intros He Hstate. apply normalizeTeamEvent_result in He.
  rewrite Hstate, deriveResult_post in He.
  split; [|split].
  - intros ours theirs f o Hours Htheirs Hf Ho.
    rewrite Hours, Htheirs, Hf, Ho in He. cbn [truthy_opt nullish_or] in He.
    rewrite (extractNumericScore_truthy _ _ Hf), (extractNumericScore_truthy _ _ Ho) in He.
    cbn [andb] in He. injection He as -> ->. split; [done|].
    destruct (Z.ltb_spec o f); [repeat split; (done || lia)|].
    destruct (Z.ltb_spec f o); repeat split; (done || lia).
  - intros ours theirs Hours Htheirs Hne Hne' Hnum.
    rewrite Hours, Htheirs in He. cbn [truthy_opt nullish_or] in He.
    apply truthy_true in Hne, Hne'. rewrite Hne, Hne' in He. cbn [andb] in He.
    destruct Hnum as [Hnum|Hnum]; rewrite Hnum in He.
    + by injection He as -> ->.
    + destruct (extractNumericScore (Some ours)); by injection He as -> ->.
  - intros Hmissing.
    assert (truthy_opt (ourScore source event) && truthy_opt (theirScore source event)
            = false) as Hfalse.
    { destruct Hmissing as [[->| ->]|[->| ->]]; simpl; by rewrite ?andb_false_r. }
    rewrite Hfalse, statusText_fallback in He. by injection He as -> ->.
Qed.

End ClubResults.

(** ** The club adapters *)

Section ClubAdapters.
Context {P : Platform}.

(** *** The schedule adapter *)

Lemma scheduleOutcome_cons r r' rest :
  scheduleOutcome (r :: r' :: rest) =
  if withEvents r then match r with Ok data => Ok (Some data) | Throw e => Throw e end
  else scheduleOutcome (r' :: rest).
Proof. destruct r as [data|e]; [|done]. simpl. by destruct (0 <? _)%nat. Qed.

(** With an endpoint left to try, the loop does what [scheduleOutcome]
    says of the responses still to come, whatever error it has met. *)
Lemma fetchTeamSchedule_loop_outcome fetchJson endpoints index remaining lastError :
  (index + length remaining = length endpoints)%nat →
  remaining ≠ [] →
  fetchTeamSchedule_loop fetchJson endpoints index remaining lastError =
  scheduleOutcome (List.map fetchJson remaining).
Proof.
  revert index lastError.
  induction remaining as [|endpoint rest IH]; intros index lastError Hlen Hne; [done|].
  clear Hne. simpl in Hlen. destruct rest as [|endpoint' rest].
  - simpl. destruct (fetchJson endpoint) as [data|e]; [|done].
    replace (index <? length endpoints - 1)%nat with false
      by (symmetry; apply Nat.ltb_ge; simpl in Hlen; lia).
    by rewrite andb_false_r.
  - cbn [List.map]. rewrite scheduleOutcome_cons.
    cbn [fetchTeamSchedule_loop].
    destruct (fetchJson endpoint) as [data|e]; cbn [withEvents].
    + replace (index <? length endpoints - 1)%nat with true
        by (symmetry; apply Nat.ltb_lt; simpl in Hlen; lia).
      rewrite andb_true_r.
      destruct (0 <? length (nullish_or (schedule_events data) []))%nat; [done|].
      cbn [negb]. apply (IH (S index)); [simpl in *; lia|done].
    + apply (IH (S index)); [simpl in *; lia|done].
Qed.

Lemma fetchTeamSchedule_scheduleOutcome w source :
  fetchTeamSchedule w source = scheduleOutcome (scheduleResponses w source).
Proof.
  unfold fetchTeamSchedule, scheduleResponses.
  destruct (endpoints (TEAM_SOURCES source)) as [|endpoint rest] eqn:Hendpoints; [done|].
  by apply fetchTeamSchedule_loop_outcome.
Qed.

Lemma scheduleOutcome_skip r rest :
  withEvents r = false → rest ≠ [] → scheduleOutcome (r :: rest) = scheduleOutcome rest.
Proof.
  intros Hr Hrest. destruct rest as [|r' rest]; [done|].
  by rewrite scheduleOutcome_cons, Hr.
Qed.

Lemma scheduleOutcome_accept earlier data later :
  Forall (λ r, withEvents r = false) earlier →
  withEvents (Ok data) = true ∨ later = [] →
  scheduleOutcome (earlier ++ Ok data :: later) = Ok (Some data).
Proof.
  intros Hearlier Hdata. induction Hearlier as [|r earlier Hr _ IH].
  - rewrite app_nil_l. destruct later as [|r' later]; [done|].
    destruct Hdata as [Hdata|[=]]. by rewrite scheduleOutcome_cons, Hdata.
  - rewrite <- app_comm_cons, scheduleOutcome_skip; [done..|by destruct earlier].
Qed.

Lemma scheduleOutcome_Throw responses e :
  scheduleOutcome responses = Throw e ↔
  ∃ earlier, responses = earlier ++ [Throw e] ∧ Forall (λ r, withEvents r = false) earlier.
Proof.
  split.
  - induction responses as [|r rest IH]; [done|].
    destruct rest as [|r' rest].
    + destruct r as [d|e']; [done|]. intros [= ->]. by exists [].
    + rewrite scheduleOutcome_cons.
      destruct (withEvents r) eqn:Hr; [by destruct r|].
      intros Hrest. destruct (IH Hrest) as (earlier & Heq & Hearlier).
      exists (r :: earlier). split; [by rewrite Heq|by constructor].
  - intros (earlier & -> & Hearlier).
    induction Hearlier as [|r earlier Hr _ IH]; [done|].
    rewrite <- app_comm_cons, scheduleOutcome_skip; [done..|by destruct earlier].
Qed.

(** C5, as the code has it.  The club-schedule fetch goes through the
    responses of its endpoints in order.  It returns the first response
    that carries at least one event, or the response of the final endpoint
    when no earlier one carried events; it throws exactly when the final
    endpoint failed and no earlier response carried events, and what it
    throws is the error of the final endpoint; with no endpoint it returns
    null. *)
Theorem fetchTeamSchedule_outcome (w : World) (source : TeamSourceKey) :
  let responses := scheduleResponses w source in
  (∀ earlier data later,
     responses = earlier ++ Ok data :: later →
     Forall (λ r, withEvents r = false) earlier →
     withEvents (Ok data) = true ∨ later = [] →
     fetchTeamSchedule w source = Ok (Some data)) ∧
  (∀ e, fetchTeamSchedule w source = Throw e ↔
        ∃ earlier, responses = earlier ++ [Throw e] ∧
                   Forall (λ r, withEvents r = false) earlier) ∧
  (fetchTeamSchedule w source = Ok None ↔ responses = []).
Proof.
  intros responses. rewrite fetchTeamSchedule_scheduleOutcome. fold responses.
  split; [|split].
  - intros earlier data later -> Hearlier Hdata. by apply scheduleOutcome_accept.
  - intros e. apply scheduleOutcome_Throw.
  - split; [|by intros ->].
    induction responses as [|r rest IH]; [done|]. intros Hout. exfalso.
    destruct rest as [|r' rest]; [by destruct r|].
    rewrite scheduleOutcome_cons in Hout.
    destruct (withEvents r); [by destruct r|]. by specialize (IH Hout).
Qed.

(** *** The scoreboard adapter *)

Lemma failures_cons {A} (r : Result A) rest :
  failures (r :: rest) =
  match r with Ok _ => failures rest | Throw e => e :: failures rest end.
Proof. by destruct r. Qed.

Lemma fetchTeamScoreboardEvents_loop_spec fetchJson nowAt teamId index remaining
    aggregated lastError :
  let responses :=
    imap (λ n endpoint, fetchJson (buildSoccerScoreboardUrl (nowAt (index + n)%nat) endpoint))
      remaining in
  fetchTeamScoreboardEvents_loop fetchJson nowAt teamId index remaining aggregated lastError =
  (aggregated ++ concat (List.map (qualifying teamId) responses),
   match last (failures responses) with Some e => Some e | None => lastError end).
Proof.
  cbn zeta. revert index aggregated lastError.
  induction remaining as [|endpoint rest IH]; intros index aggregated lastError.
  - simpl. by rewrite app_nil_r.
  - rewrite imap_cons, Nat.add_0_r.
    assert (imap ((λ n endpoint0, fetchJson
                     (buildSoccerScoreboardUrl (nowAt (index + n)%nat) endpoint0)) ∘ S) rest
            = imap (λ n endpoint0, fetchJson
                     (buildSoccerScoreboardUrl (nowAt (S index + n)%nat) endpoint0)) rest)
      as ->.
    { apply imap_ext. intros n x _. simpl. by rewrite Nat.add_succ_r. }
    cbn [fetchTeamScoreboardEvents_loop List.map concat]. rewrite failures_cons.
    destruct (fetchJson _) as [data|e] eqn:Hfetch; rewrite IH.
    + cbn [qualifying]. by rewrite app_assoc.
    + cbn [qualifying]. rewrite app_nil_l, last_cons.
      by destruct (last (failures _)).
Qed.

Lemma fetchTeamScoreboardEvents_spec w source :
  fetchTeamScoreboardEvents w source =
  match collected w source, last (failures (scoreboardResponses w source)) with
  | [], Some e => Throw e
  | events, _ => Ok events
  end.
Proof.
  unfold fetchTeamScoreboardEvents, collected, scoreboardResponses.
  destruct (scoreboardEndpoints (TEAM_SOURCES source)) as [|endpoint rest]; [done|].
  rewrite fetchTeamScoreboardEvents_loop_spec. cbn zeta. rewrite app_nil_l.
  cbn [Nat.add]. destruct (concat _); [|done]. by destruct (last (failures _)).
Qed.

(** C4, as the code has it.  The club-scoreboard fetch throws exactly when
    no qualifying event was collected and at least one endpoint failed,
    and it throws the error of the last endpoint that failed; otherwise
    it returns the qualifying events of the endpoints that answered. *)
Theorem fetchTeamScoreboardEvents_outcome (w : World) (source : TeamSourceKey) :
  (∀ e, fetchTeamScoreboardEvents w source = Throw e ↔
        collected w source = [] ∧
        last (failures (scoreboardResponses w source)) = Some e) ∧
  (∀ events, fetchTeamScoreboardEvents w source = Ok events ↔
        events = collected w source ∧
        (collected w source ≠ [] ∨ failures (scoreboardResponses w source) = [])).
Proof.
  rewrite fetchTeamScoreboardEvents_spec.
  destruct (collected w source) as [|event events'] eqn:Hcollected;
    destruct (failures (scoreboardResponses w source)) as [|e0 es] eqn:Hfailures using rev_ind;
    rewrite ?last_snoc; simpl.
  - split; [intros e|intros events]; split.
    + done.
    + by intros [_ [=]].
    + intros [= <-]. split; [done|by right].
    + by intros [-> _].
  - clear IHes. split; [intros e|intros events]; split.
    + by intros [= ->].
    + by intros [_ [= ->]].
    + done.
    + intros [-> [?|Hnil]]; [done|]. by destruct es.
  - split; [intros e|intros events]; split.
    + done.
    + by intros [[=] _].
    + intros [= <-]. split; [done|by left].
    + by intros [-> _].
  - clear IHes. split; [intros e|intros events]; split.
    + done.
    + by intros [[=] _].
    + intros [= <-]. split; [done|by left].
    + by intros [-> _].
Qed.

End ClubAdapters.

(** ** Rows of the roster page *)

Section RosterRows.
Context {P : Platform}.

(** C9, as the code has it.  The esports-roster normalizer requires at
    least 7 cells: a row with fewer than 7 [td] cells pushes no event, and
    when it has passed the timestamp checks it is skipped, the set of
    seen ids unchanged. *)
Theorem roster_row_under_seven_cells (now : Z) (seen : list string) (row : HtmlRow.t) :
  (length (HtmlRow.cells row) < 7)%nat →
  (∀ seen' e, normalizeLegacyRow now seen row ≠ Ok (seen', Some e)) ∧
  (∀ startTimeUTC,
     rowStartTime (HtmlRow.dataTimestamp row) = Ok (Some startTimeUTC) →
     truthy startTimeUTC = true →
     isWithinWindow now startTimeUTC 18 3 = true →
     normalizeLegacyRow now seen row = Ok (seen, None)).
Proof.
  intros Hcells. split.
  - intros seen' e He. apply normalizeLegacyRow_pushed in He as [_ ?]. lia.
  - intros startTimeUTC Hstart Htruthy Hwindow. unfold normalizeLegacyRow.
    rewrite Hstart. cbn [bind].
    change LEGACY_RANGE_MONTHS_AHEAD with 18. change LEGACY_RANGE_MONTHS_BEHIND with 3.
    rewrite Htruthy, Hwindow. cbn [negb orb].
    by apply Nat.ltb_lt in Hcells as ->.
Qed.

End RosterRows.

(** ** Titles *)

Section Titles.
Context {P : Platform}.

Lemma chars_app a b : chars (a +:+ b) = chars a ++ chars b.
Proof. unfold chars. induction a as [|c a IH]; simpl; [done|]. by rewrite IH. Qed.

Lemma trimStart_chars_keeps l c :
  c ∈ l → isSpace c = false → c ∈ trimStart_chars l.
Proof.
  induction l as [|x l IH]; [done|]. intros Hin Hc. simpl.
  destruct (isSpace x) eqn:Hx; [|done].
  apply elem_of_cons in Hin as [->|Hin]; [congruence|by apply IH].
Qed.

Lemma trim_keeps s c : c ∈ chars s → isSpace c = false → trim s ≠ "".
Proof.
  intros Hin Hc. unfold trim, trimEnd_chars.
  assert (c ∈ rev (trimStart_chars (rev (trimStart_chars (chars s))))) as Hkept.
  { apply list_elem_of_In, in_rev. rewrite rev_involutive.
    apply list_elem_of_In, trimStart_chars_keeps; [|done].
    apply list_elem_of_In, in_rev. rewrite rev_involutive.
    by apply list_elem_of_In, trimStart_chars_keeps. }
  destruct (rev _) as [|x l]; [by apply elem_of_nil in Hkept|done].
Qed.

(** The title of a club fixture is never empty. *)
Lemma normalizeTeamEvent_title now source event e :
  normalizeTeamEvent now source event = Some e → title e ≠ "".
Proof.
  unfold normalizeTeamEvent.
  destruct (toISO _) as [startTime|]; [|done].
  destruct (negb (truthy startTime) || _); [done|].
  destruct (deriveResult _ _ _ _ _) as [r o]. intros [= <-]. simpl.
  destruct source.
  - apply (trim_keeps _ "M"%char); [|done]. rewrite chars_app. apply elem_of_app. left.
    simpl. by left.
  - apply (trim_keeps _ "L"%char); [|done]. rewrite chars_app. apply elem_of_app. left.
    simpl. by left.
Qed.

Lemma cleanText_truthy value s : cleanText value = Some s → truthy s = true.
Proof.
  unfold cleanText. destruct value as [v|]; [|done].
  destruct (negb (truthy v)); [done|].
  destruct (truthy (trim (collapseSpaces v))) eqn:Ht; [|done]. by intros [= <-].
Qed.

(** The title of a roster match is never empty. *)
Lemma normalizeLegacyRow_title now seen row seen' e :
  normalizeLegacyRow now seen row = Ok (seen', Some e) → title e ≠ "".
Proof.
  unfold normalizeLegacyRow.
  destruct (rowStartTime _) as [[startTime|]|]; simpl; [|done..].
  destruct (negb (truthy startTime) || _); [done|].
  destruct (length (HtmlRow.cells row) <? 7)%nat; [done|].
  destruct (rowUrl _) as [url|]; simpl; [|done].
  destruct (set_has seen _); [done|].
  intros [= _ <-]. simpl.
  destruct (cleanText (option_map HtmlCell.textContent (HtmlRow.cells row !! 7%nat)));
    [done|].
  destruct (cleanText (nullish _ _)) as [competition|] eqn:Hc; simpl; [|done].
  apply cleanText_truthy in Hc. by destruct competition.
Qed.

End Titles.

(** ** The aggregation and the read endpoint *)

Section Aggregation.
Context {P : Platform}.

Lemma getCalendarEvents_is_ok w : is_ok (getCalendarEvents w) = allSourcesOk w.
Proof.
  unfold getCalendarEvents, allSourcesOk. simpl.
  by destruct (fetchManchesterUnitedEvents w), (fetchLeedsUnitedEvents w),
    (fetchLegacyCs2Events w), (fetchUfcEvents w).
Qed.

(** C1, as the code has it.  When the fetch of any source throws, the
    aggregation call throws as well, and the read endpoint answers with
    status 500 and the generic error payload: a feed is returned only
    when all four sources have returned. *)
Theorem getCalendarEvents_all_or_nothing (w : World) :
  allSourcesOk w = false →
  is_ok (getCalendarEvents w) = false ∧
  response_status (GET w) = 500 ∧
  response_body (GET w) = ErrorPayload "Failed to load events".
Proof.
  intros Hfail. rewrite <- getCalendarEvents_is_ok in Hfail.
  unfold GET. by destruct (getCalendarEvents w).
Qed.


(** The public record keeps the eight public fields as they are. *)
Lemma publicFields_keeps event :
  public_id (publicFields event) = id event ∧
  public_source (publicFields event) = source event ∧
  public_title (publicFields event) = title event ∧
  public_competition (publicFields event) = competition event ∧
  public_fighters (publicFields event) = fighters event ∧
  public_startTimeUTC (publicFields event) = startTimeUTC event ∧
  public_result (publicFields event) = result event ∧
  public_outcome (publicFields event) = outcome event.
Proof. done. Qed.

(** The public record keeps the [url] of the event as well. *)
Lemma publicFields_url event : public_url (publicFields event) = url event.
Proof. done. Qed.

End Aggregation.

(** ** Identifiers and the make-up of the feed *)

Section FeedIds.
Context {P : Platform}.

Lemma set_has_add s k k' :
  set_has (set_add s k) k' = set_has s k' || String.eqb k' k.
Proof.
  unfold set_add. destruct (set_has s k) eqn:Hk.
  - destruct (String.eqb_spec k' k) as [->|]; [by rewrite Hk|by rewrite orb_false_r].
  - unfold set_has. rewrite existsb_app. simpl. by rewrite orb_false_r.
Qed.

Lemma append_inv_head (p a b : string) : p +:+ a = p +:+ b → a = b.
Proof. induction p as [|c p IH]; simpl; [done|]. intros [= ?]. by apply IH. Qed.

Lemma normalizeTeamEvent_tag now team event e :
  normalizeTeamEvent now team event = Some e →
  source e = calendarSource team ∧
  id e = sourceName (calendarSource team) +:+ "-" +:+
         nullish_or (TeamEvent.id event) (startTimeUTC e).
Proof.
  unfold normalizeTeamEvent.
  destruct (toISO _) as [startTime|]; [|done].
  destruct (negb (truthy startTime) || _); [done|].
  destruct (deriveResult _ _ _ _ _) as [r o]. by intros [= <-].
Qed.

(** One turn of the combat-sports loop: the set of seen ids only grows,
    and an event is pushed only for an id that was not seen, which is seen
    from then on. *)
Lemma normalizeUfcEvent_step now seen event seen' pushed :
  normalizeUfcEvent now seen event = (seen', pushed) →
  (∀ k, set_has seen k = true → set_has seen' k = true) ∧
  (∀ e, pushed = Some e →
     ∃ k, UfcEvent.id event = Some k ∧ id e = "UFC-" +:+ k ∧ source e = UFC ∧
          set_has seen k = false ∧ set_has seen' k = true).
Proof.
  unfold normalizeUfcEvent.
  destruct (UfcEvent.id event) as [event_id|]; [|by intros [= <- <-]].
  destruct (negb (truthy event_id) || set_has seen event_id) eqn:Hskip;
    [by intros [= <- <-]|].
  apply orb_false_iff in Hskip as [_ Hseen].
  assert (∀ k, set_has seen k = true → set_has (set_add seen event_id) k = true) as Hgrow.
  { intros k Hk. by rewrite set_has_add, Hk. }
  assert (set_has (set_add seen event_id) event_id = true) as Hadded.
  { by rewrite set_has_add, String.eqb_refl, orb_true_r. }
  destruct (toISO _) as [startTime|]; [|by intros [= <- <-]].
  destruct (negb (truthy startTime) || _); [by intros [= <- <-]|].
  intros [= <- <-]. split; [done|]. intros e [= <-]. by exists event_id.
Qed.

Lemma normalizeUfcEvents_from_ids nowAt index seen events :
  NoDup (List.map id (normalizeUfcEvents_from nowAt index seen events)) ∧
  ∀ e, e ∈ normalizeUfcEvents_from nowAt index seen events →
       source e = UFC ∧ ∃ k, id e = "UFC-" +:+ k ∧ set_has seen k = false.
Proof.
  revert index seen. induction events as [|event rest IH]; intros index seen; simpl.
  - split; [constructor|]. by intros e ?%elem_of_nil.
  - destruct (normalizeUfcEvent (nowAt index) seen event) as [seen' pushed] eqn:Hstep.
    destruct (normalizeUfcEvent_step _ _ _ _ _ Hstep) as [Hgrow Hpushed].
    destruct (IH (S index) seen') as [Hnodup Htail].
    assert (∀ e, e ∈ normalizeUfcEvents_from nowAt (S index) seen' rest →
                 source e = UFC ∧ ∃ k, id e = "UFC-" +:+ k ∧ set_has seen k = false)
      as Htail'.
    { intros e He. destruct (Htail e He) as (? & k & ? & Hk). split; [done|].
      exists k. split; [done|]. destruct (set_has seen k) eqn:Hsk; [|done].
      by rewrite (Hgrow k Hsk) in Hk. }
    destruct pushed as [e0|]; [|done].
    destruct (Hpushed e0 eq_refl) as (k0 & _ & Hid0 & Hsrc0 & Hnew & Hnow).
    split.
    + simpl. apply NoDup_cons. split; [|done].
      intros Hin. apply list_elem_of_In, in_map_iff in Hin as (e & Heq & He).
      apply list_elem_of_In, Htail in He as (_ & k & Hidk & Hk).
      rewrite Hid0, Hidk in Heq. apply append_inv_head in Heq as ->. congruence.
    + intros e [->|He]%elem_of_cons; [|by apply Htail'].
      split; [done|]. by exists k0.
Qed.

(** One turn of the roster loop, when it pushes an event: the id of the
    event was not seen and is seen from then on. *)
Lemma normalizeLegacyRow_step now seen row seen' pushed :
  normalizeLegacyRow now seen row = Ok (seen', pushed) →
  (∀ k, set_has seen k = true → set_has seen' k = true) ∧
  (∀ e, pushed = Some e →
     source e = LEGACY_CS2 ∧
     id e = "LEGACY_CS2-" +:+
            nullish_or (HtmlRow.dataTimestamp row)
              (nullish_or (competition e) "match" +:+ "-" +:+
               nullish_or (cleanText (option_map HtmlCell.textContent
                                        (HtmlRow.cells row !! 7%nat))) "opponent") ∧
     set_has seen (id e) = false ∧ set_has seen' (id e) = true).
Proof.
  unfold normalizeLegacyRow.
  destruct (rowStartTime _) as [[startTime|]|]; simpl; [|by intros [= <- <-]|done].
  destruct (negb (truthy startTime) || _); [by intros [= <- <-]|].
  destruct (length (HtmlRow.cells row) <? 7)%nat; [by intros [= <- <-]|].
  destruct (rowUrl _) as [url|]; simpl; [|done].
  destruct (set_has seen _) eqn:Hseen; [by intros [= <- <-]|].
  intros [= <- <-]. split.
  - intros k Hk. by rewrite set_has_add, Hk.
  - intros e [= <-]. simpl. split; [done|]. split; [done|]. split; [done|].
    by rewrite set_has_add, String.eqb_refl, orb_true_r.
Qed.

Lemma normalizeLegacyRows_from_ids nowAt index seen rows events :
  normalizeLegacyRows_from nowAt index seen rows = Ok events →
  NoDup (List.map id events) ∧
  ∀ e, e ∈ events →
       source e = LEGACY_CS2 ∧ (∃ key, id e = "LEGACY_CS2-" +:+ key) ∧
       set_has seen (id e) = false.
Proof.
  revert index seen events.
  induction rows as [|row rest IH]; intros index seen events; simpl.
  - intros [= <-]. split; [constructor|]. by intros e ?%elem_of_nil.
  - destruct (normalizeLegacyRow (nowAt index) seen row)
      as [[seen' pushed]|] eqn:Hrow; simpl; [|done].
    destruct (normalizeLegacyRows_from nowAt (S index) seen' rest)
      as [events'|] eqn:Hrest; simpl; [|done].
    intros [= <-].
    destruct (normalizeLegacyRow_step _ _ _ _ _ Hrow) as [Hgrow Hpushed].
    destruct (IH _ _ _ Hrest) as [Hnodup Htail].
    assert (∀ e, e ∈ events' →
                 source e = LEGACY_CS2 ∧ (∃ key, id e = "LEGACY_CS2-" +:+ key) ∧
                 set_has seen (id e) = false) as Htail'.
    { intros e He. destruct (Htail e He) as (? & ? & Hk). split; [done|]. split; [done|].
      destruct (set_has seen (id e)) eqn:Hsk; [|done].
      by rewrite (Hgrow _ Hsk) in Hk. }
    destruct pushed as [e0|]; [|done].
    destruct (Hpushed e0 eq_refl) as (Hsrc0 & Hid0 & Hnew & Hnow).
    split.
    + simpl. apply NoDup_cons. split; [|done].
      intros Hin. apply list_elem_of_In, in_map_iff in Hin as (e & Heq & He).
      apply list_elem_of_In, Htail in He as (_ & _ & Hk). congruence.
    + intros e [->|He]%elem_of_cons; [|by apply Htail'].
      split; [done|]. split; [by eexists|done].
Qed.

Lemma mergeAndSortEvents_NoDup sources : NoDup (List.map id (mergeAndSortEvents sources)).
Proof.
  rewrite mergeAndSortEvents_dedupe.
  destruct (dedupe_keyedById (concat sources) []) as [Hnd Hid].
  { split; [constructor|by intros ? ? ?%elem_of_nil]. }
  enough (List.map id (map_values (dedupe (concat sources) []))
          = List.map fst (dedupe (concat sources) [])) as -> by done.
  unfold map_values. rewrite List.map_map. apply map_ext_in.
  intros [k e] Hin%list_elem_of_In. simpl. by apply Hid.
Qed.

Lemma elem_of_mergeAndSortEvents_source sources e :
  e ∈ mergeAndSortEvents sources → ∃ l, l ∈ sources ∧ e ∈ l.
Proof.
  intros Hin. apply elem_of_mergeAndSortEvents, lastWithId_Some in Hin as [Hin _].
  apply list_elem_of_In, in_concat in Hin as (l & Hl & Hel).
  exists l. split; by apply list_elem_of_In.
Qed.

Lemma normalizeTeamEvents_tag nowAt events team e :
  e ∈ normalizeTeamEvents nowAt events team →
  source e = calendarSource team ∧ carriesSource e.
Proof.
  unfold normalizeTeamEvents.
  intros (n & event & _ & He)%normalizeTeamEvents_from_inv.
  apply normalizeTeamEvent_tag in He as [Hsrc Hid]. split; [done|].
  eexists. by rewrite Hsrc.
Qed.

(** What a club's fetch returns: distinct ids, every event of that club. *)
Lemma fetchTeamEvents_ids w team events :
  fetchTeamEvents w team = Ok events →
  NoDup (List.map id events) ∧
  ∀ e, e ∈ events → source e = calendarSource team ∧ carriesSource e.
Proof.
  unfold fetchTeamEvents.
  destruct (Promise_all2 _ _) as [[schedule scoreboardEvents]|]; simpl; [|done].
  intros [= <-]. split; [apply mergeAndSortEvents_NoDup|].
  intros e (l & Hl & He)%elem_of_mergeAndSortEvents_source.
  apply elem_of_cons in Hl as [->|Hl]; [by eapply normalizeTeamEvents_tag|].
  apply list_elem_of_singleton in Hl as ->. by eapply normalizeTeamEvents_tag.
Qed.

Lemma fetchUfcEvents_ids w events :
  fetchUfcEvents w = Ok events →
  NoDup (List.map id events) ∧ ∀ e, e ∈ events → source e = UFC ∧ carriesSource e.
Proof.
  unfold fetchUfcEvents. destruct (fetchJson_ufc _ _) as [data|]; simpl; [|done].
  intros [= <-]. unfold normalizeUfcEvents.
  destruct (normalizeUfcEvents_from_ids (clock w NormalizeUfc) 0 []
              (nullish_or (ufc_events data) [])) as [Hnodup Hall].
  split; [done|]. intros e He. destruct (Hall e He) as (Hsrc & k & Hid & _).
  split; [done|]. exists k. by rewrite Hsrc.
Qed.

Lemma fetchLegacyCs2Events_ids w events :
  fetchLegacyCs2Events w = Ok events →
  NoDup (List.map id events) ∧
  ∀ e, e ∈ events → source e = LEGACY_CS2 ∧ carriesSource e.
Proof.
  assert (NoDup (List.map id (@nil CalendarEventWithMeta)) ∧
          ∀ e, e ∈ @nil CalendarEventWithMeta → source e = LEGACY_CS2 ∧ carriesSource e)
    as Hnil.
  { split; [constructor|]. by intros e ?%elem_of_nil. }
  unfold fetchLegacyCs2Events.
  destruct (fetchJson_liquipedia _ _) as [data|]; simpl; [|done].
  destruct (parse_text data) as [html|]; [|by intros [= <-]].
  destruct (negb (truthy html)); [by intros [= <-]|].
  unfold normalizeLegacyCs2Matches. intros Hrun.
  destruct (normalizeLegacyRows_from_ids _ _ _ _ _ Hrun) as [Hnodup Hall].
  split; [done|]. intros e He. destruct (Hall e He) as (Hsrc & [key Hid] & _).
  split; [done|]. exists key. by rewrite Hsrc.
Qed.

(** Two events whose ids carry their sources and are equal have the same
    source. *)
Lemma carriesSource_inj e1 e2 :
  carriesSource e1 → carriesSource e2 → id e1 = id e2 → source e1 = source e2.
Proof.
  intros [k1 H1] [k2 H2] Heq. rewrite H1, H2 in Heq.
  destruct (source e1), (source e2); simpl in Heq; done.
Qed.

Lemma NoDup_ids_app (l1 l2 : list CalendarEventWithMeta) :
  NoDup (List.map id l1) → NoDup (List.map id l2) →
  (∀ e1 e2, e1 ∈ l1 → e2 ∈ l2 → id e1 ≠ id e2) →
  NoDup (List.map id (l1 ++ l2)).
Proof.
  intros H1 H2 Hdisjoint. rewrite map_app. apply NoDup_app. split; [done|].
  split; [|done]. intros k Hk1 Hk2.
  apply list_elem_of_In, in_map_iff in Hk1 as (e1 & <- & He1).
  apply list_elem_of_In, in_map_iff in Hk2 as (e2 & Heq & He2).
  eapply Hdisjoint; [by apply list_elem_of_In..|done].
Qed.

Lemma getCalendarEvents_ids w feed :
  getCalendarEvents w = Ok feed →
  NoDup (List.map id feed) ∧ ∀ e, e ∈ feed → carriesSource e.
Proof.
  intros (a & b & c & d & Ha & Hb & Hc & Hd & ->)%getCalendarEvents_Ok.
  apply fetchTeamEvents_ids in Ha as [Hna Ha], Hb as [Hnb Hb].
  apply fetchLegacyCs2Events_ids in Hc as [Hnc Hc].
  apply fetchUfcEvents_ids in Hd as [Hnd Hd].
  assert (∀ s1 s2 (l1 l2 : list CalendarEventWithMeta),
            s1 ≠ s2 →
            (∀ e, e ∈ l1 → source e = s1 ∧ carriesSource e) →
            (∀ e, e ∈ l2 → source e = s2 ∧ carriesSource e) →
            ∀ e1 e2, e1 ∈ l1 → e2 ∈ l2 → id e1 ≠ id e2) as Hapart.
  { intros s1 s2 l1 l2 Hne H1 H2 e1 e2 He1 He2 Heq.
    destruct (H1 e1 He1) as [<- ?], (H2 e2 He2) as [<- ?].
    by apply Hne, carriesSource_inj. }
  unfold sortEvents. split.
  - rewrite sort_perm.
    apply NoDup_ids_app; [done| |].
    + apply NoDup_ids_app; [done| |].
      * apply NoDup_ids_app; [done..|].
        exact (Hapart LEGACY_CS2 UFC c d ltac:(discriminate) Hc Hd).
      * intros e1 e2 He1 [He2|He2]%elem_of_app.
        -- exact (Hapart LEEDS_UNITED LEGACY_CS2 b c ltac:(discriminate) Hb Hc e1 e2 He1 He2).
        -- exact (Hapart LEEDS_UNITED UFC b d ltac:(discriminate) Hb Hd e1 e2 He1 He2).
    + intros e1 e2 He1 [He2|[He2|He2]%elem_of_app]%elem_of_app.
      * exact (Hapart MANCHESTER_UNITED LEEDS_UNITED a b ltac:(discriminate) Ha Hb e1 e2 He1 He2).
      * exact (Hapart MANCHESTER_UNITED LEGACY_CS2 a c ltac:(discriminate) Ha Hc e1 e2 He1 He2).
      * exact (Hapart MANCHESTER_UNITED UFC a d ltac:(discriminate) Ha Hd e1 e2 He1 He2).
  - intros e. rewrite sort_perm, !elem_of_app.
    intros [He|[He|[He|He]]]; [by apply Ha|by apply Hb|by apply Hc|by apply Hd].
Qed.

(** X1.  Every event of the feed has an id made of the name of its source,
    a hyphen and a key, and no two events of the feed share an id. *)
Theorem feed_ids_unique (w : World) (feed : list CalendarEventWithMeta) :
  getCalendarEvents w = Ok feed →
  NoDup (List.map id feed) ∧ ∀ e, e ∈ feed → carriesSource e.
Proof. apply getCalendarEvents_ids. Qed.

(** X2.  The feed holds exactly the events the four fetch functions
    returned, each as often as they returned it: it is a permutation of
    their lists put end to end. *)
Theorem feed_is_permutation_of_sources (w : World)
    (manUnited leeds legacyCs2 ufc : list CalendarEventWithMeta) :
  fetchManchesterUnitedEvents w = Ok manUnited →
  fetchLeedsUnitedEvents w = Ok leeds →
  fetchLegacyCs2Events w = Ok legacyCs2 →
  fetchUfcEvents w = Ok ufc →
  ∃ feed, getCalendarEvents w = Ok feed ∧
          feed ≡ₚ manUnited ++ leeds ++ legacyCs2 ++ ufc.
Proof.
  intros Ha Hb Hc Hd. exists (sortEvents (manUnited ++ leeds ++ legacyCs2 ++ ufc)).
  split; [|apply sort_perm].
  apply getCalendarEvents_Ok. by exists manUnited, leeds, legacyCs2, ufc.
Qed.

End FeedIds.

(** ** The main competition of a card *)

Section MainCompetition.

Lemma fold_lowest_rank others first :
  let best :=
    fold_left (λ best current, if ufcRank current <? ufcRank best then current else best)
      others first in
  best ∈ first :: others ∧ ∀ c, c ∈ first :: others → ufcRank best <= ufcRank c.
Proof.
  cbn zeta. revert first. induction others as [|c others IH]; intros first; simpl.
  - split; [by left|]. intros c [->|?%elem_of_nil]%elem_of_cons; [lia|done].
  - destruct (IH (if ufcRank c <? ufcRank first then c else first)) as [Hin Hmin].
    split.
    + apply elem_of_cons in Hin as [Hin|Hin]; [|by right; right].
      rewrite Hin. destruct (ufcRank c <? ufcRank first); [right; by left|by left].
    + intros c' Hc'.
      assert (ufcRank (if ufcRank c <? ufcRank first then c else first) <= ufcRank first ∧
              ufcRank (if ufcRank c <? ufcRank first then c else first) <= ufcRank c)
        as [Hfirst Hc].
      { destruct (Z.ltb_spec (ufcRank c) (ufcRank first)); lia. }
      pose proof (Hmin _ (list_elem_of_here _ _)) as Hhead.
      apply elem_of_cons in Hc' as [->|[->|Hc']%elem_of_cons]; [lia|lia|].
      apply Hmin. by right.
Qed.

(** X3.  [pickMainUfcCompetition] returns nothing exactly when the card
    lists no competition.  Otherwise it returns one of the listed
    competitions: when some are of the main card it is one of those, with
    the lowest match number among them; when none is, it has the lowest
    match number of all (a missing match number counting as 100). *)
Theorem pickMainUfcCompetition_spec (competitions : option (list UfcCompetition.t)) :
  match pickMainUfcCompetition competitions with
  | None => competitions = None ∨ competitions = Some []
  | Some c =>
      ∃ l, competitions = Some l ∧ c ∈ l ∧
        ((∃ m, m ∈ l ∧ isMainCard m = true) →
           isMainCard c = true ∧
           ∀ m, m ∈ l → isMainCard m = true → ufcRank c <= ufcRank m) ∧
        ((∀ m, m ∈ l → isMainCard m = false) →
           ∀ m, m ∈ l → ufcRank c <= ufcRank m)
  end.
Proof.
  destruct competitions as [[|c0 l0]|]; simpl; [by right| |by left].
  set (l := c0 :: l0).
  change (if isMainCard c0 then c0 :: List.filter isMainCard l0
          else List.filter isMainCard l0) with (List.filter isMainCard l).
  destruct (List.filter isMainCard l) as [|m0 mains] eqn:Hmains.
  - destruct (fold_lowest_rank l0 c0) as [Hin Hmin].
    exists l. split; [done|]. split; [done|]. split.
    + intros (m & Hm & Hmain). exfalso.
      assert (m ∈ List.filter isMainCard l) as Hfm
        by by apply list_elem_of_In, filter_In; split; [apply list_elem_of_In|].
      rewrite Hmains in Hfm. by apply elem_of_nil in Hfm.
    + intros _. exact Hmin.
  - destruct (fold_lowest_rank mains m0) as [Hin Hmin].
    rewrite <- Hmains in Hin, Hmin.
    apply list_elem_of_In, filter_In in Hin as [Hin Hmain]. apply list_elem_of_In in Hin.
    exists l. split; [done|]. split; [done|]. split.
    + intros _. split; [done|]. intros m Hm Hmmain. apply Hmin.
      by apply list_elem_of_In, filter_In; split; [apply list_elem_of_In|].
    + intros Hnone. by rewrite (Hnone _ Hin) in Hmain.
Qed.

End MainCompetition.

(** ** Where the fields of an event come from *)

Section Provenance.
Context {P : Platform}.

Lemma toISO_Some dateString iso :
  toISO dateString = Some iso →
  ∃ s t, dateString = Some s ∧ parseDate s = Some t ∧ iso = toISOString t.
Proof.
  unfold toISO. destruct dateString as [s|]; [|done].
  destruct (negb (truthy s)); [done|].
  destruct (parseDate s) as [t|] eqn:Ht; [|done].
  intros [= <-]. by exists s, t.
Qed.

Lemma normalizeTeamEvent_start now team event e :
  normalizeTeamEvent now team event = Some e →
  toISO (fixtureDate event) = Some (startTimeUTC e).
Proof.
  unfold normalizeTeamEvent.
  change (nullish _ (TeamEvent.date event)) with (fixtureDate event).
  destruct (toISO (fixtureDate event)) as [startTime|]; [|done].
  destruct (negb (truthy startTime) || _); [done|].
  destruct (deriveResult _ _ _ _ _) as [r o]. by intros [= <-].
Qed.

(** X4.  Every event of the club normalizer comes from a record of the
    payload: its source is the club, its start time is the ISO form of the
    date of the record's first competition (of the record itself when the
    competition has none), and its id is the club's source name, a hyphen
    and the provider id of the record, the start time standing in for a
    missing provider id. *)
Theorem normalizeTeamEvents_provenance (nowAt : nat → Z)
    (events : option (list TeamEvent.t)) (team : TeamSourceKey)
    (e : CalendarEventWithMeta) :
  e ∈ normalizeTeamEvents nowAt events team →
  ∃ event s t,
    event ∈ nullish_or events [] ∧
    fixtureDate event = Some s ∧ parseDate s = Some t ∧
    startTimeUTC e = toISOString t ∧
    source e = calendarSource team ∧
    id e = sourceName (calendarSource team) +:+ "-" +:+
           nullish_or (TeamEvent.id event) (toISOString t).
Proof.
  unfold normalizeTeamEvents.
  intros (n & event & Hin & He)%normalizeTeamEvents_from_inv.
  destruct (toISO_Some _ _ (normalizeTeamEvent_start _ _ _ _ He)) as (s & t & Hs & Ht & Hiso).
  apply normalizeTeamEvent_tag in He as [Hsrc Hid].
  exists event, s, t. rewrite <- Hiso. done.
Qed.

Lemma normalizeUfcEvent_pushed now seen event seen' e :
  normalizeUfcEvent now seen event = (seen', Some e) →
  toISO (cardDate event) = Some (startTimeUTC e) ∧
  ∃ k, UfcEvent.id event = Some k ∧ k ≠ "" ∧ id e = "UFC-" +:+ k.
Proof.
  unfold normalizeUfcEvent.
  destruct (UfcEvent.id event) as [event_id|]; [|done].
  destruct (negb (truthy event_id) || _) eqn:Hskip; [done|].
  apply orb_false_iff in Hskip as [Htruthy _]. apply negb_false_iff in Htruthy.
  change (nullish (UfcEvent.date event) _) with (cardDate event).
  destruct (toISO (cardDate event)) as [startTime|]; [|done].
  destruct (negb (truthy startTime) || _); [done|].
  intros [= _ <-]. split; [done|]. exists event_id. split; [done|].
  split; [by destruct event_id|done].
Qed.

(** An entry with a non-empty id leaves that id in the set of seen ids. *)
Lemma normalizeUfcEvent_marks now seen event k :
  UfcEvent.id event = Some k → k ≠ "" →
  set_has (normalizeUfcEvent now seen event).1 k = true.
Proof.
  intros Hid Hk. unfold normalizeUfcEvent. rewrite Hid.
  replace (truthy k) with true by by destruct k. cbn [negb orb].
  destruct (set_has seen k) eqn:Hseen; [done|].
  assert (set_has (set_add seen k) k = true) as Hadded
    by by rewrite set_has_add, String.eqb_refl, orb_true_r.
  destruct (toISO _) as [startTime|]; [|done].
  by destruct (negb (truthy startTime) || _).
Qed.

Lemma normalizeUfcEvents_from_first nowAt index seen events e :
  e ∈ normalizeUfcEvents_from nowAt index seen events →
  ∃ i event k,
    events !! i = Some event ∧ UfcEvent.id event = Some k ∧ k ≠ "" ∧
    id e = "UFC-" +:+ k ∧ set_has seen k = false ∧
    toISO (cardDate event) = Some (startTimeUTC e) ∧
    ∀ j event', (j < i)%nat → events !! j = Some event' → UfcEvent.id event' ≠ Some k.
Proof.
  revert index seen. induction events as [|event rest IH]; intros index seen; simpl.
  - by intros ?%elem_of_nil.
  - destruct (normalizeUfcEvent (nowAt index) seen event) as [seen' pushed] eqn:Hstep.
    destruct (normalizeUfcEvent_step _ _ _ _ _ Hstep) as [Hgrow Hpushed].
    match goal with |- _ → ?G =>
      assert (e ∈ normalizeUfcEvents_from nowAt (S index) seen' rest → G) as Htail
    end.
    { intros (i & ev & k & Hi & Hid & Hk & Hide & Hnew & Hdate & Hfirst)%IH.
      exists (S i), ev, k. repeat split; try done.
      - destruct (set_has seen k) eqn:Hsk; [|done]. by rewrite (Hgrow k Hsk) in Hnew.
      - intros [|j] event' Hj; simpl.
        + intros [= <-] Hid'.
          pose proof (normalizeUfcEvent_marks (nowAt index) seen event k Hid' Hk) as Hmark.
          rewrite Hstep in Hmark. simpl in Hmark. congruence.
        + apply Hfirst. lia. }
    destruct pushed as [e0|]; [|exact Htail].
    intros [->|He]%elem_of_cons; [|by apply Htail].
    destruct (normalizeUfcEvent_pushed _ _ _ _ _ Hstep) as (Hdate & k & Hid & Hk & Hide).
    destruct (Hpushed e0 eq_refl) as (k' & Hid' & _ & _ & Hnew & _).
    rewrite Hid in Hid'. injection Hid' as <-.
    exists 0%nat, event, k. repeat split; try done. intros j event' Hj. lia.
Qed.

(** X5.  Every event of the combat-sports normalizer comes from the first
    entry of the payload that carries its provider id: no earlier entry
    has that id, so a later entry with an id already met never yields an
    event.  The id of the event is ["UFC-"] and the provider id, which is
    not empty, and its start time is the ISO form of the date of the
    entry (of its main competition when the entry has none). *)
Theorem normalizeUfcEvents_first_occurrence (nowAt : nat → Z) (data : RawUfcScoreboard)
    (e : CalendarEventWithMeta) :
  e ∈ normalizeUfcEvents nowAt data →
  ∃ i event k s t,
    nullish_or (ufc_events data) [] !! i = Some event ∧
    UfcEvent.id event = Some k ∧ k ≠ "" ∧
    id e = "UFC-" +:+ k ∧
    cardDate event = Some s ∧ parseDate s = Some t ∧ startTimeUTC e = toISOString t ∧
    ∀ j event', (j < i)%nat → nullish_or (ufc_events data) [] !! j = Some event' →
                UfcEvent.id event' ≠ Some k.
Proof.
  unfold normalizeUfcEvents.
  intros (i & event & k & Hi & Hid & Hk & Hide & _ & Hdate & Hfirst)%normalizeUfcEvents_from_first.
  destruct (toISO_Some _ _ Hdate) as (s & t & Hs & Ht & Hiso).
  by exists i, event, k, s, t.
Qed.

(** X6.  Within one run of the combat-sports normalizer, and within one
    run of the roster normalizer that returns, no two events share an
    id. *)
Theorem normalizer_ids_unique (nowAt : nat → Z) (run : NormalizerRun)
    (events : list CalendarEventWithMeta) :
  produced nowAt run = Ok events →
  (∀ raw team, run ≠ ClubRun raw team) →
  NoDup (List.map id events).
Proof.
  intros Hrun Hnot. destruct run as [raw team|data|html]; simpl in Hrun.
  - by destruct (Hnot raw team).
  - injection Hrun as <-. apply normalizeUfcEvents_from_ids.
  - by apply normalizeLegacyRows_from_ids in Hrun as [? _].
Qed.

(** A row that pushes an event: the timestamp attribute holds a number,
    the id is made of the attribute and the start time of the number. *)
Lemma normalizeLegacyRow_provenance now seen row seen' e :
  normalizeLegacyRow now seen row = Ok (seen', Some e) →
  ∃ a ts, HtmlRow.dataTimestamp row = Some a ∧ parseInt a = Some ts ∧
          id e = "LEGACY_CS2-" +:+ a ∧ startTimeUTC e = toISOString (ts * 1000) ∧
          source e = LEGACY_CS2.
Proof.
  unfold normalizeLegacyRow, rowStartTime.
  destruct (HtmlRow.dataTimestamp row) as [a|]; [|done].
  destruct (truthy a); [|done].
  destruct (parseInt a) as [ts|] eqn:Hts; [|done].
  destruct (validTime (ts * 1000)); [|done]. cbn [bind].
  destruct (negb (truthy _) || _); [done|].
  destruct (length (HtmlRow.cells row) <? 7)%nat; [done|].
  destruct (rowUrl _) as [url|]; simpl; [|done].
  destruct (set_has seen _); [done|].
  intros [= _ <-]. by exists a, ts.
Qed.

(** X7.  Every event of the roster normalizer comes from a match row of
    the page whose timestamp attribute holds a number of seconds: the
    start time of the event is the ISO form of that instant, and its id is
    ["LEGACY_CS2-"] and the text of the attribute, never the composite of
    tournament and opponent. *)
Theorem normalizeLegacyCs2Matches_provenance (nowAt : nat → Z) (html : string)
    (events : list CalendarEventWithMeta) (e : CalendarEventWithMeta) :
  normalizeLegacyCs2Matches nowAt html = Ok events →
  e ∈ events →
  ∃ row a ts,
    row ∈ querySelectorAll_tr html ∧ isMatchRow row = true ∧
    HtmlRow.dataTimestamp row = Some a ∧ parseInt a = Some ts ∧
    id e = "LEGACY_CS2-" +:+ a ∧
    startTimeUTC e = toISOString (ts * 1000) ∧
    source e = LEGACY_CS2.
Proof.
  unfold normalizeLegacyCs2Matches. intros Hrun Hin.
  destruct (normalizeLegacyRows_from_inv _ _ _ _ _ _ Hrun Hin)
    as (n & s0 & s1 & row & Hrow & He).
  apply list_elem_of_In, filter_In in Hrow as [Hrow Hmatch].
  destruct (normalizeLegacyRow_provenance _ _ _ _ _ He) as (a & ts & ? & ? & ? & ? & ?).
  exists row, a, ts. split; [by apply list_elem_of_In|done].
Qed.

End Provenance.

(** ** Rows that make the roster normalizer throw *)

Section RosterErrors.
Context {P : Platform}.

Lemma rowStartTime_attr a :
  rowStartTime (Some a) =
  match parseInt a with
  | None => Ok None
  | Some ts =>
      if validTime (ts * 1000) then Ok (Some (toISOString (ts * 1000)))
      else Throw "RangeError: Invalid time value"
  end.
Proof. by destruct a. Qed.

(** X8.  One turn of the roster loop throws in two cases only, whatever
    ids have been seen: a [RangeError] when the timestamp attribute holds
    a number of seconds beyond the range of [Date], and a [TypeError]
    when the row has passed the timestamp and cell-count checks and the
    link of its tournament cell has a non-empty [href] that [URL] cannot
    resolve. *)
Theorem normalizeLegacyRow_throws (now : Z) (seen : list string) (row : HtmlRow.t)
    (err : Error) :
  normalizeLegacyRow now seen row = Throw err ↔
  (∃ a ts, HtmlRow.dataTimestamp row = Some a ∧ parseInt a = Some ts ∧
           validTime (ts * 1000) = false ∧
           err = "RangeError: Invalid time value") ∨
  (∃ a ts link h,
      HtmlRow.dataTimestamp row = Some a ∧ parseInt a = Some ts ∧
      validTime (ts * 1000) = true ∧
      toISOString (ts * 1000) ≠ "" ∧
      isWithinWindow now (toISOString (ts * 1000)) 18 3 = true ∧
      (7 <= length (HtmlRow.cells row))%nat ∧
      HtmlRow.cells row !! 5%nat?.HtmlCell.a = Some link ∧
      HtmlLink.href link = Some h ∧ h ≠ "" ∧ resolveUrl h = None ∧
      err = "TypeError: Invalid URL").
Proof.
  unfold normalizeLegacyRow.
  destruct (HtmlRow.dataTimestamp row) as [a|]; cycle 1.
  { split; [done|]. by intros [(? & ? & [=] & _)|(? & ? & ? & ? & [=] & _)]. }
  rewrite rowStartTime_attr.
  destruct (parseInt a) as [ts|] eqn:Hts; cycle 1.
  { split; [done|]. intros [(? & ? & [= <-] & ? & _)|(? & ? & ? & ? & [= <-] & ? & _)];
      congruence. }
  destruct (validTime (ts * 1000)) eqn:Hvalid; cbn [bind]; cycle 1.
  { split.
    - intros [= <-]. left. by exists a, ts.
    - intros [(? & ? & _ & _ & _ & ->)|(a' & ts' & ? & ? & [= <-] & Hts' & Hv & _)];
        [done|]. congruence. }
  change LEGACY_RANGE_MONTHS_AHEAD with 18. change LEGACY_RANGE_MONTHS_BEHIND with 3.
  assert (∀ Q : Prop, (∃ a' ts', Some a = Some a' ∧ Some ts = Some ts' ∧
             true = false ∧ Q) → False) as Hnot_range
    by by intros Q (? & ? & _ & _ & [=] & _).
  destruct (truthy (toISOString (ts * 1000))) eqn:Htruthy; cbn [negb orb]; cycle 1.
  { split; [done|]. intros [(? & ? & [= <-] & Hts' & Hv & _)|
                            (? & ? & ? & ? & [= <-] & Hts' & _ & Hne & _)].
    - rewrite Hts in Hts'. injection Hts' as <-. congruence.
    - rewrite Hts in Hts'. injection Hts' as <-. by destruct (toISOString (ts * 1000)). }
  destruct (isWithinWindow now (toISOString (ts * 1000)) 18 3) eqn:Hwin; cbn [negb]; cycle 1.
  { split; [done|]. intros [(? & ? & [= <-] & Hts' & Hv & _)|
                            (? & ? & ? & ? & [= <-] & Hts' & _ & _ & Hw & _)];
      rewrite Hts in Hts'; injection Hts' as <-; congruence. }
  destruct (Nat.ltb_spec (length (HtmlRow.cells row)) 7) as [Hfew|Hcells].
  { split; [done|]. intros [(? & ? & [= <-] & Hts' & Hv & _)|
                            (? & ? & ? & ? & [= <-] & Hts' & _ & _ & _ & ? & _)].
    - rewrite Hts in Hts'. injection Hts' as <-. congruence.
    - lia. }
  unfold rowUrl.
  destruct (HtmlRow.cells row !! 5%nat?.HtmlCell.a) as [link|] eqn:Hlink; cbn [chain bind];
    cycle 1.
  { destruct (set_has seen _); (split; [done|]);
      (intros [(? & ? & [= <-] & Hts' & Hv & _)|
               (? & ? & ? & ? & _ & _ & _ & _ & _ & _ & [=] & _)];
       rewrite Hts in Hts'; injection Hts' as <-; congruence). }
  destruct (HtmlLink.href link) as [h|] eqn:Hhref; cycle 1.
  { cbn [bind]. destruct (set_has seen _); (split; [done|]);
      (intros [(? & ? & [= <-] & Hts' & Hv & _)|
               (? & ? & ? & ? & _ & _ & _ & _ & _ & _ & [= <-] & Hh & _)];
       [rewrite Hts in Hts'; injection Hts' as <-; congruence|congruence]). }
  destruct (truthy h) eqn:Hh; cycle 1.
  { cbn [bind]. destruct (set_has seen _); (split; [done|]);
      (intros [(? & ? & [= <-] & Hts' & Hv & _)|
               (? & ? & ? & ? & _ & _ & _ & _ & _ & _ & [= <-] & Hh' & Hne & _)];
       [rewrite Hts in Hts'; injection Hts' as <-; congruence|]);
      rewrite Hhref in Hh'; injection Hh' as <-; by destruct h. }
  destruct (resolveUrl h) as [u|] eqn:Hres; cbn [bind].
  - destruct (set_has seen _); (split; [done|]);
      (intros [(? & ? & [= <-] & Hts' & Hv & _)|
               (? & ? & ? & ? & _ & _ & _ & _ & _ & _ & [= <-] & Hh' & _ & Hr & _)];
       [rewrite Hts in Hts'; injection Hts' as <-; congruence|]);
      rewrite Hhref in Hh'; injection Hh' as <-; congruence.
  - split.
    + intros [= <-]. right. exists a, ts, link, h.
      repeat split; try done; [by destruct (toISOString (ts * 1000))|by destruct h].
    + intros [(? & ? & [= <-] & Hts' & Hv & _)|(? & ? & ? & ? & H)];
        [rewrite Hts in Hts'; injection Hts' as <-; congruence|].
      by destruct H as (_ & _ & _ & _ & _ & _ & _ & _ & _ & _ & ->).
Qed.

Lemma normalizeLegacyRows_from_throws nowAt index seen rows row err :
  row ∈ rows →
  rowStartTime (HtmlRow.dataTimestamp row) = Throw err →
  is_ok (normalizeLegacyRows_from nowAt index seen rows) = false.
Proof.
  intros Hin Hbad. revert index seen.
  induction rows as [|r rest IH]; intros index seen; [by apply elem_of_nil in Hin|].
  simpl. destruct (normalizeLegacyRow (nowAt index) seen r) as [[seen' pushed]|] eqn:Hr;
    simpl; [|done].
  apply elem_of_cons in Hin as [->|Hin].
  - unfold normalizeLegacyRow in Hr. by rewrite Hbad in Hr.
  - specialize (IH Hin (S index) seen').
    by destruct (normalizeLegacyRows_from nowAt (S index) seen' rest).
Qed.

(** X9.  One match row of the roster page whose timestamp attribute holds
    a number of seconds beyond the range of [Date] makes the roster
    normalizer throw; the aggregation call then throws and the read
    endpoint answers 500, whatever the other sources returned. *)
Theorem roster_timestamp_out_of_range_aborts_feed (w : World)
    (data : LiquipediaParseResponse) (html : string) (row : HtmlRow.t)
    (a : string) (ts : Z) :
  fetchJson_liquipedia w buildLiquipediaUrl = Ok data →
  parse_text data = Some html →
  html ≠ "" →
  row ∈ querySelectorAll_tr html →
  isMatchRow row = true →
  HtmlRow.dataTimestamp row = Some a →
  parseInt a = Some ts →
  8640000000000000 < Z.abs (ts * 1000) →
  is_ok (normalizeLegacyCs2Matches (clock w NormalizeLegacy) html) = false ∧
  is_ok (getCalendarEvents w) = false ∧
  response_status (GET w) = 500.
Proof.
  intros Hfetch Hparse Hhtml Hrow Hmatch Hattr Hts Hrange.
  assert (is_ok (normalizeLegacyCs2Matches (clock w NormalizeLegacy) html) = false)
    as Hthrows.
  { unfold normalizeLegacyCs2Matches.
    eapply (normalizeLegacyRows_from_throws _ _ _ _ row).
    - by apply list_elem_of_In, filter_In; split; [apply list_elem_of_In|].
    - rewrite Hattr, rowStartTime_attr, Hts.
      replace (validTime (ts * 1000)) with false; [done|].
      symmetry. apply Z.leb_gt. lia. }
  assert (is_ok (getCalendarEvents w) = false) as Hfeed.
  { rewrite getCalendarEvents_is_ok. unfold allSourcesOk, fetchLegacyCs2Events.
    rewrite Hfetch. cbn [bind]. rewrite Hparse.
    replace (truthy html) with true by by destruct html. cbn [negb].
    rewrite Hthrows. by rewrite andb_false_r. }
  split; [done|]. split; [done|].
  unfold GET. by destruct (getCalendarEvents w).
Qed.

End RosterErrors.

(** ** Numbers in score strings *)

Section Scores.
Context {P : Platform}.

Lemma isDigit_plain c :
  isDigit c = true →
  isSpace c = false ∧ Ascii.eqb c "-" = false ∧ Ascii.eqb c "+" = false.
Proof. by destruct c as [[] [] [] [] [] [] [] []]. Qed.

Lemma chars_str l : chars (str l) = l.
Proof. apply String.list_ascii_of_string_of_list_ascii. Qed.

Lemma parseInt_digits c rest :
  isDigit c = true → is_Some (parseInt (str (c :: takeDigits rest))).
Proof.
  intros Hc. destruct (isDigit_plain c Hc) as (Hspace & Hminus & Hplus).
  unfold parseInt. rewrite chars_str. cbn [trimStart_chars].
  rewrite Hspace, Hminus, Hplus. cbn [takeDigits]. by rewrite Hc.
Qed.

Lemma parseInt_minus_digits d rest :
  isDigit d = true → is_Some (parseInt (str ("-"%char :: takeDigits (d :: rest)))).
Proof.
  intros Hd. unfold parseInt. rewrite chars_str.
  cbn [takeDigits]. rewrite Hd. generalize (takeDigits rest). intros ds.
  cbn [trimStart_chars].
  replace (isSpace "-"%char) with false by reflexivity.
  replace (Ascii.eqb "-"%char "-"%char) with true by reflexivity.
  cbn [takeDigits]. rewrite Hd. by eexists.
Qed.

Lemma matchSignedDigits_parses l m :
  matchSignedDigits l = Some m → is_Some (parseInt m).
Proof.
  induction l as [|c rest IH]; [done|]. cbn [matchSignedDigits].
  destruct (isDigit c) eqn:Hc.
  - intros [= <-]. cbn [takeDigits]. rewrite Hc. by apply parseInt_digits.
  - destruct (Ascii.eqb_spec c "-") as [->|_]; [|exact IH].
    destruct rest as [|d rest']; [done|].
    destruct (isDigit d) eqn:Hd; [|exact IH].
    intros [= <-]. by apply parseInt_minus_digits.
Qed.

Lemma matchSignedDigits_None l :
  matchSignedDigits l = None ↔ existsb isDigit l = false.
Proof.
  induction l as [|c rest IH]; [done|]. cbn [matchSignedDigits existsb].
  destruct (isDigit c) eqn:Hc; [done|]. cbn [orb].
  destruct (Ascii.eqb c "-"); [|exact IH].
  destruct rest as [|d rest']; [done|].
  destruct (isDigit d) eqn:Hd; [|exact IH].
  cbn [existsb]. by rewrite Hd.
Qed.

(** X10.  [extractNumericScore] finds no number exactly when the score is
    absent or holds no decimal digit: any string with a digit in it
    yields a number. *)
Theorem extractNumericScore_None (value : option string) :
  extractNumericScore value = None ↔
  value = None ∨ ∃ s, value = Some s ∧ hasDigit s = false.
Proof.
  unfold extractNumericScore. destruct value as [s|]; [|split; [by left|done]].
  destruct (truthy s) eqn:Htruthy; cbn [negb].
  - destruct (matchSignedDigits (chars s)) as [m|] eqn:Hm.
    + destruct (matchSignedDigits_parses _ _ Hm) as [n Hn]. rewrite Hn.
      split; [done|]. intros [[=]|(s' & [= <-] & Hnone)].
      apply matchSignedDigits_None in Hnone. unfold hasDigit in *. congruence.
    + split; [|done]. intros _. right. exists s. split; [done|].
      by apply matchSignedDigits_None.
  - split; [|done]. intros _. right. exists s. split; [done|]. by destruct s.
Qed.

End Scores.

(** ** What a club's fetch returns *)

Section ClubFeed.
Context {P : Platform}.




(** X12.  A fixture that the schedule and the scoreboard both list under
    one id appears once in what the club's fetch returns, as the
    scoreboard has it. *)
Theorem scoreboard_entry_supersedes_schedule (w : World) (team : TeamSourceKey)
    (events : list CalendarEventWithMeta) (scoreboardEvents : list TeamEvent.t)
    (e : CalendarEventWithMeta) :
  fetchTeamEvents w team = Ok events →
  fetchTeamScoreboardEvents w team = Ok scoreboardEvents →
  e ∈ events →
  id e ∈ List.map id
           (normalizeTeamEvents (clock w (NormalizeScoreboard team))
              (Some scoreboardEvents) team) →
  e ∈ normalizeTeamEvents (clock w (NormalizeScoreboard team)) (Some scoreboardEvents) team.
Proof.
  unfold fetchTeamEvents. intros Hfetch Hscoreboard. rewrite Hscoreboard in Hfetch.
  destruct (fetchTeamSchedule w team) as [schedule|]; simpl in Hfetch; [|done].
  injection Hfetch as <-. intros Hin Hid.
  apply elem_of_mergeAndSortEvents in Hin. simpl in Hin. rewrite app_nil_r in Hin.
  by eapply lastWithId_app.
Qed.

Lemma insertSorted_head {A} (comparefn : A → A → option Z) x l :
  (∀ y, head l = Some y → SortCompare (comparefn x y) <= 0) →
  insertSorted comparefn x l = x :: l.
Proof.
  destruct l as [|y l]; [done|]. intros Hle. simpl.
  by destruct (Z.leb_spec (SortCompare (comparefn x y)) 0) as [?|Hgt];
    [|specialize (Hle y eq_refl); lia].
Qed.

Lemma sortEvents_sorted_id events :
  StronglySorted mayPrecede events → sortEvents events = events.
Proof.
  unfold sortEvents. induction 1 as [|x l Hl IH Hx]; [done|].
  simpl. rewrite IH. apply insertSorted_head.
  intros y Hy. destruct l as [|y' l]; [done|]. injection Hy as ->.
  apply Forall_cons in Hx as [(tx & ty & Htx & Hty & Hord) _].
  unfold compareEvents, timeDifference. rewrite Htx, Hty.
  destruct (Z.eqb_spec (tx - ty) 0); simpl; lia.
Qed.

(** X13.  Sorting the feed again leaves it as it is. *)
Theorem sortEvents_feed_fixpoint (w : World) (feed : list CalendarEventWithMeta) :
  getCalendarEvents w = Ok feed → sortEvents feed = feed.
Proof.
  intros Hfeed. apply sortEvents_sorted_id.
  pose proof (getCalendarEvents_valid _ _ Hfeed) as Hvalid.
  apply getCalendarEvents_Ok in Hfeed as (a & b & c & d & _ & _ & _ & _ & ->).
  apply sortEvents_sorted. unfold sortEvents in Hvalid. by rewrite sort_perm in Hvalid.
Qed.

End ClubFeed.

(** ** Cleaned text and titles *)

Section Text.
Context {P : Platform}.

Lemma trimStart_chars_app x y :
  trimStart_chars (x ++ y) =
  match trimStart_chars x with [] => trimStart_chars y | t => t ++ y end.
Proof.
  induction x as [|c x IH]; [done|]. simpl. by destruct (isSpace c).
Qed.

Lemma trimStart_chars_idem l : trimStart_chars (trimStart_chars l) = trimStart_chars l.
Proof.
  induction l as [|c l IH]; [done|]. simpl.
  destruct (isSpace c) eqn:Hc; [done|]. simpl. by rewrite Hc.
Qed.

(** [trimEnd_chars], from the left. *)
Lemma trimEnd_chars_cons c l :
  trimEnd_chars (c :: l) =
  match trimEnd_chars l with
  | [] => if isSpace c then [] else [c]
  | t => c :: t
  end.
Proof.
  unfold trimEnd_chars. simpl. rewrite trimStart_chars_app.
  destruct (trimStart_chars (rev l)) as [|x t] eqn:Ht; simpl.
  - by destruct (isSpace c).
  - rewrite rev_app_distr. simpl.
    destruct (rev t ++ [x]) eqn:Hr; [by destruct (rev t)|done].
Qed.

Lemma trimEnd_chars_idem l : trimEnd_chars (trimEnd_chars l) = trimEnd_chars l.
Proof. unfold trimEnd_chars. by rewrite rev_involutive, trimStart_chars_idem. Qed.

Lemma trimStart_chars_head l c t :
  trimStart_chars l = c :: t → isSpace c = false.
Proof.
  induction l as [|x l IH]; [done|]. simpl.
  destruct (isSpace x) eqn:Hx; [done|]. by intros [= <- _].
Qed.

(** Trimming the end of a text that starts with a visible character
    leaves that character at the start. *)
Lemma trimStart_trimEnd_chars l :
  trimStart_chars (trimEnd_chars (trimStart_chars l)) = trimEnd_chars (trimStart_chars l).
Proof.
  destruct (trimStart_chars l) as [|c t] eqn:Hl; [done|].
  pose proof (trimStart_chars_head _ _ _ Hl) as Hc.
  rewrite trimEnd_chars_cons, Hc.
  destruct (trimEnd_chars t); simpl; by rewrite Hc.
Qed.

Lemma singleSpaced_collapse b l : singleSpaced b (collapse_chars b l) = true.
Proof.
  revert b. induction l as [|c l IH]; intros b; [done|]. simpl.
  destruct (isSpace c) eqn:Hc.
  - destruct b; [apply IH|]. simpl. by rewrite IH.
  - simpl. rewrite Hc. apply IH.
Qed.

Lemma collapse_singleSpaced b l : singleSpaced b l = true → collapse_chars b l = l.
Proof.
  revert b. induction l as [|c l IH]; intros b; [done|]. simpl.
  destruct (isSpace c) eqn:Hc.
  - intros [[Heq Hb%negb_true_iff]%andb_true_iff Hl]%andb_true_iff.
    apply Ascii.eqb_eq in Heq. subst. by rewrite (IH true Hl).
  - intros Hl. by rewrite (IH false Hl).
Qed.

Lemma singleSpaced_trimStart b b' l :
  singleSpaced b l = true → singleSpaced b' (trimStart_chars l) = true.
Proof.
  revert b. induction l as [|c l IH]; intros b; [done|]. simpl.
  destruct (isSpace c) eqn:Hc.
  - intros [_ Hl]%andb_true_iff. by apply (IH true).
  - intros Hl. simpl. by rewrite Hc.
Qed.

Lemma singleSpaced_trimEnd b l :
  singleSpaced b l = true → singleSpaced b (trimEnd_chars l) = true.
Proof.
  revert b. induction l as [|c l IH]; intros b; [done|].
  rewrite trimEnd_chars_cons. simpl. destruct (isSpace c) eqn:Hc.
  - intros [Hhead Hl]%andb_true_iff. specialize (IH true Hl).
    destruct (trimEnd_chars l) as [|x t]; [done|]. simpl. rewrite Hc.
    by rewrite Hhead.
  - intros Hl. specialize (IH false Hl).
    destruct (trimEnd_chars l) as [|x t]; simpl; by rewrite Hc.
Qed.

Lemma str_chars s : str (chars s) = s.
Proof. apply String.string_of_list_ascii_of_string. Qed.

Lemma chars_str_text l : chars (str l) = l.
Proof. apply String.list_ascii_of_string_of_list_ascii. Qed.

(** X14.  Text that [cleanText] returns is clean: it is not empty, it has
    no white space at either end, its words are separated by one plain
    space each, and [cleanText] returns it as it is. *)
Theorem cleanText_normal_form (value : option string) (s : string) :
  cleanText value = Some s →
  s ≠ "" ∧ trim s = s ∧ collapseSpaces s = s ∧
  singleSpaced false (chars s) = true ∧
  cleanText (Some s) = Some s.
Proof.
  unfold cleanText at 1. destruct value as [v|]; [|done].
  destruct (negb (truthy v)); [done|].
  destruct (truthy (trim (collapseSpaces v))) eqn:Htruthy; [|done].
  intros [= <-]. unfold collapseSpaces in *. unfold trim in *.
  rewrite chars_str_text in *.
  set (l := collapse_chars false (chars v)) in *.
  set (y := trimEnd_chars (trimStart_chars l)) in *.
  assert (singleSpaced false y = true) as Hy.
  { apply singleSpaced_trimEnd, (singleSpaced_trimStart false), singleSpaced_collapse. }
  assert (str (trimEnd_chars (trimStart_chars (chars (str y)))) = str y) as Htrim.
  { rewrite chars_str_text. unfold y.
    by rewrite trimStart_trimEnd_chars, trimEnd_chars_idem. }
  assert (str (collapse_chars false (chars (str y))) = str y) as Hcollapse.
  { rewrite chars_str_text. by rewrite collapse_singleSpaced. }
  split; [by destruct (str y)|]. split; [done|]. split; [done|].
  split; [by rewrite chars_str_text|].
  unfold cleanText, collapseSpaces, trim. rewrite Htruthy. cbn [negb].
  rewrite Hcollapse, Htrim. by rewrite Htruthy.
Qed.

Lemma trimEnd_chars_app_keep pre rest :
  (∃ c pre', pre = pre' ++ [c] ∧ isSpace c = false) →
  trimEnd_chars (pre ++ rest) = pre ++ trimEnd_chars rest.
Proof.
  intros (c & pre' & -> & Hc). induction pre' as [|x pre' IH]; simpl.
  - rewrite trimEnd_chars_cons, Hc. by destruct (trimEnd_chars rest).
  - rewrite trimEnd_chars_cons. simpl in IH. rewrite IH.
    destruct ((pre' ++ [c]) ++ trimEnd_chars rest) eqn:Hl; [|done].
    by destruct pre'.
Qed.

Lemma trim_chars_keep c t rest :
  isSpace c = false →
  (∃ d pre', c :: t = pre' ++ [d] ∧ isSpace d = false) →
  trimEnd_chars (trimStart_chars ((c :: t) ++ rest)) = (c :: t) ++ trimEnd_chars rest.
Proof.
  intros Hc Hlast. cbn [app trimStart_chars]. rewrite Hc.
  by apply (trimEnd_chars_app_keep (c :: t)).
Qed.

Lemma formatMatchup_title ourTeam_id name competitors :
  (∃ c t, chars name = c :: t ∧ isSpace c = false) →
  let qualifier :=
    match find (isTeam ourTeam_id) competitors?.Competitor.homeAway with
    | Some h => if String.eqb h "away" then "@" else "vs"
    | None => "vs"
    end in
  let opponent :=
    nullish_or (find (isOtherTeam ourTeam_id) competitors
                  ?.Competitor.team?.Team.displayName) "TBD" in
  formatMatchup ourTeam_id name competitors =
  {| matchup_title := name +:+ " " +:+ qualifier +:+ trimEnd (" " +:+ opponent);
     matchup_subtitle := Some opponent |}.
Proof.
  intros (c & t & Hname & Hc) qualifier opponent. unfold formatMatchup.
  fold opponent. f_equal.
  assert (match find (isTeam ourTeam_id) competitors?.Competitor.homeAway with
          | Some h => if String.eqb h "home" then "vs"
                      else if String.eqb h "away" then "@" else "vs"
          | None => "vs"
          end = qualifier) as ->.
  { unfold qualifier.
    destruct (find (isTeam ourTeam_id) competitors?.Competitor.homeAway) as [h|]; [|done].
    destruct (String.eqb_spec h "home") as [->|_]; [done|].
    by destruct (String.eqb h "away"). }
  assert (∃ d pre', chars (name +:+ " " +:+ qualifier) = pre' ++ [d] ∧ isSpace d = false)
    as Hlast.
  { rewrite !chars_app. unfold qualifier.
    destruct (find (isTeam ourTeam_id) competitors?.Competitor.homeAway) as [h|];
      [destruct (String.eqb h "away")|].
    - exists "@"%char, (chars name ++ chars " "). by rewrite <- app_assoc.
    - exists "s"%char, (chars name ++ chars " " ++ ["v"%char]). by rewrite <- !app_assoc.
    - exists "s"%char, (chars name ++ chars " " ++ ["v"%char]). by rewrite <- !app_assoc. }
  assert (∃ t', chars (name +:+ " " +:+ qualifier) = c :: t') as [t' Hpre].
  { rewrite chars_app, Hname. by eexists. }
  rewrite Hpre in Hlast.
  transitivity (str (chars (name +:+ " " +:+ qualifier) ++
                     trimEnd_chars (chars (" " +:+ opponent)))).
  - unfold trim. f_equal.
    replace (chars (name +:+ " " +:+ qualifier +:+ " " +:+ opponent))
      with (chars (name +:+ " " +:+ qualifier) ++ chars (" " +:+ opponent))
      by (rewrite !chars_app; by rewrite <- !app_assoc).
    rewrite Hpre. by apply trim_chars_keep.
  - rewrite <- (str_chars (name +:+ " " +:+ qualifier +:+ trimEnd (" " +:+ opponent))).
    f_equal. unfold trimEnd. rewrite !chars_app, chars_str_text.
    by rewrite <- !app_assoc.
Qed.

(** X15.  The title of a club fixture is the display name of the club, a
    space, the qualifier and the name of the opponent after a space,
    white space at the end removed: the qualifier is ["@"] exactly when
    the club plays away and ["vs"] in every other case, and the opponent
    is ["TBD"] when no other team is listed.  The subtitle is the name of
    the opponent. *)
Theorem normalizeTeamEvent_title_format (now : Z) (team : TeamSourceKey)
    (event : TeamEvent.t) (e : CalendarEventWithMeta) :
  normalizeTeamEvent now team event = Some e →
  ∃ qualifier,
    (qualifier = "@" ∧ ourSide team event = Some "away" ∨
     qualifier = "vs" ∧ ourSide team event ≠ Some "away") ∧
    title e = displayName (TEAM_SOURCES team) +:+ " " +:+ qualifier +:+
              trimEnd (" " +:+ opponentName team event) ∧
    subtitle e = Some (opponentName team event).
Proof.
  unfold normalizeTeamEvent.
  destruct (toISO _) as [startTime|]; [|done].
  destruct (negb (truthy startTime) || _); [done|].
  destruct (deriveResult _ _ _ _ _) as [r o]. intros [= <-]. cbn [title subtitle].
  change (nullish_or (TeamEvent.competitions event?.head?.Competition.competitors) [])
    with (fixtureCompetitors event).
  pose proof (formatMatchup_title (teamId (TEAM_SOURCES team))
                (displayName (TEAM_SOURCES team)) (fixtureCompetitors event)) as Hfm.
  lapply Hfm; [clear Hfm; intros Hfm|destruct team; simpl; by eexists _, _].
  cbv zeta in Hfm. unfold formatMatchup in Hfm.
  apply (f_equal matchup_title) in Hfm. cbn [matchup_title] in Hfm.
  rewrite Hfm. fold (ourSide team event). fold (opponentName team event).
  destruct (ourSide team event) as [h|] eqn:Hside.
  - destruct (String.eqb_spec h "away") as [->|Hne].
    + exists "@". split; [by left|done].
    + exists "vs". split; [right; split; [done|congruence]|done].
  - exists "vs". split; [by right|done].
Qed.

End Text.

(** ** The stream filter of the calendar page *)

Section Streams.
Context {P : Platform}.

Lemma includesSource_elem_of streams stream :
  includesSource streams stream = true ↔ stream ∈ streams.
Proof.
  unfold includesSource. rewrite existsb_exists. split.
  - intros (item & Hin & Heq). apply bool_decide_eq_true in Heq as <-.
    by apply list_elem_of_In.
  - intros Hin. exists stream. split; [by apply list_elem_of_In|].
    by apply bool_decide_eq_true.
Qed.

Lemma elem_of_List_filter {A} (p : A → bool) l x :
  x ∈ List.filter p l ↔ x ∈ l ∧ p x = true.
Proof. rewrite !list_elem_of_In. apply filter_In. Qed.

Lemma NoDup_List_filter {A} (p : A → bool) l : NoDup l → NoDup (List.filter p l).
Proof.
  induction 1 as [|x l Hx Hl IH]; simpl; [constructor|].
  destruct (p x); [|done]. constructor; [|done].
  rewrite elem_of_List_filter. tauto.
Qed.

(** One click: the stream clicked changes sides, the others stay. *)
Lemma handleStreamToggle_flips stream prev item :
  includesSource (handleStreamToggle stream prev) item
  = if bool_decide (item = stream) then negb (includesSource prev item)
    else includesSource prev item.
Proof.
  unfold handleStreamToggle.
  destruct (includesSource prev stream) eqn:Hin.
  - case_bool_decide as Heq.
    + subst item. rewrite Hin. simpl. apply not_true_iff_false.
      rewrite includesSource_elem_of, elem_of_List_filter.
      intros [_ Hne]. apply negb_true_iff, bool_decide_eq_false in Hne. done.
    + apply eq_true_iff_eq. rewrite !includesSource_elem_of, elem_of_List_filter.
      split; [tauto|]. intros Hitem. split; [done|].
      apply negb_true_iff, bool_decide_eq_false. done.
  - case_bool_decide as Heq.
    + subst item. rewrite Hin. simpl. apply includesSource_elem_of.
      apply elem_of_app. right. by apply list_elem_of_singleton.
    + apply eq_true_iff_eq. rewrite !includesSource_elem_of, elem_of_app,
        list_elem_of_singleton. tauto.
Qed.

Lemma handleStreamToggle_NoDup stream prev :
  NoDup prev → NoDup (handleStreamToggle stream prev).
Proof.
  intros Hnd. unfold handleStreamToggle.
  destruct (includesSource prev stream) eqn:Hin.
  - by apply NoDup_List_filter.
  - apply NoDup_app. split; [done|]. split; [|apply NoDup_singleton].
    intros x Hx ->%list_elem_of_singleton.
    apply includesSource_elem_of in Hx. congruence.
Qed.

Lemma toggles_from prev toggles :
  NoDup prev →
  let streams := fold_left (fun prev stream => handleStreamToggle stream prev) toggles prev in
  NoDup streams ∧
  ∀ stream, includesSource streams stream
            = xorb (includesSource prev stream) (Nat.odd (timesToggled stream toggles)).
Proof.
  revert prev. induction toggles as [|t toggles IH]; intros prev Hnd; simpl.
  - split; [done|]. intros stream. by rewrite xorb_false_r.
  - destruct (IH (handleStreamToggle t prev) (handleStreamToggle_NoDup _ _ Hnd))
      as [Hnd' Hin].
    split; [done|]. intros stream. rewrite Hin, handleStreamToggle_flips.
    unfold timesToggled. simpl.
    rewrite (bool_decide_ext (stream = t) (t = stream)) by done.
    case_bool_decide; simpl; [|done].
    rewrite Nat.odd_succ, <- Nat.negb_odd.
    by destruct (includesSource prev stream), (Nat.odd _).
Qed.

(** X16.  Whatever series of stream buttons is clicked, starting from the
    initial state with all four streams active, the list of active
    streams never holds a stream twice, a stream is active exactly when
    it was clicked an even number of times, and the calendar shows
    exactly the given events whose stream was clicked an even number of
    times. *)
Theorem activeStreams_after_toggles (toggles : list CalendarSource) :
  NoDup (activeStreamsAfter toggles) ∧
  (∀ stream, stream ∈ activeStreamsAfter toggles
             ↔ Nat.even (timesToggled stream toggles) = true) ∧
  (∀ enhancedEvents event,
     event ∈ filteredEvents enhancedEvents (activeStreamsAfter toggles)
     ↔ event ∈ enhancedEvents
       ∧ Nat.even (timesToggled (source (ui_event event)) toggles) = true).
Proof.
  assert (NoDup STREAM_ORDER) as Hnd.
  { unfold STREAM_ORDER. repeat constructor; rewrite ?elem_of_cons, ?elem_of_nil;
      intros Hin; repeat destruct Hin as [Hin|Hin]; done. }
  destruct (toggles_from STREAM_ORDER toggles Hnd) as [Hnd' Hin].
  fold (activeStreamsAfter toggles) in Hnd', Hin.
  assert (∀ stream, stream ∈ activeStreamsAfter toggles
                    ↔ Nat.even (timesToggled stream toggles) = true) as Hparity.
  { intros stream. rewrite <- includesSource_elem_of, Hin.
    replace (includesSource STREAM_ORDER stream) with true by by destruct stream.
    rewrite <- Nat.negb_odd. by destruct (Nat.odd _). }
  split; [done|]. split; [done|].
  intros enhancedEvents event. unfold filteredEvents.
  by rewrite elem_of_List_filter, includesSource_elem_of, Hparity.
Qed.

(** X17.  The three counters of the month add up to its total: every
    event of the month is counted as a club event, a roster event or a
    card of the promotion, and none is counted twice. *)
Theorem stream_counts_add_up (monthlyEvents : list CalendarUiEvent) :
  (clubEvents monthlyEvents + legacyEvents monthlyEvents + ufcEvents monthlyEvents
   = totalEvents monthlyEvents)%nat.
Proof.
  unfold clubEvents, legacyEvents, ufcEvents, totalEvents.
  induction monthlyEvents as [|event rest IH]; simpl; [done|].
  destruct (source (ui_event event)); simpl; lia.
Qed.

End Streams.

(** ** Days and the next events of the calendar page *)

Section Days.
Context {P : Platform}.

Lemma eventsByDay_from grouped events key :
  map_get
    (fold_left
       (fun grouped event =>
          match map_get grouped (localDateKey event) with
          | Some dayEvents => map_set grouped (localDateKey event) (dayEvents ++ [event])
          | None => map_set grouped (localDateKey event) [event]
          end) events grouped) key
  = match map_get grouped key, List.filter (onDay key) events with
    | Some dayEvents, today => Some (dayEvents ++ today)
    | None, [] => None
    | None, today => Some today
    end.
Proof.
  revert grouped. induction events as [|event rest IH]; intros grouped; simpl.
  - destruct (map_get grouped key); [by rewrite app_nil_r|done].
  - rewrite IH. replace (onDay key event) with (String.eqb (localDateKey event) key)
      by done.
    destruct (map_get grouped (localDateKey event)) as [dayEvents|] eqn:Hday;
      rewrite map_get_set;
      destruct (String.eqb_spec (localDateKey event) key) as [Heq|Hne].
    + subst key. rewrite Hday. by rewrite <- app_assoc.
    + done.
    + subst key. rewrite Hday. done.
    + done.
Qed.

Lemma eventsByDay_keys events :
  NoDup (List.map fst (eventsByDay events)).
Proof.
  unfold eventsByDay.
  assert (NoDup (List.map fst ([] : list (string * list CalendarUiEvent)))) as Hnd
    by constructor.
  revert Hnd. generalize ([] : list (string * list CalendarUiEvent)) as grouped.
  induction events as [|event rest IH]; intros grouped Hnd; simpl; [done|].
  apply IH. destruct (map_get grouped (localDateKey event)); by apply NoDup_keys_set.
Qed.

(** X18.  The map of days gives, for every day key, the events of that
    day in the order in which the filtered list has them, and no entry
    for a day without events. *)
Theorem eventsByDay_lists_the_day (filteredEvents : list CalendarUiEvent) (key : string) :
  map_get (eventsByDay filteredEvents) key
  = match List.filter (onDay key) filteredEvents with
    | [] => None
    | today => Some today
    end.
Proof. unfold eventsByDay. by rewrite eventsByDay_from. Qed.

Lemma startsNoLaterUi_trans : Transitive startsNoLaterUi.
Proof.
  intros a b c (ta & tb & Ha & Hb & Hab) (tb' & tc & Hb' & Hc & Hbc).
  exists ta, tc. repeat split; [done..|]. rewrite Hb in Hb'. injection Hb' as <-. lia.
Qed.

Lemma byStartTime_sorted events :
  Forall (fun event => hasValidTime (ui_event event)) events →
  StronglySorted startsNoLaterUi (sort byStartTime events).
Proof.
  apply sort_sorted; [| |apply startsNoLaterUi_trans].
  - intros x y [tx Hx] [ty Hy]. unfold byStartTime, timeDifference. rewrite Hx, Hy.
    simpl. intros Hle. exists tx, ty. repeat split; [done..|lia].
  - intros x y [tx Hx] [ty Hy]. unfold byStartTime, timeDifference. rewrite Hx, Hy.
    simpl. intros Hle. exists ty, tx. repeat split; [done..|lia].
Qed.

(** X19.  For a selected day that is not the empty key, the day panel
    lists exactly the filtered events of that day, each as often as the
    filtered list holds it, and, when their start times are valid, in the
    order of their start times. *)
Theorem selectedDayEvents_of_day (filteredEvents : list CalendarUiEvent)
    (selectedDayKey : string) :
  selectedDayKey ≠ "" →
  (∀ event, event ∈ filteredEvents → onDay selectedDayKey event = true →
            hasValidTime (ui_event event)) →
  selectedDayEvents selectedDayKey (eventsByDay filteredEvents)
    ≡ₚ List.filter (onDay selectedDayKey) filteredEvents ∧
  StronglySorted startsNoLaterUi
    (selectedDayEvents selectedDayKey (eventsByDay filteredEvents)).
Proof.
  intros Hkey Hvalid. unfold selectedDayEvents.
  destruct selectedDayKey as [|c key]; [done|]. simpl truthy. simpl negb. cbv iota.
  unfold eventsByDay. rewrite eventsByDay_from. simpl map_get.
  set (today := List.filter (onDay (String c key)) filteredEvents).
  cbv beta iota.
  assert (nullish_or match today with [] => None | c0 :: l => Some (c0 :: l) end []
          = today) as -> by by destruct today.
  split; [apply sort_perm|].
  apply byStartTime_sorted. apply Forall_forall. intros event Hin.
  apply elem_of_List_filter in Hin as [Hin Hday]. by apply Hvalid.
Qed.

(** X20.  The list of next events holds six events, or all the upcoming
    ones when there are fewer; an event with an invalid start time is not
    among them.  It is ordered by start time, and every upcoming event it
    leaves out starts no earlier than each event it lists. *)
Theorem nextEvents_are_the_earliest (now : Z) (filteredEvents : list CalendarUiEvent) :
  length (nextEvents now filteredEvents)
  = (length (List.filter (startsAtOrAfter now) filteredEvents) `min` 6)%nat ∧
  StronglySorted startsNoLaterUi (nextEvents now filteredEvents) ∧
  ∃ later,
    List.filter (startsAtOrAfter now) filteredEvents
      ≡ₚ nextEvents now filteredEvents ++ later ∧
    ∀ event other, event ∈ nextEvents now filteredEvents → other ∈ later →
                   startsNoLaterUi event other.
Proof.
  unfold nextEvents.
  set (upcoming := List.filter (startsAtOrAfter now) filteredEvents).
  assert (StronglySorted startsNoLaterUi (sort byStartTime upcoming)) as Hsorted.
  { apply byStartTime_sorted. apply Forall_forall. intros event Hin.
    apply elem_of_List_filter in Hin as [_ Hstart]. unfold startsAtOrAfter in Hstart.
    unfold hasValidTime. by destruct (getTime (ui_event event)). }
  rewrite <- (take_drop 6 (sort byStartTime upcoming)) in Hsorted.
  apply StronglySorted_app in Hsorted as (Hcross & Htake & _).
  split; [|split; [done|]].
  - rewrite length_take, (Permutation_length (sort_perm _ _)). lia.
  - exists (drop 6 (sort byStartTime upcoming)). split; [|done].
    by rewrite take_drop, sort_perm.
Qed.

End Days.

(** ** The digests of the tournaments page *)

Section Tournaments.
Context {P : Platform}.
Variable fallback : string.
Variable localeCompare : string → string → Z.
Variable now : Z.


Lemma digestKey_inj (a b : CalendarSource) (x y : string) :
  sourceName a +:+ "|" +:+ x = sourceName b +:+ "|" +:+ y → a = b ∧ x = y.
Proof. destruct a, b; simpl; intros Heq; by simplify_eq. Qed.

Lemma stringGreater_irrefl s : stringGreater s s = false.
Proof.
  unfold stringGreater, String.ltb.
  assert (String.compare s s = Eq) as ->; [|done].
  induction s as [|c s IH]; simpl; [done|].
  unfold Ascii.compare. by rewrite N.compare_refl.
Qed.

Lemma stringGreater_asym a b : stringGreater a b = true → stringGreater b a = false.
Proof.
  unfold stringGreater, String.ltb. rewrite (String.compare_antisym a b).
  by destruct (String.compare b a).
Qed.

Lemma compare_not_Gt_trans a b c :
  String.compare a b ≠ Gt → String.compare b c ≠ Gt → String.compare a c ≠ Gt.
Proof.
  revert b c. induction a as [|x a IH]; intros [|y b] [|z c]; simpl; try done.
  unfold Ascii.compare.
  destruct (N.compare_spec (N_of_ascii x) (N_of_ascii y)) as [Hxy|Hxy|Hxy];
    destruct (N.compare_spec (N_of_ascii y) (N_of_ascii z)) as [Hyz|Hyz|Hyz];
    destruct (N.compare_spec (N_of_ascii x) (N_of_ascii z)) as [Hxz|Hxz|Hxz];
    try done; try lia.
  apply IH.
Qed.

Lemma stringGreater_trans a b c :
  stringGreater a b = false → stringGreater b c = false → stringGreater a c = false.
Proof.
  unfold stringGreater, String.ltb. intros Hab Hbc.
  pose proof (compare_not_Gt_trans a b c) as Htrans.
  rewrite (String.compare_antisym a b), (String.compare_antisym b c),
    (String.compare_antisym a c) in Htrans.
  destruct (String.compare b a), (String.compare c b), (String.compare c a);
    try done; exfalso; apply Htrans; done.
Qed.

Lemma stringGreater_empty s : stringGreater "" s = false.
Proof. by destruct s. Qed.

Lemma sort_elem_of {A} (comparefn : A → A → option Z) l x :
  x ∈ sort comparefn l ↔ x ∈ l.
Proof. by rewrite sort_perm. Qed.

(** What the loop keeps for each key: the digest of the events with that
    key, as far as they have been read. *)
Lemma digests_fold (Q : list CalendarEventWithMeta → TournamentDigest.t → Prop) :
  (∀ event, Q [event] (openDigest fallback now event)) →
  (∀ group entry event,
     group ≠ [] → Q group entry → Q (group ++ [event]) (extendDigest now entry event)) →
  ∀ events key,
    match map_get (fold_left (countEvent fallback now) events []) key with
    | None => List.filter (filedUnder fallback key) events = []
    | Some digest =>
        List.filter (filedUnder fallback key) events ≠ [] ∧
        Q (List.filter (filedUnder fallback key) events) digest
    end.
Proof.
  intros Hopen Hextend events. unfold filedUnder.
  induction events as [|event events IH] using rev_ind; intros key; [done|].
  rewrite fold_left_app, List.filter_app. simpl fold_left. simpl List.filter.
  unfold countEvent at 1.
  specialize (IH key).
  destruct (String.eqb_spec (digestKey fallback event) key) as [Heq|Hne].
  - subst key.
    destruct (map_get _ (digestKey fallback event)) as [entry|];
      rewrite map_get_set, String.eqb_refl.
    + destruct IH as [Hgroup HQ]. split; [by intros [? _]%app_eq_nil|by apply Hextend].
    + rewrite IH. simpl. split; [done|apply Hopen].
  - rewrite app_nil_r.
    destruct (map_get _ (digestKey fallback event)) as [entry|];
      rewrite map_get_set; by destruct (String.eqb_spec (digestKey fallback event) key).
Qed.

Lemma digests_keys events :
  NoDup (List.map fst (fold_left (countEvent fallback now) events [])).
Proof.
  induction events as [|event events IH] using rev_ind; [constructor|].
  rewrite fold_left_app. cbn [fold_left].
  revert IH. generalize (fold_left (countEvent fallback now) events []) as map.
  intros map IH. unfold countEvent.
  destruct (map_get _ _); by apply NoDup_keys_set.
Qed.

Lemma elem_of_digests events digest :
  digest ∈ buildTournamentDigests fallback localeCompare now events ↔
  ∃ key, map_get (fold_left (countEvent fallback now) events []) key = Some digest.
Proof.
  unfold buildTournamentDigests, map_values. rewrite sort_elem_of. split.
  - intros [[key d] [-> Hin]]%list_elem_of_fmap_1. exists key.
    by apply elem_of_map_get; [apply digests_keys|].
  - intros [key Hget]. apply elem_of_map_get in Hget; [|apply digests_keys].
    by apply (list_elem_of_fmap_2 snd) in Hget.
Qed.

(** The digest under a key carries the source and the tournament of the
    events with that key. *)
Lemma digest_names_its_key events key digest :
  map_get (fold_left (countEvent fallback now) events []) key = Some digest →
  key = sourceName (TournamentDigest.source digest) +:+ "|" +:+ TournamentDigest.name digest ∧
  List.filter (filedUnder fallback key) events ≠ [] ∧
  ∀ l, List.filter (filedUnder fallback key) l = List.filter (inTournament fallback digest) l.
Proof.
  intros Hget.
  pose proof (digests_fold
    (fun group digest => ∃ first, head group = Some first ∧
       TournamentDigest.source digest = source first ∧
       TournamentDigest.name digest = toTournamentKey fallback first)) as Hfold.
  lapply Hfold; [clear Hfold; intros Hfold|by intros event; exists event].
  lapply Hfold; [clear Hfold; intros Hfold|].
  2:{ intros group entry event Hgroup (first & Hhead & Hsource & Hname).
      exists first. split; [|done]. destruct group; [done|]. done. }
  specialize (Hfold events key). rewrite Hget in Hfold.
  destruct Hfold as (Hgroup & first & Hhead & Hsource & Hname).
  assert (digestKey fallback first = key) as Hkey.
  { apply head_Some_elem_of in Hhead. apply elem_of_List_filter in Hhead as [_ Hk].
    by apply String.eqb_eq in Hk. }
  assert (key = sourceName (TournamentDigest.source digest) +:+ "|"
                +:+ TournamentDigest.name digest) as Hkey'.
  { rewrite <- Hkey, Hsource, Hname. done. }
  split; [done|]. split; [done|]. intros l. apply List.filter_ext. intros event.
  unfold inTournament, filedUnder. apply eq_true_iff_eq.
  rewrite String.eqb_eq, andb_true_iff, bool_decide_eq_true, String.eqb_eq, Hkey'.
  unfold digestKey. split.
  - by intros [-> ->]%digestKey_inj.
  - by intros [-> ->].
Qed.

Lemma countedEvents_set (map : list (string * TournamentDigest.t)) key digest :
  countedEvents (map_values (map_set map key digest))
  = countedEvents (map_values map)
    - match map_get map key with
      | Some entry => TournamentDigest.eventCount entry
      | None => 0
      end
    + TournamentDigest.eventCount digest.
Proof.
  unfold countedEvents, map_values.
  induction map as [|[k d] map IH]; simpl; [lia|].
  destruct (String.eqb k key); simpl; [lia|]. rewrite IH. lia.
Qed.

Lemma countedEvents_fold events :
  countedEvents (map_values (fold_left (countEvent fallback now) events []))
  = Z.of_nat (length events).
Proof.
  induction events as [|event events IH] using rev_ind; [done|].
  rewrite fold_left_app, length_app. cbn [fold_left length].
  revert IH. generalize (fold_left (countEvent fallback now) events []) as map.
  intros map IH. unfold countEvent.
  destruct (map_get _ _) as [entry|] eqn:Hget; rewrite countedEvents_set, Hget, IH;
    simpl; lia.
Qed.

Lemma countedEvents_perm l1 l2 : l1 ≡ₚ l2 → countedEvents l1 = countedEvents l2.
Proof.
  unfold countedEvents. induction 1; simpl; lia.
Qed.

(** X21.  Every digest counts the events of its source and tournament:
    the count is their number and is at least one; every event is counted
    by a digest; no two digests have the same source and tournament name;
    and the counts of all digests add up to the number of events. *)
Theorem buildTournamentDigests_counts (events : list CalendarEventWithMeta) :
  (∀ digest, digest ∈ buildTournamentDigests fallback localeCompare now events →
     0 < TournamentDigest.eventCount digest ∧
     TournamentDigest.eventCount digest
     = Z.of_nat (length (List.filter (inTournament fallback digest) events))) ∧
  (∀ event, event ∈ events →
     ∃ digest, digest ∈ buildTournamentDigests fallback localeCompare now events ∧
               inTournament fallback digest event = true) ∧
  NoDup (List.map (fun digest => (TournamentDigest.source digest,
                                  TournamentDigest.name digest))
           (buildTournamentDigests fallback localeCompare now events)) ∧
  countedEvents (buildTournamentDigests fallback localeCompare now events)
  = Z.of_nat (length events).
Proof.
  pose proof (digests_fold
    (fun group digest => TournamentDigest.eventCount digest = Z.of_nat (length group)))
    as Hcount.
  lapply Hcount; [clear Hcount; intros Hcount|done].
  lapply Hcount; [clear Hcount; intros Hcount|].
  2:{ intros group entry event _ Hentry. rewrite length_app. simpl. lia. }
  split; [|split; [|split]].
  - intros digest [key Hget]%elem_of_digests.
    destruct (digest_names_its_key _ _ _ Hget) as (_ & Hgroup & Hsame).
    specialize (Hcount events key). rewrite Hget, Hsame in Hcount.
    destruct Hcount as [Hne ->]. split; [|done].
    destruct (List.filter _ events); [done|]. simpl. lia.
  - intros event Hin. specialize (Hcount events (digestKey fallback event)).
    destruct (map_get _ _) as [digest|] eqn:Hget.
    + exists digest. split; [apply elem_of_digests; by eexists|].
      destruct (digest_names_its_key _ _ _ Hget) as (_ & _ & Hsame).
      assert (event ∈ List.filter (inTournament fallback digest) events) as Hev.
      { rewrite <- Hsame. apply elem_of_List_filter. unfold filedUnder. by rewrite String.eqb_refl. }
      by apply elem_of_List_filter in Hev as [_ ?].
    + exfalso. assert (event ∈ List.filter (filedUnder fallback (digestKey fallback event)) events) as Hev.
      { apply elem_of_List_filter. unfold filedUnder. by rewrite String.eqb_refl. }
      rewrite Hcount in Hev. by apply elem_of_nil in Hev.
  - unfold buildTournamentDigests.
    rewrite (fmap_Permutation _ _ _ (sort_perm _ _)).
    pose proof (digests_keys events) as Hkeys.
    assert (∀ key digest,
              (key, digest) ∈ fold_left (countEvent fallback now) events [] →
              key = sourceName (TournamentDigest.source digest) +:+ "|"
                    +:+ TournamentDigest.name digest) as Hnames.
    { intros key digest Hin. apply elem_of_map_get in Hin; [|done].
      by apply digest_names_its_key in Hin as [? _]. }
    revert Hkeys Hnames. unfold map_values.
    generalize (fold_left (countEvent fallback now) events []) as map.
    induction map as [|[key digest] map IH]; simpl; intros Hkeys Hnames; [constructor|].
    apply NoDup_cons in Hkeys as [Hkey Hkeys]. constructor.
    + intros [digest' [Heq Hin]]%list_elem_of_fmap_1.
      apply list_elem_of_fmap_1 in Hin as [[key' held] [-> Hin]]. simpl in Heq.
      injection Heq as Hsource Hname. apply Hkey.
      assert (key' = key) as <-.
      { rewrite (Hnames key digest) by by left.
        rewrite (Hnames key' held) by by right. by rewrite Hsource, Hname. }
      by apply (list_elem_of_fmap_2 fst) in Hin.
    + apply IH; [done|]. intros k d Hin. apply Hnames. by right.
  - unfold buildTournamentDigests.
    rewrite (countedEvents_perm _ _ (sort_perm _ _)). apply countedEvents_fold.
Qed.

(** X22.  The last date of a digest is the start-time text of one of the
    events of its tournament, and no event of the tournament has a
    start-time text that is greater in the order of strings. *)
Theorem buildTournamentDigests_lastDate (events : list CalendarEventWithMeta)
    (digest : TournamentDigest.t) :
  digest ∈ buildTournamentDigests fallback localeCompare now events →
  ∃ last,
    TournamentDigest.lastDateUTC digest = Some last ∧
    (∃ event, event ∈ events ∧ inTournament fallback digest event = true ∧
              startTimeUTC event = last) ∧
    ∀ event, event ∈ events → inTournament fallback digest event = true →
             stringGreater (startTimeUTC event) last = false.
Proof.
  intros [key Hget]%elem_of_digests.
  pose proof (digests_fold
    (fun group digest => ∃ last,
       TournamentDigest.lastDateUTC digest = Some last ∧
       (∃ event, event ∈ group ∧ startTimeUTC event = last) ∧
       ∀ event, event ∈ group → stringGreater (startTimeUTC event) last = false))
    as Hlast.
  lapply Hlast; [clear Hlast; intros Hlast|].
  2:{ intros event. exists (startTimeUTC event). split; [done|]. split.
      - exists event. split; [by left|done].
      - intros ? ->%list_elem_of_singleton. apply stringGreater_irrefl. }
  lapply Hlast; [clear Hlast; intros Hlast|].
  2:{ intros group entry event _ (last & Hentry & (held & Hheld & Hstart) & Hmax).
      unfold extendDigest. simpl. rewrite Hentry. simpl.
      destruct (truthy last && stringGreater last (startTimeUTC event)) eqn:Hkeep.
      - exists last. split; [done|]. split.
        + exists held. split; [apply elem_of_app; by left|done].
        + intros e [Hin| ->%list_elem_of_singleton]%elem_of_app; [by apply Hmax|].
          apply andb_true_iff in Hkeep as [_ Hgreater]. by apply stringGreater_asym.
      - exists (startTimeUTC event). split; [done|]. split.
        + exists event. split; [apply elem_of_app; right; by left|done].
        + intros e [Hin| ->%list_elem_of_singleton]%elem_of_app;
            [|apply stringGreater_irrefl].
          apply andb_false_iff in Hkeep as [Hempty|Hle].
          * destruct last; [|done]. specialize (Hmax e Hin).
            destruct (startTimeUTC e); [apply stringGreater_empty|done].
          * eapply stringGreater_trans; [by apply Hmax|done]. }
  destruct (digest_names_its_key _ _ _ Hget) as (_ & _ & Hsame).
  specialize (Hlast events key). rewrite Hget, Hsame in Hlast.
  destruct Hlast as (_ & last & Hentry & (held & Hheld & Hstart) & Hmax).
  exists last. split; [done|]. split.
  - apply elem_of_List_filter in Hheld as [? ?]. by exists held.
  - intros event Hin Hev. apply Hmax. by apply elem_of_List_filter.
Qed.

(** X23.  Where the empty string is not a date: the next date of a
    digest is the start-time text of the earliest event of its tournament
    among those that start at or after [now], and it is absent exactly
    when the tournament has no such event. *)
Theorem buildTournamentDigests_nextDate (events : list CalendarEventWithMeta)
    (digest : TournamentDigest.t) :
  parseDate "" = None →
  digest ∈ buildTournamentDigests fallback localeCompare now events →
  match TournamentDigest.nextDateUTC digest with
  | None =>
      ∀ event, event ∈ events → inTournament fallback digest event = true →
               ¬ upcomingAt now event
  | Some next =>
      ∃ event start,
        event ∈ events ∧ inTournament fallback digest event = true ∧
        startTimeUTC event = next ∧ getTime event = Some start ∧ now <= start ∧
        ∀ other start', other ∈ events → inTournament fallback digest other = true →
                        getTime other = Some start' → now <= start' → start <= start'
  end.
Proof.
  intros Hempty [key Hget]%elem_of_digests.
  pose proof (digests_fold
    (fun group digest =>
       match TournamentDigest.nextDateUTC digest with
       | None => ∀ event, event ∈ group → ¬ upcomingAt now event
       | Some next =>
           ∃ event start,
             event ∈ group ∧ startTimeUTC event = next ∧
             getTime event = Some start ∧ now <= start ∧
             ∀ other start', other ∈ group → getTime other = Some start' →
                             now <= start' → start <= start'
       end)) as Hnext.
  lapply Hnext; [clear Hnext; intros Hnext|].
  2:{ intros event. unfold openDigest, isUpcoming. simpl.
      destruct (getTime event) as [start|] eqn:Hstart.
      - destruct (Z.leb_spec now start) as [Hle|Hlt].
        + exists event, start. split; [by left|]. repeat split; [done..|].
          intros other start' ->%list_elem_of_singleton Hother _.
          rewrite Hstart in Hother. injection Hother as <-. lia.
        + intros ? ->%list_elem_of_singleton (start' & Hother & Hle).
          rewrite Hstart in Hother. injection Hother as <-. lia.
      - intros ? ->%list_elem_of_singleton (start' & Hother & _). congruence. }
  lapply Hnext; [clear Hnext; intros Hnext|].
  2:{ intros group entry event _ Hentry. unfold extendDigest, isUpcoming. simpl.
      destruct (getTime event) as [start|] eqn:Hstart.
      2:{ destruct (TournamentDigest.nextDateUTC entry) as [next|].
          - destruct Hentry as (held & t & Hheld & Hnext' & Htime & Hle & Hmin).
            exists held, t. split; [apply elem_of_app; by left|].
            repeat split; [done..|].
            intros other start' [Hin| ->%list_elem_of_singleton]%elem_of_app Hother;
              [by eapply Hmin|congruence].
          - intros e [Hin| ->%list_elem_of_singleton]%elem_of_app; [by apply Hentry|].
            intros (start' & Hother & _). congruence. }
      destruct (Z.leb_spec now start) as [Hfuture|Hpast].
      2:{ destruct (TournamentDigest.nextDateUTC entry) as [next|].
          - destruct Hentry as (held & t & Hheld & Hnext' & Htime & Hle & Hmin).
            exists held, t. split; [apply elem_of_app; by left|].
            repeat split; [done..|].
            intros other start' [Hin| ->%list_elem_of_singleton]%elem_of_app Hother Hle';
              [by eapply Hmin|].
            rewrite Hstart in Hother. injection Hother as <-. lia.
          - intros e [Hin| ->%list_elem_of_singleton]%elem_of_app; [by apply Hentry|].
            intros (start' & Hother & Hle). rewrite Hstart in Hother.
            injection Hother as <-. lia. }
      destruct (TournamentDigest.nextDateUTC entry) as [next|]; simpl.
      - destruct Hentry as (held & t & Hheld & Hnext' & Htime & Hle & Hmin).
        assert (parseDate next = Some t) as Hparse by by rewrite <- Hnext'.
        assert (truthy next = true) as ->.
        { destruct next; [congruence|done]. }
        simpl. rewrite Hparse.
        destruct (Z.ltb_spec start t) as [Hearlier|Hlater].
        + exists event, start. split; [apply elem_of_app; right; by left|].
          repeat split; [done..|].
          intros other start' [Hin| ->%list_elem_of_singleton]%elem_of_app Hother Hle'.
          * specialize (Hmin other start' Hin Hother Hle'). lia.
          * rewrite Hstart in Hother. injection Hother as <-. lia.
        + exists held, t. split; [apply elem_of_app; by left|].
          repeat split; [done..|].
          intros other start' [Hin| ->%list_elem_of_singleton]%elem_of_app Hother Hle';
            [by eapply Hmin|].
          rewrite Hstart in Hother. injection Hother as <-. lia.
      - exists event, start. split; [apply elem_of_app; right; by left|].
        repeat split; [done..|].
        intros other start' [Hin| ->%list_elem_of_singleton]%elem_of_app Hother Hle'.
        + exfalso. apply (Hentry other Hin). by exists start'.
        + rewrite Hstart in Hother. injection Hother as <-. lia. }
  destruct (digest_names_its_key _ _ _ Hget) as (_ & _ & Hsame).
  specialize (Hnext events key). rewrite Hget, Hsame in Hnext.
  destruct Hnext as [_ Hnext].
  destruct (TournamentDigest.nextDateUTC digest) as [next|].
  - destruct Hnext as (held & t & Hheld & Hnext' & Htime & Hle & Hmin).
    apply elem_of_List_filter in Hheld as [? ?].
    exists held, t. repeat split; [done..|].
    intros other start' Hin Hev. apply Hmin. by apply elem_of_List_filter.
  - intros event Hin Hev. apply Hnext. by apply elem_of_List_filter.
Qed.

End Tournaments.

(** ** Results, outcomes and locations *)

Section Results.
Context {P : Platform}.

Lemma deriveResult_well_formed state statusDetail statusDescription focusScore
    opponentScore r o :
  deriveResult state statusDetail statusDescription focusScore opponentScore = (r, o) →
  (∀ text, r = Some text → text ≠ "") ∧
  (∀ won, o = Some won →
     ∃ ours theirs x y,
       r = Some (ours +:+ " - " +:+ theirs) ∧
       extractNumericScore (Some ours) = Some x ∧
       extractNumericScore (Some theirs) = Some y ∧
       won = outcomeOf x y).
Proof.
  unfold deriveResult.
  destruct state as [st|]; [|by intros [= <- <-]].
  destruct (String.eqb st "post"); [|by intros [= <- <-]].
  destruct (truthy_opt focusScore && truthy_opt opponentScore) eqn:Hboth.
  - apply andb_true_iff in Hboth as [Hours Htheirs].
    destruct focusScore as [ours|]; [|done].
    destruct opponentScore as [theirs|]; [|done]. simpl in Hours, Htheirs.
    cbn [nullish_or].
    destruct (extractNumericScore (Some ours)) as [x|] eqn:Hx,
             (extractNumericScore (Some theirs)) as [y|] eqn:Hy.
    + assert (∀ won, (Some (ours +:+ " - " +:+ theirs), Some won) = (r, o) →
                     won = outcomeOf x y →
                     (∀ text, r = Some text → text ≠ "") ∧
                     (∀ won', o = Some won' →
                        ∃ ours' theirs' x' y',
                          r = Some (ours' +:+ " - " +:+ theirs') ∧
                          extractNumericScore (Some ours') = Some x' ∧
                          extractNumericScore (Some theirs') = Some y' ∧
                          won' = outcomeOf x' y')) as Hcase.
      { intros won [= <- <-] Hwon. split; [intros text [= <-]; by destruct ours|].
        intros won' [= <-]. by exists ours, theirs, x, y. }
      unfold outcomeOf in Hcase.
      destruct (y <? x) eqn:Hwin; [intros Heq; by eapply Hcase|].
      destruct (x <? y) eqn:Hloss; intros Heq; by eapply Hcase.
    + intros [= <- <-]. split; [intros text [= <-]; by destruct ours|done].
    + intros [= <- <-]. split; [intros text [= <-]; by destruct ours|done].
    + intros [= <- <-]. split; [intros text [= <-]; by destruct ours|done].
  - destruct (truthy_opt statusDetail) eqn:Hd.
    { intros [= <- <-]. split; [|done]. intros text ->. by destruct text. }
    destruct (truthy_opt statusDescription) eqn:Hs; intros [= <- <-];
      (split; [|done]); [|done]. intros text ->. by destruct text.
Qed.

Lemma normalizeUfcEvent_bare now seen event seen' e :
  normalizeUfcEvent now seen event = (seen', Some e) →
  result e = None ∧ outcome e = None.
Proof.
  unfold normalizeUfcEvent.
  destruct (UfcEvent.id event) as [event_id|]; [|done].
  destruct (negb (truthy event_id) || _); [done|].
  destruct (toISO _) as [startTime|]; [|done].
  destruct (negb (truthy startTime) || _); [done|].
  by intros [= _ <-].
Qed.

Lemma normalizeLegacyRow_result now seen row seen' e text :
  normalizeLegacyRow now seen row = Ok (seen', Some e) →
  result e = Some text → hasDigit text = true.
Proof.
  unfold normalizeLegacyRow.
  destruct (rowStartTime _) as [[startTime|]|]; simpl; [|done..].
  destruct (negb (truthy startTime) || _); [done|].
  destruct (length (HtmlRow.cells row) <? 7)%nat; [done|].
  destruct (rowUrl _) as [url|]; simpl; [|done].
  destruct (set_has seen _); [done|].
  intros [= _ <-]. simpl.
  destruct (cleanText _) as [score|]; [|done].
  destruct (hasDigit score) eqn:Hdigit; [|done]. by intros [= <-].
Qed.

(** X24.  No normalizer emits an empty result text.  A club event that
    carries an outcome carries the result ["{ours} - {theirs}"], both
    scores hold a number, and the outcome is the comparison of the two
    numbers; a card of the promotion carries neither result nor outcome;
    a roster result holds a digit. *)
Theorem normalizer_results_well_formed (nowAt : nat → Z) (run : NormalizerRun)
    (events : list CalendarEventWithMeta) (e : CalendarEventWithMeta) :
  produced nowAt run = Ok events →
  e ∈ events →
  (∀ text, result e = Some text → text ≠ "") ∧
  match run with
  | ClubRun _ _ =>
      ∀ won, outcome e = Some won →
        ∃ ours theirs x y,
          result e = Some (ours +:+ " - " +:+ theirs) ∧
          extractNumericScore (Some ours) = Some x ∧
          extractNumericScore (Some theirs) = Some y ∧
          won = outcomeOf x y
  | CombatRun _ => result e = None ∧ outcome e = None
  | RosterRun _ => ∀ text, result e = Some text → hasDigit text = true
  end.
Proof.
  intros Hrun Hin. destruct run as [raw team|data|html]; simpl in *.
  - injection Hrun as <-. unfold normalizeTeamEvents in Hin.
    apply normalizeTeamEvents_from_inv in Hin as (n & event & _ & He).
    apply normalizeTeamEvent_result in He. symmetry in He.
    by apply deriveResult_well_formed in He.
  - injection Hrun as <-. unfold normalizeUfcEvents in Hin.
    apply normalizeUfcEvents_from_inv in Hin as (n & s0 & s1 & event & _ & He).
    apply normalizeUfcEvent_bare in He as [Hr Ho]. rewrite Hr. done.
  - unfold normalizeLegacyCs2Matches in Hrun.
    destruct (normalizeLegacyRows_from_inv _ _ _ _ _ _ Hrun Hin)
      as (n & s0 & s1 & row & _ & He).
    assert (∀ text, result e = Some text → hasDigit text = true) as Hdigit.
    { intros text. by eapply normalizeLegacyRow_result. }
    split; [|done]. intros text Hr ->. by apply Hdigit in Hr.
Qed.

Lemma join_truthy sep piece pieces :
  truthy piece = true → join sep (piece :: pieces) ≠ "".
Proof. destruct piece; [done|]. by destruct pieces. Qed.

Lemma filterBoolean_truthy values piece :
  piece ∈ filterBoolean values → truthy piece = true.
Proof.
  unfold filterBoolean. intros (value & Hin & Hsome)%list_elem_of_omap.
  destruct value as [s|]; [|done]. destruct (truthy s) eqn:Hs; [|done]. by simplify_eq.
Qed.

Lemma filterBoolean_nil values :
  filterBoolean values = [] ↔ Forall missing values.
Proof.
  unfold missing. induction values as [|value values IH].
  - split; [constructor|done].
  - rewrite Forall_cons, <- IH. destruct value as [[|c s]|].
    + change (filterBoolean (Some "" :: values)) with (filterBoolean values).
      split; [intros ->; split; [by right|done]|by intros [_ ->]].
    + change (filterBoolean (Some (String c s) :: values))
        with (String c s :: filterBoolean values).
      split; [done|]. by intros [[?|?] _].
    + change (filterBoolean (None :: values)) with (filterBoolean values).
      split; [intros ->; split; [by left|done]|by intros [_ ->]].
Qed.

Lemma buildLocation_cases venue :
  buildLocation venue ≠ Some "" ∧
  (buildLocation venue = None ↔
   ∀ v, venue = Some v →
        missing (Venue.fullName v) ∧
        missing (Venue.address v?.Address.city) ∧
        missing (Venue.address v?.Address.country)).
Proof.
  unfold buildLocation. destruct venue as [v|]; [|by split].
  destruct (filterBoolean _) as [|piece pieces] eqn:Hpieces.
  - split; [done|]. split; [|done]. intros _ ? [= <-].
    apply filterBoolean_nil in Hpieces.
    by apply Forall_cons in Hpieces as [? [? [? _]%Forall_cons]%Forall_cons].
  - assert (truthy piece = true) as Hpiece.
    { apply (filterBoolean_truthy
               [Venue.fullName v; Venue.address v?.Address.city;
                Venue.address v?.Address.country]).
      rewrite Hpieces. by left. }
    split; [intros [= Hjoin]; by eapply join_truthy|].
    split; [done|]. intros Hmissing. destruct (Hmissing v eq_refl) as (H1 & H2 & H3).
    assert (filterBoolean
              [Venue.fullName v; Venue.address v?.Address.city;
               Venue.address v?.Address.country] = []) as Hnil.
    { apply filterBoolean_nil. repeat (constructor; [done|]). constructor. }
    congruence.
Qed.

(** X25.  The location of a club event is never the empty string, and it
    is absent exactly when the fixture has no venue or the venue has
    neither a name, nor a city, nor a country (each absent or empty). *)
Theorem club_location_never_blank (now : Z) (team : TeamSourceKey)
    (event : TeamEvent.t) (e : CalendarEventWithMeta) :
  normalizeTeamEvent now team event = Some e →
  location e ≠ Some "" ∧
  (location e = None ↔
   ∀ v, fixtureVenue event = Some v →
        missing (Venue.fullName v) ∧
        missing (Venue.address v?.Address.city) ∧
        missing (Venue.address v?.Address.country)).
Proof.
  unfold normalizeTeamEvent.
  destruct (toISO _) as [startTime|]; [|done].
  destruct (negb (truthy startTime) || _); [done|].
  destruct (deriveResult _ _ _ _ _) as [r o]. intros [= <-]. cbn [location].
  apply buildLocation_cases.
Qed.

End Results.

(** ** The records of the read endpoint *)

Section Records.
Context {P : Platform}.


End Records.

(** ** The pipeline on the sample platform *)

#[local] Existing Instance Sample.run.

(** *** Aggregation with one source down *)

(** C1 fails as stated: with the promotion's scoreboard down and the
    other three sources answering, the aggregation call throws and the
    endpoint answers 500, where the claim has a feed of three sources. *)
Lemma aggregation_aborts_when_one_source_fails :
  is_ok (fetchManchesterUnitedEvents Sample.ufcDown) = true ∧
  is_ok (fetchLeedsUnitedEvents Sample.ufcDown) = true ∧
  is_ok (fetchLegacyCs2Events Sample.ufcDown) = true ∧
  is_ok (fetchUfcEvents Sample.ufcDown) = false ∧
  ¬ (∃ feed, getCalendarEvents Sample.ufcDown = Ok feed) ∧
  response_status (GET Sample.ufcDown) = 500.
Proof.
  run_each. intros [feed Hfeed]. vm_compute in Hfeed. discriminate.
Qed.

Lemma getCalendarEvents_all_or_nothing_witness :
  allSourcesOk Sample.ufcDown = false ∧
  is_ok (getCalendarEvents Sample.ufcDown) = false ∧
  response_status (GET Sample.ufcDown) = 500 ∧
  response_body (GET Sample.ufcDown) = ErrorPayload "Failed to load events".
Proof.
  split; [vm_compute; reflexivity|].
  apply (getCalendarEvents_all_or_nothing Sample.ufcDown). vm_compute; reflexivity.
Defined.

(** *** The public record *)

(** C2 at a failing input: the roster match of the calm world carries a
    [url], and the record the endpoint returns for it still has it, as a
    key of the JSON text that the declared type [CalendarEvent] lacks. *)
Theorem GET_keeps_url :
  response_status (GET Sample.calm) = 200 ∧
  List.map public_url (payloadEvents (GET Sample.calm)) =
    [None; Some "https://liquipedia.net/counterstrike/CCT/Season_3"; None; None] ∧
  List.map undeclaredKeys (payloadEvents (GET Sample.calm)) = [[]; ["url"]; []; []].
Proof. run_each. Qed.

(** *** A concluded fixture *)

(** C3 fails as stated: the abandoned fixture is concluded, neither score
    holds a number, a textual status is there, and the result is made of
    the score strings, not of the status. *)
Lemma club_result_ignores_status_when_scores_present :
  ∃ e, normalizeTeamEvent Sample.noon TEAM_MANCHESTER_UNITED Sample.unitedChelseaAbandoned
         = Some e ∧
       fixtureState Sample.unitedChelseaAbandoned = Some "post" ∧
       extractNumericScore
         (ourScore TEAM_MANCHESTER_UNITED Sample.unitedChelseaAbandoned) = None ∧
       extractNumericScore
         (theirScore TEAM_MANCHESTER_UNITED Sample.unitedChelseaAbandoned) = None ∧
       statusText Sample.unitedChelseaAbandoned = Some "Abandoned" ∧
       result e = Some "A - A" ∧
       result e ≠ statusText Sample.unitedChelseaAbandoned.
Proof. eexists. run_each. vm_compute. discriminate. Qed.

Lemma club_result_of_concluded_fixture_witness :
  ∃ e, normalizeTeamEvent Sample.noon TEAM_MANCHESTER_UNITED (Sample.unitedChelsea "2" "1")
         = Some e ∧
       fixtureState (Sample.unitedChelsea "2" "1") = Some "post" ∧
       result e = Some "2 - 1" ∧ outcome e = Some WIN.
Proof.
  eexists. split; [vm_compute; reflexivity|]. split; [vm_compute; reflexivity|].
  edestruct (club_result_of_concluded_fixture Sample.noon TEAM_MANCHESTER_UNITED
               (Sample.unitedChelsea "2" "1")) as [Hnumeric _];
    [vm_compute; reflexivity|vm_compute; reflexivity|].
  destruct (Hnumeric "2" "1" 2 1) as (Hresult & Hwin & _);
    [vm_compute; reflexivity..|].
  split; [exact Hresult|apply Hwin; lia].
Defined.

(** *** The club adapters with the second division down *)

(** C4 fails as stated: the first-division scoreboard answers, with no
    Leeds United entry, the second-division one fails, and the fetch
    throws. *)
Lemma scoreboard_fetch_throws_though_one_endpoint_answered :
  List.map is_ok (scoreboardResponses Sample.secondDivisionDown TEAM_LEEDS_UNITED)
    = [true; false] ∧
  is_ok (fetchTeamScoreboardEvents Sample.secondDivisionDown TEAM_LEEDS_UNITED) = false.
Proof. run_each. Qed.

(** C5 fails as stated: the first-division schedule answers with no
    event, the second-division one fails, and the fetch throws although
    not every endpoint failed. *)
Lemma schedule_fetch_throws_though_one_endpoint_answered :
  List.map is_ok (scheduleResponses Sample.secondDivisionDown TEAM_LEEDS_UNITED)
    = [true; false] ∧
  is_ok (fetchTeamSchedule Sample.secondDivisionDown TEAM_LEEDS_UNITED) = false.
Proof. run_each. Qed.

Lemma fetchTeamScoreboardEvents_outcome_witness :
  collected Sample.secondDivisionDown TEAM_LEEDS_UNITED = [] ∧
  fetchTeamScoreboardEvents Sample.secondDivisionDown TEAM_LEEDS_UNITED =
    Throw ("Failed to fetch " +:+
           "https://site.api.espn.com/apis/site/v2/sports/soccer/eng.2/scoreboard" +:+
           "?limit=200&dates=20261002-20270502" +:+ ": 503 Service Unavailable").
Proof.
  split; [vm_compute; reflexivity|].
  apply (fetchTeamScoreboardEvents_outcome Sample.secondDivisionDown TEAM_LEEDS_UNITED).
  split; vm_compute; reflexivity.
Defined.

Lemma fetchTeamSchedule_outcome_witness :
  scheduleResponses Sample.calm TEAM_LEEDS_UNITED =
    [Ok Sample.noEvents; Ok {| schedule_events := Some [Sample.leedsArsenal] |}] ∧
  fetchTeamSchedule Sample.calm TEAM_LEEDS_UNITED =
    Ok (Some {| schedule_events := Some [Sample.leedsArsenal] |}).
Proof.
  split; [vm_compute; reflexivity|].
  destruct (fetchTeamSchedule_outcome Sample.calm TEAM_LEEDS_UNITED) as [Haccept _].
  apply (Haccept [Ok Sample.noEvents] _ []).
  - vm_compute; reflexivity.
  - repeat constructor.
  - by right.
Defined.

(** *** Schedule and scoreboard entries of one fixture *)

Lemma mergeAndSortEvents_last_write_wins_witness :
  List.map id Sample.fromSchedule = ["MANCHESTER_UNITED-740700"] ∧
  List.map id Sample.fromScoreboard = ["MANCHESTER_UNITED-740700"] ∧
  List.map id (mergeAndSortEvents [Sample.fromSchedule; Sample.fromScoreboard])
    = ["MANCHESTER_UNITED-740700"] ∧
  List.map result (mergeAndSortEvents [Sample.fromSchedule; Sample.fromScoreboard])
    = [Some "2 - 1"] ∧
  ∀ e, e ∈ mergeAndSortEvents [Sample.fromSchedule; Sample.fromScoreboard] →
       e ∈ Sample.fromScoreboard.
Proof.
  do 4 (split; [vm_compute; reflexivity|]).
  intros e Hin.
  destruct (mergeAndSortEvents_last_write_wins [Sample.fromSchedule; Sample.fromScoreboard])
    as (_ & _ & _ & Hlater).
  apply (Hlater Sample.fromSchedule Sample.fromScoreboard e eq_refl Hin).
  vm_compute in Hin. apply list_elem_of_singleton in Hin as ->.
  vm_compute. by left.
Defined.

(** *** The feed of the calm world *)

Lemma feed_sorted_by_time_then_source_witness :
  ∃ feed A B,
    getCalendarEvents Sample.calm = Ok feed ∧
    feed !! 0%nat = Some A ∧ feed !! 1%nat = Some B ∧
    source A = MANCHESTER_UNITED ∧ source B = LEGACY_CS2 ∧
    ∃ tA tB, getTime A = Some tA ∧ getTime B = Some tB ∧
      (tA < tB → (0 < 1)%nat) ∧
      (tA = tB → SORT_ORDER (source A) < SORT_ORDER (source B) → (0 < 1)%nat).
Proof.
  eexists _, _, _. split; [vm_compute; reflexivity|].
  do 4 (split; [vm_compute; reflexivity|]).
  eapply (feed_sorted_by_time_then_source Sample.calm); vm_compute; reflexivity.
Defined.

Lemma normalizers_emit_within_window_witness :
  ∃ events e,
    produced (λ _, Sample.noon) (RosterRun Sample.wonPage) = Ok events ∧
    e ∈ events ∧
    ∃ (n : nat) t, parseDate (startTimeUTC e) = Some t ∧
           subMonths Sample.noon 3 <= t <= addMonths Sample.noon 18.
Proof.
  eexists _, _. split; [vm_compute; reflexivity|]. split; [by left|].
  eapply (normalizers_emit_within_window (λ _, Sample.noon) (RosterRun Sample.wonPage));
    [vm_compute; reflexivity|by left].
Defined.

(** *** Rows of seven and of six cells *)

(** C9 fails as stated: the row of seven cells has passed the class and
    timestamp checks, has fewer than 8 cells, and yields an event. *)
Lemma roster_row_of_seven_cells_is_kept :
  isMatchRow Sample.sevenCellRow = true ∧
  length (HtmlRow.cells Sample.sevenCellRow) = 7%nat ∧
  List.map title
    (match normalizeLegacyCs2Matches (λ _, Sample.noon) Sample.sevenCellPage with
     | Ok events => events
     | Throw _ => []
     end) = ["CCT Season 3"].
Proof. run_each. Qed.

Lemma roster_row_under_seven_cells_witness :
  (length (HtmlRow.cells Sample.sixCellRow) < 7)%nat ∧
  normalizeLegacyRow Sample.noon [] Sample.sixCellRow = Ok ([], None).
Proof.
  assert (length (HtmlRow.cells Sample.sixCellRow) < 7)%nat as Hcells by (simpl; lia).
  split; [exact Hcells|].
  destruct (roster_row_under_seven_cells Sample.noon [] Sample.sixCellRow Hcells)
    as [_ Hskipped].
  apply (Hskipped "2026-11-01T18:00:00.000Z"); vm_compute; reflexivity.
Defined.

(** *** Titles *)

(** C10 at a failing input: a card whose name is the empty string yields
    an event whose title is the empty string. *)
Theorem normalizeUfcEvents_empty_title :
  List.map title
    (normalizeUfcEvents (λ _, Sample.noon) {| ufc_events := Some [Sample.ufcUnnamed] |})
  = [""].
Proof. vm_compute. reflexivity. Qed.

(** *** The boundary of the window *)

(** A fixture exactly one month behind the clock is kept, one a
    millisecond earlier is dropped; one exactly six months ahead is kept,
    one a millisecond later is dropped. *)
Example window_boundaries :
  isWithinDefaultWindow Sample.noon "2026-10-02T12:00:00.000Z" = true ∧
  isWithinDefaultWindow Sample.noon "2026-10-02T11:59:59.999Z" = false ∧
  isWithinDefaultWindow Sample.noon "2027-05-02T12:00:00.000Z" = true ∧
  isWithinDefaultWindow Sample.noon "2027-05-02T12:00:00.001Z" = false.
Proof. run_each. Qed.

(** The scenarios of the outcome derivation. *)
Example outcome_scenarios :
  let outcomeOf ours theirs :=
    normalizeTeamEvent Sample.noon TEAM_MANCHESTER_UNITED (Sample.unitedChelsea ours theirs)
    ≫= λ e, Some (result e, outcome e) in
  outcomeOf "2" "1" = Some (Some "2 - 1", Some WIN) ∧
  outcomeOf "1" "2" = Some (Some "1 - 2", Some LOSS) ∧
  outcomeOf "1" "1" = Some (Some "1 - 1", Some DRAW).
Proof. cbv zeta. run_each. Qed.

(** *** Identifiers and make-up of the calm feed *)

Lemma feed_ids_unique_witness :
  ∃ feed,
    getCalendarEvents Sample.calm = Ok feed ∧
    NoDup (List.map id feed) ∧ ∀ e, e ∈ feed → carriesSource e.
Proof.
  eexists. split; [vm_compute; reflexivity|].
  apply (feed_ids_unique Sample.calm). vm_compute; reflexivity.
Defined.

Lemma feed_is_permutation_of_sources_witness :
  ∃ manUnited leeds legacyCs2 ufc,
    fetchManchesterUnitedEvents Sample.calm = Ok manUnited ∧
    fetchLeedsUnitedEvents Sample.calm = Ok leeds ∧
    fetchLegacyCs2Events Sample.calm = Ok legacyCs2 ∧
    fetchUfcEvents Sample.calm = Ok ufc ∧
    ∃ feed, getCalendarEvents Sample.calm = Ok feed ∧
            feed ≡ₚ manUnited ++ leeds ++ legacyCs2 ++ ufc.
Proof.
  eexists _, _, _, _. do 4 (split; [vm_compute; reflexivity|]).
  apply (feed_is_permutation_of_sources Sample.calm); vm_compute; reflexivity.
Defined.

Lemma sortEvents_feed_fixpoint_witness :
  ∃ feed, getCalendarEvents Sample.calm = Ok feed ∧ sortEvents feed = feed.
Proof.
  eexists. split; [vm_compute; reflexivity|].
  apply (sortEvents_feed_fixpoint Sample.calm). vm_compute; reflexivity.
Defined.


(** *** Where the events of the normalizers come from *)

Lemma normalizeTeamEvents_provenance_witness :
  ∃ e,
    e ∈ normalizeTeamEvents (λ _, Sample.noon) (Some [Sample.unitedChelsea "2" "1"])
          TEAM_MANCHESTER_UNITED ∧
    ∃ event s t,
      event ∈ [Sample.unitedChelsea "2" "1"] ∧
      fixtureDate event = Some s ∧ parseDate s = Some t ∧
      startTimeUTC e = toISOString t ∧
      source e = MANCHESTER_UNITED ∧
      id e = "MANCHESTER_UNITED" +:+ "-" +:+
             nullish_or (TeamEvent.id event) (toISOString t).
Proof.
  eexists. split; [vm_compute; left|].
  apply (normalizeTeamEvents_provenance (λ _, Sample.noon)
           (Some [Sample.unitedChelsea "2" "1"]) TEAM_MANCHESTER_UNITED).
  vm_compute. left.
Defined.

Lemma normalizeUfcEvents_first_occurrence_witness :
  ∃ e,
    e ∈ normalizeUfcEvents (λ _, Sample.noon) Cases.cardTwice ∧
    ∃ i event k s t,
      nullish_or (ufc_events Cases.cardTwice) [] !! i = Some event ∧
      UfcEvent.id event = Some k ∧ k ≠ "" ∧
      id e = "UFC-" +:+ k ∧
      cardDate event = Some s ∧ parseDate s = Some t ∧ startTimeUTC e = toISOString t ∧
      ∀ j event', (j < i)%nat →
                  nullish_or (ufc_events Cases.cardTwice) [] !! j = Some event' →
                  UfcEvent.id event' ≠ Some k.
Proof.
  eexists. split; [vm_compute; left|].
  apply (normalizeUfcEvents_first_occurrence (λ _, Sample.noon) Cases.cardTwice).
  vm_compute. left.
Defined.

Lemma normalizer_ids_unique_witness :
  ∃ events,
    produced (λ _, Sample.noon) (CombatRun Cases.cardTwice) = Ok events ∧
    (∀ raw team, CombatRun Cases.cardTwice ≠ ClubRun raw team) ∧
    length events = 1%nat ∧
    NoDup (List.map id events).
Proof.
  eexists. split; [vm_compute; reflexivity|]. split; [done|].
  split; [vm_compute; reflexivity|].
  apply (normalizer_ids_unique (λ _, Sample.noon) (CombatRun Cases.cardTwice));
    [vm_compute; reflexivity|done].
Defined.

Lemma normalizeLegacyCs2Matches_provenance_witness :
  ∃ events e,
    normalizeLegacyCs2Matches (λ _, Sample.noon) Sample.wonPage = Ok events ∧
    e ∈ events ∧
    ∃ row a ts,
      row ∈ querySelectorAll_tr Sample.wonPage ∧ isMatchRow row = true ∧
      HtmlRow.dataTimestamp row = Some a ∧ parseInt a = Some ts ∧
      id e = "LEGACY_CS2-" +:+ a ∧
      startTimeUTC e = toISOString (ts * 1000) ∧
      source e = LEGACY_CS2.
Proof.
  eexists _, _. split; [vm_compute; reflexivity|]. split; [by left|].
  eapply (normalizeLegacyCs2Matches_provenance (λ _, Sample.noon) Sample.wonPage);
    [vm_compute; reflexivity|by left].
Defined.

Lemma normalizer_results_well_formed_witness :
  ∃ events e,
    produced (λ _, Sample.noon)
      (ClubRun (Some [Sample.unitedChelsea "2" "1"]) TEAM_MANCHESTER_UNITED) = Ok events ∧
    e ∈ events ∧
    outcome e = Some WIN ∧
    (∀ text, result e = Some text → text ≠ "") ∧
    ∀ won, outcome e = Some won →
      ∃ ours theirs x y,
        result e = Some (ours +:+ " - " +:+ theirs) ∧
        extractNumericScore (Some ours) = Some x ∧
        extractNumericScore (Some theirs) = Some y ∧
        won = outcomeOf x y.
Proof.
  eexists _, _. split; [vm_compute; reflexivity|]. split; [by left|].
  split; [vm_compute; reflexivity|].
  eapply (normalizer_results_well_formed (λ _, Sample.noon)
            (ClubRun (Some [Sample.unitedChelsea "2" "1"]) TEAM_MANCHESTER_UNITED));
    [vm_compute; reflexivity|by left].
Defined.

(** *** A time stamp beyond the range of [Date] *)

Lemma roster_timestamp_out_of_range_aborts_feed_witness :
  fetchJson_liquipedia Cases.lateWorld buildLiquipediaUrl
    = Ok {| parse_text := Some Cases.latePage |} ∧
  Cases.lateRow ∈ @querySelectorAll_tr Cases.lateRun Cases.latePage ∧
  isMatchRow Cases.lateRow = true ∧
  HtmlRow.dataTimestamp Cases.lateRow = Some "9000000000000" ∧
  parseInt "9000000000000" = Some 9000000000000 ∧
  8640000000000000 < Z.abs (9000000000000 * 1000) ∧
  is_ok (@normalizeLegacyCs2Matches Cases.lateRun (clock Cases.lateWorld NormalizeLegacy)
           Cases.latePage) = false ∧
  is_ok (@getCalendarEvents Cases.lateRun Cases.lateWorld) = false ∧
  response_status (@GET Cases.lateRun Cases.lateWorld) = 500.
Proof.
  split; [vm_compute; reflexivity|]. split; [vm_compute; left|].
  do 3 (split; [vm_compute; reflexivity|]). split; [done|].
  apply (@roster_timestamp_out_of_range_aborts_feed Cases.lateRun Cases.lateWorld
           {| parse_text := Some Cases.latePage |} Cases.latePage Cases.lateRow
           "9000000000000" 9000000000000);
    try (vm_compute; reflexivity); try done.
  vm_compute. left.
Defined.

(** *** The club feed on a match day *)


Lemma scoreboard_entry_supersedes_schedule_witness :
  ∃ events scoreboardEvents e,
    fetchTeamEvents Cases.matchDay TEAM_MANCHESTER_UNITED = Ok events ∧
    fetchTeamScoreboardEvents Cases.matchDay TEAM_MANCHESTER_UNITED = Ok scoreboardEvents ∧
    e ∈ events ∧
    id e ∈ List.map id
             (normalizeTeamEvents (clock Cases.matchDay (NormalizeScoreboard TEAM_MANCHESTER_UNITED))
                (Some scoreboardEvents) TEAM_MANCHESTER_UNITED) ∧
    result e = Some "2 - 1" ∧
    e ∈ normalizeTeamEvents (clock Cases.matchDay (NormalizeScoreboard TEAM_MANCHESTER_UNITED))
          (Some scoreboardEvents) TEAM_MANCHESTER_UNITED.
Proof.
  eexists _, _, _. do 2 (split; [vm_compute; reflexivity|]).
  split; [by left|]. split; [vm_compute; left|]. split; [vm_compute; reflexivity|].
  eapply (scoreboard_entry_supersedes_schedule Cases.matchDay TEAM_MANCHESTER_UNITED);
    [vm_compute; reflexivity|vm_compute; reflexivity|by left|vm_compute; left].
Defined.

(** *** Text, titles and locations *)

Lemma cleanText_normal_form_witness :
  cleanText (Some "  A-Tier   Online ") = Some "A-Tier Online" ∧
  "A-Tier Online" ≠ "" ∧ trim "A-Tier Online" = "A-Tier Online" ∧
  collapseSpaces "A-Tier Online" = "A-Tier Online" ∧
  singleSpaced false (chars "A-Tier Online") = true ∧
  cleanText (Some "A-Tier Online") = Some "A-Tier Online".
Proof.
  split; [vm_compute; reflexivity|].
  apply (cleanText_normal_form (Some "  A-Tier   Online ")). vm_compute; reflexivity.
Defined.

Lemma normalizeTeamEvent_title_format_witness :
  ∃ e,
    normalizeTeamEvent Sample.noon TEAM_LEEDS_UNITED Sample.leedsArsenal = Some e ∧
    title e = "Leeds United vs Arsenal" ∧
    ∃ qualifier,
      (qualifier = "@" ∧ ourSide TEAM_LEEDS_UNITED Sample.leedsArsenal = Some "away" ∨
       qualifier = "vs" ∧ ourSide TEAM_LEEDS_UNITED Sample.leedsArsenal ≠ Some "away") ∧
      title e = displayName (TEAM_SOURCES TEAM_LEEDS_UNITED) +:+ " " +:+ qualifier +:+
                trimEnd (" " +:+ opponentName TEAM_LEEDS_UNITED Sample.leedsArsenal) ∧
      subtitle e = Some (opponentName TEAM_LEEDS_UNITED Sample.leedsArsenal).
Proof.
  eexists. split; [vm_compute; reflexivity|]. split; [vm_compute; reflexivity|].
  apply (normalizeTeamEvent_title_format Sample.noon TEAM_LEEDS_UNITED Sample.leedsArsenal).
  vm_compute; reflexivity.
Defined.

Lemma club_location_never_blank_witness :
  ∃ e,
    normalizeTeamEvent Sample.noon TEAM_LEEDS_UNITED Sample.leedsArsenal = Some e ∧
    location e ≠ Some "" ∧
    (location e = None ↔
     ∀ v, fixtureVenue Sample.leedsArsenal = Some v →
          missing (Venue.fullName v) ∧
          missing (Venue.address v?.Address.city) ∧
          missing (Venue.address v?.Address.country)).
Proof.
  eexists. split; [vm_compute; reflexivity|].
  apply (club_location_never_blank Sample.noon TEAM_LEEDS_UNITED Sample.leedsArsenal).
  vm_compute; reflexivity.
Defined.

(** *** The pages on the calm feed *)

Lemma selectedDayEvents_of_day_witness :
  "2026-11-01" ≠ "" ∧
  (∀ event, event ∈ Cases.enhancedEvents → onDay "2026-11-01" event = true →
            hasValidTime (ui_event event)) ∧
  List.map (λ event, id (ui_event event))
    (selectedDayEvents "2026-11-01" (eventsByDay Cases.enhancedEvents))
    = ["LEGACY_CS2-1793556000"] ∧
  selectedDayEvents "2026-11-01" (eventsByDay Cases.enhancedEvents)
    ≡ₚ List.filter (onDay "2026-11-01") Cases.enhancedEvents ∧
  StronglySorted startsNoLaterUi
    (selectedDayEvents "2026-11-01" (eventsByDay Cases.enhancedEvents)).
Proof.
  assert (∀ event, event ∈ Cases.enhancedEvents → onDay "2026-11-01" event = true →
                   hasValidTime (ui_event event)) as Hvalid.
  { intros event Hin _. vm_compute in Hin.
    repeat (apply elem_of_cons in Hin as [->|Hin]; [by eexists|]).
    by apply elem_of_nil in Hin. }
  split; [done|]. split; [exact Hvalid|]. split; [vm_compute; reflexivity|].
  apply (selectedDayEvents_of_day Cases.enhancedEvents "2026-11-01"); [done|exact Hvalid].
Defined.

Lemma buildTournamentDigests_lastDate_witness :
  ∃ digest,
    digest ∈ buildTournamentDigests Cases.untitled Cases.byCodeUnits Sample.noon Cases.feed ∧
    TournamentDigest.name digest = "CCT Season 3" ∧
    ∃ last,
      TournamentDigest.lastDateUTC digest = Some last ∧
      (∃ event, event ∈ Cases.feed ∧ inTournament Cases.untitled digest event = true ∧
                startTimeUTC event = last) ∧
      ∀ event, event ∈ Cases.feed → inTournament Cases.untitled digest event = true →
               stringGreater (startTimeUTC event) last = false.
Proof.
  eexists. split; [vm_compute; right; right; left|].
  split; [vm_compute; reflexivity|].
  apply (buildTournamentDigests_lastDate Cases.untitled Cases.byCodeUnits Sample.noon
           Cases.feed).
  vm_compute. right; right; left.
Defined.

Lemma buildTournamentDigests_nextDate_witness :
  parseDate "" = None ∧
  ∃ digest,
    digest ∈ buildTournamentDigests Cases.untitled Cases.byCodeUnits Sample.noon Cases.feed ∧
    TournamentDigest.name digest = "UFC 322" ∧
    match TournamentDigest.nextDateUTC digest with
    | None =>
        ∀ event, event ∈ Cases.feed → inTournament Cases.untitled digest event = true →
                 ¬ upcomingAt Sample.noon event
    | Some next =>
        ∃ event start,
          event ∈ Cases.feed ∧ inTournament Cases.untitled digest event = true ∧
          startTimeUTC event = next ∧ getTime event = Some start ∧ Sample.noon <= start ∧
          ∀ other start', other ∈ Cases.feed →
                          inTournament Cases.untitled digest other = true →
                          getTime other = Some start' → Sample.noon <= start' →
                          start <= start'
    end.
Proof.
  split; [vm_compute; reflexivity|].
  eexists. split; [vm_compute; right; right; right; left|].
  split; [vm_compute; reflexivity|].
  apply (buildTournamentDigests_nextDate Cases.untitled Cases.byCodeUnits Sample.noon
           Cases.feed); [vm_compute; reflexivity|].
  vm_compute. right; right; right; left.
Defined.
